(** * ECGV: the signal-processing and interval-analysis core

    A shallow embedding of the numerical core of the ECG viewer
    ([analysis/ecg_toolbox.py]) and of the heartbeat segmentation of the
    data handler ([modules/data_handler.py]), with the properties that the
    design document states about them.

    Conventions.
    - A Python exception is a value of [exn]; a function that can raise
      returns a [result].
    - A pandas row set is represented by the list of its index labels.
    - A [while] loop whose termination is not evident from its shape takes
      a fuel argument and returns [None] when the fuel is used up. *)

From Stdlib Require Import String Ascii DecimalString.
From Stdlib Require Import List ZArith QArith Lia Bool Sorted.
From Stdlib Require Import Floats.
From Stdlib Require Reals Lra.
Import ListNotations.

Set Implicit Arguments.

(** ** Exceptions and results *)

Inductive exn : Type :=
| ValueError (msg : string)
| TypeError (msg : string)
| KeyError (msg : string).

Inductive result (A : Type) : Type :=
| Ok (a : A)
| Err (e : exn).

Arguments Ok {A} a.
Arguments Err {A} e.

Definition bind {A B : Type} (r : result A) (k : A -> result B) : result B :=
  match r with
  | Ok a => k a
  | Err e => Err e
  end.

Notation "x <- r ;; k" := (bind r (fun x => k))
  (at level 61, r at next level, right associativity).

Lemma Ok_inj {A : Type} (a b : A) : Ok a = Ok b -> a = b.
Proof. intros H. injection H as H. exact H. Qed.

(** ** Python sequences *)

(** A slice bound [i] of [s[a:b]] on a sequence of length [n]: a negative
    bound counts from the end, and both are clipped to [0 .. n]. *)
Definition clip_index (n i : Z) : Z :=
  (if i <? 0 then Z.max (i + n) 0 else Z.min i n)%Z.

(** The positional slice [s[a:b]] (step 1). *)
Definition py_slice {A : Type} (s : list A) (a b : Z) : list A :=
  let n := Z.of_nat (length s) in
  let start := clip_index n a in
  let stop := clip_index n b in
  firstn (Z.to_nat (stop - start)) (skipn (Z.to_nat start) s).

(** [range(n)] *)
Definition range (n : nat) : list Z := map Z.of_nat (seq 0 n).

Lemma nth_map_lt {A B : Type} (f : A -> B) (l : list A) (d : A) (d' : B) (j : nat) :
  (j < length l)%nat -> nth j (map f l) d' = f (nth j l d).
Proof.
  intros Hj. rewrite (nth_indep _ d' (f d)) by (rewrite length_map; exact Hj).
  apply map_nth.
Qed.

Lemma StronglySorted_filter {A : Type} (R : A -> A -> Prop) (f : A -> bool)
  (l : list A) :
  StronglySorted R l -> StronglySorted R (filter f l).
Proof.
  induction 1 as [|a l Hs IH Ha]; simpl.
  - constructor.
  - destruct (f a); [|exact IH]. constructor; [exact IH|].
    rewrite Forall_forall in *. intros y Hy. apply filter_In in Hy.
    apply Ha, Hy.
Qed.

Lemma seq_StronglySorted (len : nat) :
  forall start, StronglySorted lt (seq start len).
Proof.
  induction len as [|len IH]; intros start; simpl; constructor.
  - apply IH.
  - apply Forall_forall. intros y Hy. apply in_seq in Hy. lia.
Qed.

Lemma StronglySorted_of_nat (l : list nat) :
  StronglySorted lt l -> StronglySorted Z.lt (map Z.of_nat l).
Proof.
  induction 1 as [|a l Hs IH Ha]; simpl; constructor.
  - exact IH.
  - rewrite Forall_forall in *. intros y Hy. apply in_map_iff in Hy.
    destruct Hy as [x [<- Hx]]. apply Nat2Z.inj_lt, Ha, Hx.
Qed.

(** In an increasing list nothing exceeds the last element. *)
Lemma StronglySorted_le_last (l : list Z) (d : Z) :
  StronglySorted Z.lt l -> Forall (fun x => (x <= last l d)%Z) l.
Proof.
  induction 1 as [|a l Hs IH Ha]; [constructor|].
  destruct l as [|b l].
  - constructor; [simpl; lia | constructor].
  - change (last (a :: b :: l) d) with (last (b :: l) d). constructor.
    + inversion Ha as [|? ? Hab _]; subst.
      inversion IH as [|? ? Hb _]; subst. lia.
    + exact IH.
Qed.

(** ** Arithmetic

    The numerical code is written once, over the operations that numpy and
    pandas apply to 64-bit floats. [Number] collects them. Two instances
    follow: [binary64], the IEEE 754 doubles on which the program runs, and
    [xreal], exact real arithmetic extended with the special values
    [+inf], [-inf] and [NaN], in which rounding is absent. *)

Class Number (F : Type) : Type := {
  fnan : F;
  of_Z : Z -> F;
  fadd : F -> F -> F;
  fsub : F -> F -> F;
  fmul : F -> F -> F;
  fdiv : F -> F -> F;
  fopp : F -> F;
  fabs : F -> F;
  fsqrt : F -> F;
  (** [x < y] and [x <= y]: false when an operand is NaN. *)
  fltb : F -> F -> bool;
  fleb : F -> F -> bool;
  fisnan : F -> bool;
  (** The elementary functions of the C library. *)
  fexp : F -> F;
  fcos : F -> F;
  fsin : F -> F;
  fpi : F
}.

Declare Scope num_scope.
Delimit Scope num_scope with num.
Infix "+" := fadd : num_scope.
Infix "-" := fsub : num_scope.
Infix "*" := fmul : num_scope.
Infix "/" := fdiv : num_scope.
Notation "- x" := (fopp x) : num_scope.
Infix "<?" := fltb : num_scope.
Infix "<=?" := fleb : num_scope.

Section NumberOps.

Context {F : Type} {num : Number F}.

Definition fzero : F := of_Z 0.
Definition fone : F := of_Z 1.
Definition finfinity : F := (fone / fzero)%num.

(** [x > y] and [x >= y] *)
Definition fgtb (x y : F) : bool := (y <? x)%num.
Definition fgeb (x y : F) : bool := (y <=? x)%num.

(** A decimal literal [n/d], correctly rounded when [n] and [d] are small. *)
Definition of_ratio (n d : Z) : F := (of_Z n / of_Z d)%num.

(** *** numpy on arrays *)

(** [numpy.sum(a)] *)
Definition np_sum (a : list F) : F := fold_left fadd a fzero.

(** [numpy.mean(a)] of an array: NaN (0/0) when [a] is empty. *)
Definition np_mean (a : list F) : F :=
  (np_sum a / of_Z (Z.of_nat (length a)))%num.

(** [numpy.diff(a)] *)
Fixpoint diff_from (prev : F) (a : list F) : list F :=
  match a with
  | [] => []
  | x :: rest => (x - prev)%num :: diff_from x rest
  end.

Definition np_diff (a : list F) : list F :=
  match a with
  | [] => []
  | x :: rest => diff_from x rest
  end.

(** [numpy.min(a)]: a NaN wins; an empty array raises. *)
Definition fmin (x y : F) : F :=
  if fisnan x then x else if fisnan y then y
  else if (y <? x)%num then y else x.

Definition np_min (a : list F) : result F :=
  match a with
  | [] => Err (ValueError
      "zero-size array to reduction operation minimum which has no identity")
  | x :: rest => Ok (fold_left fmin rest x)
  end.

(** [numpy.arange(n)] as floats *)
Definition np_arange (n : nat) : list F := map of_Z (range n).

(** [numpy.convolve(a, v, 'same')]: the centre of the full convolution
    [c[k] = sum_j a[j] * v[k - j]], as long as the longer argument. *)
Definition conv_at (a v : list F) (k : nat) : F :=
  np_sum (map (fun j => (nth j a fzero * nth (k - j) v fzero)%num)
              (filter (fun j => (j <=? k)%nat && (k - j <? length v)%nat)
                      (seq 0 (length a)))).

Definition np_convolve_same (a v : list F) : result (list F) :=
  let (a, v) := if (length a <? length v)%nat then (v, a) else (a, v) in
  if (length a =? 0)%nat then Err (ValueError "a cannot be empty")
  else if (length v =? 0)%nat then Err (ValueError "v cannot be empty")
  else Ok (map (fun i => conv_at a v (i + (length v - 1) / 2))
               (seq 0 (length a))).

(** *** pandas on series values *)

(** [s.diff()] *)
Definition pd_diff (s : list F) : list F :=
  match s with
  | [] => []
  | _ :: _ => fnan :: np_diff s
  end.

(** [s.fillna(value)] *)
Definition pd_fillna (value : F) (s : list F) : list F :=
  map (fun x => if fisnan x then value else x) s.

(** [s.bfill()]: a NaN takes the next valid value, if there is one. *)
Fixpoint pd_bfill (s : list F) : list F :=
  match s with
  | [] => []
  | x :: rest =>
      let rest' := pd_bfill rest in
      (if fisnan x then hd fnan rest' else x) :: rest'
  end.

Definition dropna (s : list F) : list F :=
  filter (fun x => negb (fisnan x)) s.

(** [s.mean()], and [numpy.mean(s)] which calls it: NaNs are skipped, and
    the mean of nothing is NaN. *)
Definition pd_mean (s : list F) : F :=
  match dropna s with
  | [] => fnan
  | x :: rest => (np_sum (x :: rest) / of_Z (Z.of_nat (length (x :: rest))))%num
  end.

(** [s.max()]: NaNs are skipped, and the maximum of nothing is NaN. *)
Definition pd_max (s : list F) : F :=
  match dropna s with
  | [] => fnan
  | x :: rest => fold_left (fun m y => if (m <? y)%num then y else m) rest x
  end.

End NumberOps.

(** *** IEEE 754 binary64 *)

Module Binary64.

Open Scope float_scope.

(** Conversion of an integer of magnitude below [2^63]. *)
Definition float_of_Z (z : Z) : float :=
  match z with
  | Z0 => 0
  | Zpos _ => of_uint63 (Uint63.of_Z z)
  | Zneg p => - of_uint63 (Uint63.of_Z (Zpos p))
  end.

(** The elementary functions are those of the platform's C library. They
    are stood in for by truncated Taylor series, which agree with them to a
    relative error of about [1e-15] on the small arguments that occur
    here. *)
Fixpoint taylor (terms : nat) (k : float) (term acc x : float) : float :=
  match terms with
  | O => acc
  | S terms' => taylor terms' (k + 1) (term * x / k) (acc + term) x
  end.

Fixpoint square_times (n : nat) (x : float) : float :=
  match n with
  | O => x
  | S n' => square_times n' (x * x)
  end.

(** [exp x = (exp (x / 8))^8] *)
Definition float_exp (x : float) : float :=
  square_times 3 (taylor 30 1 1 0 (x / 8)).

(** [cos x = sum (-1)^k x^(2k) / (2k)!] and
    [sin x = sum (-1)^k x^(2k+1) / (2k+1)!] *)
Fixpoint alternating (terms : nat) (k : float) (term acc x2 : float) : float :=
  match terms with
  | O => acc
  | S terms' =>
      alternating terms' (k + 2) (- (term * x2 / (k * (k + 1)))) (acc + term) x2
  end.

Definition float_cos (x : float) : float := alternating 40 1 1 0 (x * x).
Definition float_sin (x : float) : float := alternating 40 2 x 0 (x * x).

Definition float_pi : float := 0x1.921fb54442d18p+1.

#[export] Instance binary64 : Number float := {|
  fnan := nan;
  of_Z := float_of_Z;
  fadd := PrimFloat.add;
  fsub := PrimFloat.sub;
  fmul := PrimFloat.mul;
  fdiv := PrimFloat.div;
  fopp := PrimFloat.opp;
  fabs := PrimFloat.abs;
  fsqrt := PrimFloat.sqrt;
  fltb := PrimFloat.ltb;
  fleb := PrimFloat.leb;
  fisnan := PrimFloat.is_nan;
  fexp := float_exp;
  fcos := float_cos;
  fsin := float_sin;
  fpi := float_pi
|}.

End Binary64.

(** ** Exact arithmetic

    The real numbers with the special values of IEEE 754: what the
    floating-point operations compute when nothing is rounded. A zero has
    no sign here and divides as [+0]. *)

Module ExactReal.

Import Reals Lra.

Open Scope R_scope.

Inductive xreal : Type :=
| XFin (r : R)
| XPInf
| XNInf
| XNaN.

Inductive sign : Type := Negative | Zero | Positive.

Definition Rsign (r : R) : sign :=
  if Rlt_dec r 0 then Negative else if Rlt_dec 0 r then Positive else Zero.

Definition signed_infinity (s t : sign) : xreal :=
  match s, t with
  | Zero, _ | _, Zero => XNaN
  | Positive, Positive | Negative, Negative => XPInf
  | _, _ => XNInf
  end.

Definition xsign (a : xreal) : sign :=
  match a with
  | XFin r => Rsign r
  | XPInf => Positive
  | XNInf => Negative
  | XNaN => Zero
  end.

Definition xadd (a b : xreal) : xreal :=
  match a, b with
  | XNaN, _ | _, XNaN => XNaN
  | XFin x, XFin y => XFin (x + y)
  | XPInf, XNInf | XNInf, XPInf => XNaN
  | XPInf, _ | _, XPInf => XPInf
  | XNInf, _ | _, XNInf => XNInf
  end.

Definition xopp (a : xreal) : xreal :=
  match a with
  | XFin x => XFin (- x)
  | XPInf => XNInf
  | XNInf => XPInf
  | XNaN => XNaN
  end.

Definition xsub (a b : xreal) : xreal :=
  match a, b with
  | XFin x, XFin y => XFin (x - y)
  | _, _ => xadd a (xopp b)
  end.

Definition xmul (a b : xreal) : xreal :=
  match a, b with
  | XNaN, _ | _, XNaN => XNaN
  | XFin x, XFin y => XFin (x * y)
  | _, _ => signed_infinity (xsign a) (xsign b)
  end.

Definition xdiv (a b : xreal) : xreal :=
  match a, b with
  | XNaN, _ | _, XNaN => XNaN
  | XFin x, XFin y =>
      if Req_dec_T y 0
      then match Rsign x with
           | Zero => XNaN
           | Positive => XPInf
           | Negative => XNInf
           end
      else XFin (x / y)
  | XFin _, _ => XFin 0
  | _, XFin y =>
      signed_infinity (xsign a)
        (match Rsign y with Negative => Negative | _ => Positive end)
  | _, _ => XNaN
  end.

Definition xabs (a : xreal) : xreal :=
  match a with
  | XFin x => XFin (Rabs x)
  | XPInf | XNInf => XPInf
  | XNaN => XNaN
  end.

Definition xsqrt (a : xreal) : xreal :=
  match a with
  | XFin x => if Rlt_dec x 0 then XNaN else XFin (sqrt x)
  | XPInf => XPInf
  | XNInf | XNaN => XNaN
  end.

Definition xltb (a b : xreal) : bool :=
  match a, b with
  | XNaN, _ | _, XNaN => false
  | XFin x, XFin y => if Rlt_dec x y then true else false
  | XNInf, (XFin _ | XPInf) => true
  | XFin _, XPInf => true
  | _, _ => false
  end.

Definition xleb (a b : xreal) : bool :=
  match a, b with
  | XNaN, _ | _, XNaN => false
  | XFin x, XFin y => if Rle_dec x y then true else false
  | XNInf, _ => true
  | _, XPInf => true
  | _, _ => false
  end.

Definition xisnan (a : xreal) : bool :=
  match a with XNaN => true | _ => false end.

Definition xexp (a : xreal) : xreal :=
  match a with
  | XFin x => XFin (exp x)
  | XPInf => XPInf
  | XNInf => XFin 0
  | XNaN => XNaN
  end.

Definition xcos (a : xreal) : xreal :=
  match a with XFin x => XFin (cos x) | _ => XNaN end.

Definition xsin (a : xreal) : xreal :=
  match a with XFin x => XFin (sin x) | _ => XNaN end.

#[export] Instance exact : Number xreal := {|
  fnan := XNaN;
  of_Z := fun z => XFin (IZR z);
  fadd := xadd;
  fsub := xsub;
  fmul := xmul;
  fdiv := xdiv;
  fopp := xopp;
  fabs := xabs;
  fsqrt := xsqrt;
  fltb := xltb;
  fleb := xleb;
  fisnan := xisnan;
  fexp := xexp;
  fcos := xcos;
  fsin := xsin;
  fpi := XFin PI
|}.

End ExactReal.

(** ** Heartbeat segmentation: [DataHandler.get_heartbeats] *)

Module Segmenter.

Open Scope string_scope.
Open Scope Z_scope.

(** [sub in s] on Python strings. *)
Fixpoint py_in (sub s : string) : bool :=
  String.prefix sub s
  || match s with
     | EmptyString => false
     | String _ rest => py_in sub rest
     end.

(** A cell of a label column: [None]/NaN or a number ([1] marks the row). *)
Inductive cell : Type :=
| CNone
| CNum (v : Z).

Definition cell_eq_1 (c : cell) : bool :=
  match c with
  | CNum v => v =? 1
  | CNone => false
  end.

(** The table read by [pd.read_csv]: a default [RangeIndex] [0 .. nrows-1]
    and named columns. Only the label columns matter here. *)
Record DataFrame : Type := {
  nrows : nat;
  columns : list (string * list cell)
}.

Record DataHandler : Type := {
  plot_data : option DataFrame;
  label_list : list string
}.

Definition get_column (df : DataFrame) (name : string) : option (list cell) :=
  match find (fun c => String.eqb (fst c) name) (columns df) with
  | Some c => Some (snd c)
  | None => None
  end.

Definition has_column (df : DataFrame) (name : string) : bool :=
  match get_column df name with Some _ => true | None => false end.

Definition cell_at (df : DataFrame) (name : string) (row : nat) : cell :=
  match get_column df name with
  | Some col => nth row col CNone
  | None => CNone
  end.

(** [get_label_data(label)] with [inverse=False]: the rows in which one of
    the label columns equals 1, as the list of their index labels (the
    ['Index'] column of the returned frame). *)
Definition normalise_label (l : string) : string :=
  if py_in "Label: " l then l else "Label: " ++ l.

Definition get_label_data (df : DataFrame) (label : list string)
  : result (list Z) :=
  let label' := map normalise_label label in
  match find (fun l => negb (has_column df l)) label' with
  | Some l => Err (ValueError ("Label " ++ l ++ " not found in DataHandler"))
  | None =>
      Ok (map Z.of_nat
            (filter (fun r => existsb (fun l => cell_eq_1 (cell_at df l r)) label')
                    (seq 0 (nrows df))))
  end.

(** [frame.loc[a:b]] and [frame.loc[a:]] on a sorted integer index: label
    slices, both ends included. *)
Definition loc_between (rows : list Z) (a b : Z) : list Z :=
  filter (fun i => (a <=? i) && (i <=? b)) rows.

Definition loc_from (rows : list Z) (a : Z) : list Z :=
  filter (fun i => a <=? i) rows.

(** The [while segmenting:] loop. [acc] is [heartbeat_segments]. *)
Fixpoint segment_loop (fuel : nat) (heartbeats breaks : list Z)
  (step : nat) (last_break : Z) (acc : list (list Z))
  : option (list (list Z)) :=
  match fuel with
  | O => None
  | S fuel' =>
      let segment :=
        if (length breaks <=? step)%nat
        then loc_from heartbeats last_break
        else loc_between heartbeats last_break (nth step breaks 0) in
      match segment with
      | [] => segment_loop fuel' heartbeats breaks (S step) last_break acc
      | _ :: _ =>
          let acc' := (acc ++ [segment])%list in
          let last_break' := last segment 0 + 1 in
          match filter (fun i => i >? last_break') heartbeats with
          | [] => Some acc'
          | r :: _ => segment_loop fuel' heartbeats breaks (S step) r acc'
          end
      end
  end.

Section Annotations.

(** The keys of the two dictionaries of [analysis/default_annotations.json],
    a data file that is loaded at import time. *)
Variable DEFAULT_HEARTBEAT_CLASSES : list string.
Variable SEGMENT_DENOMINATORS : list string.

Definition mem_str (s : string) (l : list string) : bool :=
  existsb (String.eqb s) l.

Definition present_labels (self : DataHandler) : list string :=
  filter (fun key => mem_str key (label_list self)) DEFAULT_HEARTBEAT_CLASSES.

Definition included_markers (self : DataHandler) : list string :=
  filter (fun marker => mem_str marker (label_list self)) SEGMENT_DENOMINATORS.

Definition get_heartbeats (fuel : nat) (self : DataHandler)
  : option (result (list (list Z))) :=
  match plot_data self, label_list self with
  | None, _ => Some (Ok [])
  | Some _, [] => Some (Ok [])
  | Some df, _ :: _ =>
      match get_label_data df (present_labels self) with
      | Err e => Some (Err e)
      | Ok heartbeats =>
          match included_markers self with
          | [] => Some (Ok [heartbeats])
          | _ :: _ =>
              match get_label_data df (included_markers self) with
              | Err e => Some (Err e)
              | Ok breaks =>
                  match segment_loop fuel heartbeats breaks 0 0 [] with
                  | Some segs => Some (Ok segs)
                  | None => None
                  end
              end
          end
      end
  end.

End Annotations.

(** A recording of 13 samples with beats ["N"] at rows 1,2,3,10,11,12 and a
    noise marker ["~"] at row 5. *)
Definition marks (rows : list nat) (n : nat) : list cell :=
  map (fun r => if existsb (Nat.eqb r) rows then CNum 1 else CNone) (seq 0 n).

Definition example_frame : DataFrame :=
  {| nrows := 13;
     columns := [("Label: N", marks [1; 2; 3; 10; 11; 12]%nat 13);
                 ("Label: ~", marks [5]%nat 13)] |}.

Definition example_handler : DataHandler :=
  {| plot_data := Some example_frame; label_list := ["N"; "~"] |}.

(** The same recording before any beat was marked: the beat label is
    declared but no row carries it, and there is no marker column. *)
Definition unmarked_handler : DataHandler :=
  {| plot_data := Some {| nrows := 13; columns := [("Label: N", marks [] 13)] |};
     label_list := ["N"] |}.

(** A noise marker at row 5 and no beat marked yet. *)
Definition marker_only_handler : DataHandler :=
  {| plot_data := Some {| nrows := 13; columns := [("Label: ~", marks [5]%nat 13)] |};
     label_list := ["~"] |}.

(** *** Properties of the segmentation *)

Lemma loc_from_nil (a : Z) : loc_from [] a = [].
Proof. reflexivity. Qed.

Lemma loc_between_nil (a b : Z) : loc_between [] a b = [].
Proof. reflexivity. Qed.

(** With no heartbeat row the loop never leaves its [continue] branch: every
    span is empty, also the last one, so no amount of fuel is enough. *)
Lemma segment_loop_no_heartbeats (fuel : nat) :
  forall breaks step last_break acc,
    segment_loop fuel [] breaks step last_break acc = None.
Proof.
  induction fuel as [|fuel IH]; intros breaks step last_break acc.
  - reflexivity.
  - cbn [segment_loop]. rewrite loc_from_nil, loc_between_nil.
    destruct (length breaks <=? step)%nat; apply IH.
Qed.

(** The loop is monotone in its fuel. *)
Lemma segment_loop_fuel_mono (fuel : nat) :
  forall heartbeats breaks step last_break acc segs,
    segment_loop fuel heartbeats breaks step last_break acc = Some segs ->
    segment_loop (S fuel) heartbeats breaks step last_break acc = Some segs.
Proof.
  induction fuel as [|fuel IH]; intros hb br step lb acc segs H.
  - discriminate H.
  - revert H. cbn [segment_loop].
    set (segment := if (length br <=? step)%nat then _ else _).
    destruct segment as [|s0 seg'].
    + intros H. apply IH in H. exact H.
    + destruct (filter _ hb) as [|r rest].
      * trivial.
      * intros H. apply IH in H. exact H.
Qed.

Lemma segment_loop_fuel_le (fuel fuel' : nat) heartbeats breaks step last_break acc segs :
  (fuel <= fuel')%nat ->
  segment_loop fuel heartbeats breaks step last_break acc = Some segs ->
  segment_loop fuel' heartbeats breaks step last_break acc = Some segs.
Proof.
  induction 1 as [|m Hle IH]; intros H.
  - exact H.
  - apply segment_loop_fuel_mono, IH, H.
Qed.

(** The rows that [get_label_data] returns are index labels in increasing
    order. *)
Lemma get_label_data_sorted (df : DataFrame) (label : list string) (rows : list Z) :
  get_label_data df label = Ok rows ->
  StronglySorted Z.lt rows /\ Forall (fun i => 0 <= i) rows.
Proof.
  unfold get_label_data. destruct (find _ _); [discriminate|].
  intros H. apply Ok_inj in H. subst rows. split.
  - apply StronglySorted_of_nat, StronglySorted_filter, seq_StronglySorted.
  - apply Forall_forall. intros i Hi. apply in_map_iff in Hi.
    destruct Hi as [r [<- _]]. lia.
Qed.

Lemma filter_all {A : Type} (f : A -> bool) (l : list A) :
  Forall (fun x => f x = true) l -> filter f l = l.
Proof.
  induction 1 as [|x l Hx _ IH]; simpl; [reflexivity|].
  rewrite Hx, IH. reflexivity.
Qed.

Lemma filter_none {A : Type} (f : A -> bool) (l : list A) :
  Forall (fun x => f x = false) l -> filter f l = [].
Proof.
  induction 1 as [|x l Hx _ IH]; simpl; [reflexivity|].
  rewrite Hx, IH. reflexivity.
Qed.

(** With no break row the loop emits all heartbeats as one segment and
    stops. *)
Lemma segment_loop_no_breaks (heartbeats : list Z) (fuel : nat) :
  heartbeats <> [] ->
  StronglySorted Z.lt heartbeats ->
  Forall (fun i => 0 <= i) heartbeats ->
  segment_loop (S fuel) heartbeats [] 0 0 [] = Some [heartbeats].
Proof.
  intros Hne Hs Hpos. cbn [segment_loop length Nat.leb].
  unfold loc_from. rewrite filter_all.
  2:{ eapply Forall_impl; [|exact Hpos]. intros i Hi. apply Z.leb_le, Hi. }
  destruct heartbeats as [|h hs]; [contradiction|].
  rewrite filter_none; [reflexivity|].
  eapply Forall_impl; [|exact (StronglySorted_le_last 0 Hs)].
  cbv beta. intros i Hi. rewrite Z.gtb_ltb. apply Z.ltb_ge. lia.
Qed.

Section AnnotationFacts.

Variable DEFAULT_HEARTBEAT_CLASSES : list string.
Variable SEGMENT_DENOMINATORS : list string.

Local Abbreviation get_heartbeats :=
  (get_heartbeats DEFAULT_HEARTBEAT_CLASSES SEGMENT_DENOMINATORS).
Local Abbreviation present_labels := (present_labels DEFAULT_HEARTBEAT_CLASSES).
Local Abbreviation included_markers := (included_markers SEGMENT_DENOMINATORS).

(** When a marker label is declared and no row is a heartbeat,
    [get_heartbeats] does not return. *)
Lemma get_heartbeats_diverges_without_beats (self : DataHandler)
  (df : DataFrame) (breaks : list Z) :
  plot_data self = Some df ->
  label_list self <> [] ->
  get_label_data df (present_labels self) = Ok [] ->
  included_markers self <> [] ->
  get_label_data df (included_markers self) = Ok breaks ->
  forall fuel, get_heartbeats fuel self = None.
Proof.
  intros Hdf Hl Hhb Hm Hbr fuel. unfold Segmenter.get_heartbeats.
  rewrite Hdf. destruct (label_list self) as [|l0 ls]; [contradiction|].
  rewrite Hhb.
  destruct (Segmenter.included_markers SEGMENT_DENOMINATORS self) as [|m0 ms] eqn:E;
    [contradiction|].
  rewrite Hbr, segment_loop_no_heartbeats. reflexivity.
Qed.

(** C1 (as amended). [get_heartbeats] returns [[]] when no table is loaded
    or no label is declared. Otherwise, when no segment-break label is
    declared it returns the whole heartbeat set as one segment (one empty
    segment when the set is empty); when such a label is declared but marks
    no row it returns a non-empty heartbeat set as one segment; and for the
    heartbeat rows [1,2,3,10,11,12] with the single break row [5] it
    returns exactly the segments [1,2,3] and [10,11,12]. *)
Theorem get_heartbeats_segments (self : DataHandler) :
  (plot_data self = None \/ label_list self = [] ->
   forall fuel, get_heartbeats fuel self = Some (Ok []))
  /\
  (forall df heartbeats,
      plot_data self = Some df ->
      label_list self <> [] ->
      get_label_data df (present_labels self) = Ok heartbeats ->
      (included_markers self = [] ->
       forall fuel, get_heartbeats fuel self = Some (Ok [heartbeats]))
      /\
      (included_markers self <> [] ->
       get_label_data df (included_markers self) = Ok [] ->
       heartbeats <> [] ->
       forall fuel, (1 <= fuel)%nat ->
         get_heartbeats fuel self = Some (Ok [heartbeats]))
      /\
      (included_markers self <> [] ->
       get_label_data df (included_markers self) = Ok [5] ->
       heartbeats = [1; 2; 3; 10; 11; 12] ->
       forall fuel, (2 <= fuel)%nat ->
         get_heartbeats fuel self = Some (Ok [[1; 2; 3]; [10; 11; 12]]))).
Proof.
  split.
  - intros [Hnone | Hnil] fuel; unfold Segmenter.get_heartbeats.
    + rewrite Hnone. reflexivity.
    + rewrite Hnil. destruct (plot_data self); reflexivity.
  - intros df hb Hdf Hl Hhb. split; [|split].
    + intros Hm fuel. unfold Segmenter.get_heartbeats.
      rewrite Hdf. destruct (label_list self) as [|l0 ls]; [contradiction|].
      rewrite Hhb, Hm. reflexivity.
    + intros Hm Hbr Hne fuel Hfuel. unfold Segmenter.get_heartbeats.
      rewrite Hdf. destruct (label_list self) as [|l0 ls]; [contradiction|].
      rewrite Hhb.
      destruct (Segmenter.included_markers SEGMENT_DENOMINATORS self) as [|m0 ms] eqn:E;
        [contradiction|].
      rewrite Hbr. destruct fuel as [|fuel]; [lia|].
      destruct (get_label_data_sorted _ _ Hhb) as [Hs Hpos].
      rewrite segment_loop_no_breaks by assumption. reflexivity.
    + intros Hm Hbr -> fuel Hfuel. unfold Segmenter.get_heartbeats.
      rewrite Hdf. destruct (label_list self) as [|l0 ls]; [contradiction|].
      rewrite Hhb.
      destruct (Segmenter.included_markers SEGMENT_DENOMINATORS self) as [|m0 ms] eqn:E;
        [contradiction|].
      rewrite Hbr.
      rewrite (@segment_loop_fuel_le 2 fuel _ _ _ _ _ [[1; 2; 3]; [10; 11; 12]] Hfuel);
        reflexivity.
Qed.

End AnnotationFacts.

(** The 13-sample example recording is segmented as the design document
    says: the theorem applied to a concrete table. *)
Lemma get_heartbeats_segments_example :
  get_heartbeats ["N"%string] ["~"%string] 2 example_handler
  = Some (Ok [[1; 2; 3]; [10; 11; 12]]).
Proof.
  destruct (get_heartbeats_segments ["N"%string] ["~"%string] example_handler)
    as [_ H].
  destruct (H example_frame [1; 2; 3; 10; 11; 12]) as [_ [_ H2]];
    [reflexivity | discriminate | reflexivity |].
  apply H2; [discriminate | reflexivity | reflexivity | lia].
Defined.

(** C1 as stated fails: a recording whose beat label is declared but not yet
    set on any row, with no marker label, has no heartbeat index, and the
    result is a list holding one empty segment, not the empty list. *)
Lemma get_heartbeats_no_beats_one_segment :
  get_label_data
    {| nrows := 13; columns := [("Label: N"%string, marks [] 13)] |}
    (present_labels ["N"%string] unmarked_handler) = Ok []
  /\ (forall fuel,
        get_heartbeats ["N"%string] ["~"%string] fuel unmarked_handler
        = Some (Ok [[]]))
  /\ (forall fuel,
        get_heartbeats ["N"%string] ["~"%string] fuel unmarked_handler
        <> Some (Ok [])).
Proof.
  split; [reflexivity|]. split; intros fuel.
  - reflexivity.
  - discriminate.
Qed.

(** With a marker row and no beat the call never returns. *)
Lemma get_heartbeats_marker_only_diverges :
  forall fuel,
    get_heartbeats ["N"%string] ["~"%string] fuel marker_only_handler = None.
Proof.
  apply (@get_heartbeats_diverges_without_beats ["N"%string] ["~"%string]
           marker_only_handler
           {| nrows := 13; columns := [("Label: ~"%string, marks [5]%nat 13)] |}
           [5]);
    try reflexivity; discriminate.
Qed.

End Segmenter.

(** ** Peak detection: [peak_correction] and [get_peaks] *)

Module Peaks.

Open Scope Z_scope.

(** A sample of a signal: a finite float, compared exactly as the rational
    it denotes, or NaN. Peak refinement only compares samples. *)
Inductive value : Type :=
| Val (v : Q)
| NaN.

(** A [pd.Series] with an integer index: index labels paired with samples.
    The labels are whatever the caller gave the series: they need not be
    positions, nor distinct, nor ordered. *)
Definition Series : Type := list (Z * value).

(** The [raw_signal] argument: a list or array, or a [pd.Series] with the
    index it comes with. *)
Inductive signal : Type :=
| Plain (values : list value)
| Labelled (series : Series).

(** [Series(raw_signal)] of a list or array: the default [RangeIndex]. *)
Definition make_series (values : list value) : Series :=
  combine (range (length values)) values.

(** [if type(raw_signal) is not Series: raw_signal = Series(raw_signal)] *)
Definition to_series (raw_signal : signal) : Series :=
  match raw_signal with
  | Plain values => make_series values
  | Labelled series => series
  end.

(** [s.idxmax()]: the label of the first occurrence of the largest sample,
    NaN samples skipped; NaN ([None]) when every sample is NaN, as pandas 1
    and 2 have it, and [ValueError] on an empty series. [best] is the
    largest sample met so far, with its label. *)
Fixpoint idxmax_from (best : option (Z * Q)) (s : Series) : option Z :=
  match s with
  | [] => option_map fst best
  | (_, NaN) :: rest => idxmax_from best rest
  | (label, Val v) :: rest =>
      match best with
      | Some (_, b) =>
          if Qle_bool v b then idxmax_from best rest
          else idxmax_from (Some (label, v)) rest
      | None => idxmax_from (Some (label, v)) rest
      end
  end.

Definition idxmax (s : Series) : result (option Z) :=
  match s with
  | [] => Err (ValueError "attempt to get argmax of an empty sequence")
  | _ :: _ => Ok (idxmax_from None s)
  end.

Definition empty {A : Type} (s : list A) : bool :=
  match s with [] => true | _ :: _ => false end.

(** The [for num, seed in enumerate(seeds)] loop of [peak_correction]. The
    seeds are integers here, so the [isinstance] test never raises. The
    slices [raw_signal[a:b]] of a series with an integer index are
    positional; what [idxmax] returns is a label. An entry of [new_peaks]
    is an index label, or NaN ([None]). *)
Fixpoint peak_correction_loop (seeds : list Z) (raw_signal : Series)
  (window : Z) (new_peaks : list (option Z)) : result (list (option Z)) :=
  match seeds with
  | [] => Ok new_peaks
  | seed :: rest =>
      if empty (py_slice raw_signal (seed - window) (seed + window))
      then peak_correction_loop rest raw_signal window new_peaks
      else if seed <? window - 1
      then p <- idxmax (py_slice raw_signal 0 (window - 1)) ;;
           peak_correction_loop rest raw_signal window (new_peaks ++ [p])
      else p <- idxmax (py_slice raw_signal (seed - window) (seed + window)) ;;
           peak_correction_loop rest raw_signal window (new_peaks ++ [p])
  end.

Definition peak_correction (seeds : list Z) (raw_signal : signal)
  (window : Z) : result (list (option Z)) :=
  peak_correction_loop seeds (to_series raw_signal) window [].

(** [len(raw_signal)] *)
Definition signal_length (raw_signal : signal) : nat :=
  match raw_signal with
  | Plain values => length values
  | Labelled series => length series
  end.

(** The sample at position [p] of a list or array. *)
Definition sample_at (values : list value) (p : Z) : value :=
  nth (Z.to_nat p) values NaN.

(** The index label and the sample at position [p] of a series. *)
Definition label_at (s : Series) (p : Z) : Z :=
  fst (nth (Z.to_nat p) s (0, NaN)).

Definition value_at (s : Series) (p : Z) : value :=
  snd (nth (Z.to_nat p) s (0, NaN)).

(** A list or array of finite samples. *)
Definition finite_signal (values : list Q) : signal := Plain (map Val values).

(** The default of the [window] argument. *)
Definition default_window : Z := 6.

(** *** [scipy.signal.find_peaks] with a [height] condition

    The peak search of the library: the local maxima of [x], a plateau
    counted once at its middle sample, and of those the ones that reach
    [height]. The first and the last sample are never maxima. *)

Definition sample (x : list Q) (i : nat) : Q := nth i x 0%Q.

(** [while i_ahead < i_max and x[i_ahead] == x[i]: i_ahead += 1] *)
Fixpoint plateau_end (fuel : nat) (x : list Q) (i_max : nat) (xi : Q)
  (i_ahead : nat) : option nat :=
  match fuel with
  | O => None
  | S fuel' =>
      if (i_ahead <? i_max)%nat && Qeq_bool (sample x i_ahead) xi
      then plateau_end fuel' x i_max xi (S i_ahead)
      else Some i_ahead
  end.

Definition Qlt_bool (a b : Q) : bool := negb (Qle_bool b a).

(** [while i < i_max: ...], collecting the plateau midpoints. *)
Fixpoint local_maxima_loop (fuel : nat) (x : list Q) (i_max : nat) (i : nat)
  (midpoints : list nat) : option (list nat) :=
  match fuel with
  | O => None
  | S fuel' =>
      if (i <? i_max)%nat then
        if Qlt_bool (sample x (i - 1)) (sample x i) then
          match plateau_end (S (length x)) x i_max (sample x i) (S i) with
          | None => None
          | Some i_ahead =>
              if Qlt_bool (sample x i_ahead) (sample x i)
              then local_maxima_loop fuel' x i_max (S i_ahead)
                     (midpoints ++ [(i + (i_ahead - 1)) / 2])%nat
              else local_maxima_loop fuel' x i_max (S i) midpoints
          end
        else local_maxima_loop fuel' x i_max (S i) midpoints
      else Some midpoints
  end.

(** [i_max = x.shape[0] - 1]; for an empty [x] it is [-1] and the loop body
    never runs, as with the truncated [0] here. *)
Definition local_maxima_1d (x : list Q) : option (list nat) :=
  local_maxima_loop (S (length x)) x (length x - 1) 1 [].

(** The result of [find_peaks]: the peak indices and the [peak_heights]
    property. *)
Definition find_peaks (x : list Q) (height : Q) : option (list nat * list Q) :=
  match local_maxima_1d x with
  | None => None
  | Some peaks =>
      let keep := filter (fun p => Qle_bool height (sample x p)) peaks in
      Some (keep, map (sample x) keep)
  end.

Inductive peaks_output : Type :=
| Locs (peaks : list nat)
| PeaksAndProperties (peaks : list nat) (peak_heights : list Q).

Definition peak_locations (o : peaks_output) : list nat :=
  match o with
  | Locs peaks => peaks
  | PeaksAndProperties peaks _ => peaks
  end.

Section GetPeaks.

(** [numpy.quantile(y, quant)]: the height threshold, or the exception that
    the library raises. Peak detection does not depend on how it is found. *)
Variable quantile : list Q -> Q -> result Q.

(** [get_peaks(y, quant, output)] with no further keyword argument; [None]
    when a loop runs out of fuel. *)
Definition get_peaks (y : list Q) (quant : Q) (output : string)
  : option (result peaks_output) :=
  match quantile y quant with
  | Err e => Some (Err e)
  | Ok height =>
      match find_peaks y height with
      | None => None
      | Some (peaks, heights) =>
          if String.eqb output "locs"
          then Some (Ok (Locs peaks))
          else Some (Ok (PeaksAndProperties peaks heights))
      end
  end.

End GetPeaks.

(** *** Facts about slices and series *)




Lemma py_slice_empty_range {A : Type} (s : list A) (a : Z) :
  py_slice s a a = [].
Proof.
  unfold py_slice. rewrite Z.sub_diag. reflexivity.
Qed.

Lemma firstn_2_skipn {A : Type} (d : A) (l : list A) :
  forall k, (k + 2 <= length l)%nat ->
    firstn 2 (skipn k l) = [nth k l d; nth (S k) l d].
Proof.
  induction l as [|x l IH]; intros k Hk; simpl in Hk.
  - lia.
  - destruct k as [|k].
    + destruct l as [|y l]; simpl in *; [lia | reflexivity].
    + simpl skipn. rewrite IH by lia. reflexivity.
Qed.

Lemma make_series_length (values : list value) :
  length (make_series values) = length values.
Proof.
  unfold make_series, range.
  rewrite length_combine, length_map, length_seq. apply Nat.min_id.
Qed.

Lemma make_series_nth (values : list value) (k : nat) :
  (k < length values)%nat ->
  nth k (make_series values) (0, NaN) = (Z.of_nat k, nth k values NaN).
Proof.
  intros Hk. unfold make_series, range.
  rewrite combine_nth by (rewrite length_map, length_seq; reflexivity).
  f_equal.
  change 0 with (Z.of_nat 0). rewrite map_nth, seq_nth by assumption.
  reflexivity.
Qed.


(** The default index labels every position by itself. *)
Lemma make_series_label_at (values : list value) (p : Z) :
  0 <= p < Z.of_nat (length values) ->
  label_at (make_series values) p = p.
Proof.
  intros Hp. unfold label_at. rewrite make_series_nth by lia.
  cbn [fst]. lia.
Qed.

Lemma make_series_value_at (values : list value) (p : Z) :
  0 <= p < Z.of_nat (length values) ->
  value_at (make_series values) p = sample_at values p.
Proof.
  intros Hp. unfold value_at, sample_at. rewrite make_series_nth by lia.
  reflexivity.
Qed.






(** With [window = 0] every seed is dropped. *)
Lemma peak_correction_loop_window_0 (raw_signal : Series) :
  forall seeds new_peaks,
    peak_correction_loop seeds raw_signal 0 new_peaks = Ok new_peaks.
Proof.
  induction seeds as [|seed rest IH]; intros acc; simpl.
  - reflexivity.
  - rewrite Z.sub_0_r, Z.add_0_r, py_slice_empty_range. simpl. apply IH.
Qed.

(** The slice that a seed [1 <= seed < N] sees with [window = 1]. *)
Lemma window_1_slice (s : Series) (seed : Z) :
  1 <= seed < Z.of_nat (length s) ->
  py_slice s (seed - 1) (seed + 1)
  = [(label_at s (seed - 1), value_at s (seed - 1));
     (label_at s seed, value_at s seed)].
Proof.
  intros Hs. unfold py_slice, clip_index, label_at, value_at.
  destruct (seed - 1 <? 0) eqn:E1; [apply Z.ltb_lt in E1; lia|].
  destruct (seed + 1 <? 0) eqn:E2; [apply Z.ltb_lt in E2; lia|].
  rewrite !Z.min_l by lia.
  replace (seed + 1 - (seed - 1)) with 2 by lia.
  change (Z.to_nat 2) with 2%nat.
  rewrite (firstn_2_skipn (0, NaN)) by lia.
  replace (S (Z.to_nat (seed - 1))) with (Z.to_nat seed) by lia.
  rewrite <- !surjective_pairing. reflexivity.
Qed.

(** The sample [here] is defined and larger than the sample [left] of it,
    or [left] is NaN. *)
Definition rises (left here : value) : bool :=
  match here with
  | NaN => false
  | Val v =>
      match left with
      | NaN => true
      | Val u => negb (Qle_bool v u)
      end
  end.

Lemma peak_correction_loop_window_1 (s : Series) :
  forall seeds new_peaks,
    (forall seed, In seed seeds ->
       1 <= seed < Z.of_nat (length s)
       /\ rises (value_at s (seed - 1)) (value_at s seed) = true) ->
    peak_correction_loop seeds s 1 new_peaks
    = Ok (new_peaks ++ map (fun seed => Some (label_at s seed)) seeds).
Proof.
  induction seeds as [|seed rest IH]; intros acc Hseeds;
    cbn [peak_correction_loop map].
  - rewrite app_nil_r. reflexivity.
  - destruct (Hseeds seed (or_introl eq_refl)) as [Hr Hgt].
    rewrite window_1_slice by exact Hr. cbn [empty].
    change (1 - 1) with 0.
    replace (seed <? 0) with false by (symmetry; apply Z.ltb_ge; lia).
    assert (Hmax : idxmax [(label_at s (seed - 1), value_at s (seed - 1));
                           (label_at s seed, value_at s seed)]
                   = Ok (Some (label_at s seed))).
    { unfold rises in Hgt. cbn [idxmax idxmax_from].
      destruct (value_at s seed) as [v|]; [|discriminate Hgt].
      destruct (value_at s (seed - 1)) as [u|]; cbn [idxmax_from option_map fst].
      - destruct (Qle_bool v u); [discriminate Hgt | reflexivity].
      - reflexivity. }
    rewrite Hmax. cbn [bind].
    rewrite IH by (intros x Hx; apply Hseeds; right; exact Hx).
    rewrite <- app_assoc. reflexivity.
Qed.

(** C9 (as amended). With [window = 0] the search range [[seed, seed)] of
    every seed is empty, so [peak_correction] drops every seed and returns
    the empty list, whatever the raw signal is. With [window = 1], when
    each seed is a position in [[1, N)] whose sample is defined and
    strictly greater than the sample on its left (or that one is NaN), the
    result is the list of the index labels at the seeds' positions: the
    seeds themselves when the raw signal is a list or array, the labels of
    its own index when it is a [pd.Series]. *)
Theorem peak_correction_small_windows (seeds : list Z) :
  (forall raw_signal, peak_correction seeds raw_signal 0 = Ok [])
  /\
  (forall values,
      (forall seed, In seed seeds ->
         1 <= seed < Z.of_nat (length values)
         /\ rises (sample_at values (seed - 1)) (sample_at values seed) = true) ->
      peak_correction seeds (Plain values) 1 = Ok (map Some seeds))
  /\
  (forall series,
      (forall seed, In seed seeds ->
         1 <= seed < Z.of_nat (length series)
         /\ rises (value_at series (seed - 1)) (value_at series seed) = true) ->
      peak_correction seeds (Labelled series) 1
      = Ok (map (fun seed => Some (label_at series seed)) seeds)).
Proof.
  split; [|split].
  - intros raw_signal. apply peak_correction_loop_window_0.
  - intros values H. unfold peak_correction. cbn [to_series].
    rewrite peak_correction_loop_window_1.
    + cbn [app]. f_equal. apply map_ext_in. intros seed Hseed. f_equal.
      apply make_series_label_at. destruct (H seed Hseed) as [Hr _]. lia.
    + intros seed Hseed. destruct (H seed Hseed) as [Hr Hgt].
      rewrite make_series_length, !make_series_value_at by lia.
      split; assumption.
  - intros series H. unfold peak_correction. cbn [to_series].
    rewrite peak_correction_loop_window_1 by exact H. reflexivity.
Qed.

Lemma peak_correction_small_windows_example :
  peak_correction [1; 2] (Plain [Val 0%Q; Val 1%Q; Val 2%Q]) 1
  = Ok [Some 1; Some 2]
  /\ peak_correction [1]
       (Labelled [(10, Val 0%Q); (11, Val 5%Q); (12, Val 0%Q)]) 1
     = Ok [Some 11].
Proof.
  split.
  - apply (proj1 (proj2 (peak_correction_small_windows [1; 2]))
             [Val 0%Q; Val 1%Q; Val 2%Q]).
    intros seed [<- | [<- | []]]; split; try reflexivity; simpl; lia.
  - apply (proj2 (proj2 (peak_correction_small_windows [1]))
             [(10, Val 0%Q); (11, Val 5%Q); (12, Val 0%Q)]).
    intros seed [<- | []]; split; try reflexivity; simpl; lia.
Defined.

(** C9 as stated fails: the seed 1 is the exact index of the maximum of
    [[0, 1, 0]], and with [window = 0] it is dropped. *)
Lemma peak_correction_window_0_drops_seed :
  peak_correction [1] (finite_signal [0; 1; 0]%Q) 0 = Ok []
  /\ peak_correction [1] (finite_signal [0; 1; 0]%Q) 0 <> Ok [Some 1].
Proof.
  split; [reflexivity | discriminate].
Qed.

(** *** Facts about the peak search *)

Lemma plateau_end_bounds (x : list Q) (i_max : nat) (xi : Q) (fuel : nat) :
  forall i_ahead,
    (i_max - i_ahead < fuel)%nat ->
    exists r, plateau_end fuel x i_max xi i_ahead = Some r
              /\ (i_ahead <= r)%nat
              /\ ((i_ahead <= i_max)%nat -> (r <= i_max)%nat).
Proof.
  induction fuel as [|fuel IH]; intros i_ahead Hfuel; [lia|].
  cbn [plateau_end].
  destruct (i_ahead <? i_max)%nat eqn:E; cbn [andb].
  - apply Nat.ltb_lt in E.
    destruct (Qeq_bool (sample x i_ahead) xi).
    + destruct (IH (S i_ahead)) as [r [Hr [Hlo Hhi]]]; [lia|].
      exists r. repeat split; [exact Hr | lia | intros _; apply Hhi; lia].
    + exists i_ahead. repeat split; lia.
  - exists i_ahead. repeat split; lia.
Qed.

Lemma StronglySorted_snoc (l : list nat) (m : nat) :
  StronglySorted lt l -> Forall (fun y => y < m)%nat l ->
  StronglySorted lt (l ++ [m]).
Proof.
  induction 1 as [|a l Hs IH Ha]; intros Hm; simpl.
  - constructor; constructor.
  - inversion Hm as [|? ? Ham Hlm]; subst. constructor.
    + apply IH, Hlm.
    + apply Forall_app. split; [exact Ha|]. constructor; [exact Ham | constructor].
Qed.

(** The scan returns, and its midpoints are strictly increasing indices
    below [i_max]. *)
Lemma local_maxima_loop_sorted (x : list Q) (i_max : nat) (fuel : nat) :
  (i_max <= length x)%nat ->
  forall i midpoints,
    (i_max - i < fuel)%nat ->
    StronglySorted lt midpoints ->
    Forall (fun m => m < i /\ m < i_max)%nat midpoints ->
    exists out, local_maxima_loop fuel x i_max i midpoints = Some out
                /\ StronglySorted lt out
                /\ Forall (fun m => m < i_max)%nat out.
Proof.
  intros Hmax. induction fuel as [|fuel IH]; intros i mids Hfuel Hs Hb; [lia|].
  cbn [local_maxima_loop].
  assert (Hweak : forall j, (i <= j)%nat ->
             Forall (fun m => m < j /\ m < i_max)%nat mids).
  { intros j Hj. eapply Forall_impl; [|exact Hb]. cbv beta. intros m [? ?]. lia. }
  destruct (i <? i_max)%nat eqn:E.
  - apply Nat.ltb_lt in E.
    destruct (Qlt_bool (sample x (i - 1)) (sample x i)).
    + destruct (@plateau_end_bounds x i_max (sample x i) (S (length x)) (S i))
        as [r [Hr [Hlo Hhi]]]; [lia|].
      rewrite Hr. specialize (Hhi E).
      destruct (Qlt_bool (sample x r) (sample x i)).
      * assert (Hmid : (i <= (i + (r - 1)) / 2 < r)%nat).
        { split.
          - apply Nat.div_le_lower_bound; lia.
          - apply Nat.Div0.div_lt_upper_bound; lia. }
        apply IH; [lia | |].
        -- apply StronglySorted_snoc; [exact Hs|].
           eapply Forall_impl; [|exact Hb]. cbv beta. intros m [? ?]. lia.
        -- apply Forall_app. split.
           ++ eapply Forall_impl; [|exact Hb]. cbv beta. intros m [? ?]. lia.
           ++ constructor; [lia | constructor].
      * apply IH; [lia | exact Hs | apply Hweak; lia].
    + apply IH; [lia | exact Hs | apply Hweak; lia].
  - exists mids. repeat split; [exact Hs|].
    eapply Forall_impl; [|exact Hb]. cbv beta. intros m [? ?]. lia.
Qed.

Lemma local_maxima_1d_sorted (x : list Q) :
  exists peaks, local_maxima_1d x = Some peaks
                /\ StronglySorted lt peaks
                /\ Forall (fun p => p < length x)%nat peaks.
Proof.
  destruct (@local_maxima_loop_sorted x (length x - 1) (S (length x))) with
    (i := 1%nat) (midpoints := @nil nat) as [out [Hout [Hs Hb]]];
    [lia | lia | constructor | constructor |].
  exists out. repeat split; [exact Hout | exact Hs |].
  eapply Forall_impl; [|exact Hb]. simpl. intros m ?. lia.
Qed.

Lemma find_peaks_sorted (x : list Q) (height : Q) :
  exists peaks heights,
    find_peaks x height = Some (peaks, heights)
    /\ StronglySorted lt peaks
    /\ Forall (fun p => p < length x)%nat peaks.
Proof.
  destruct (local_maxima_1d_sorted x) as [peaks [Hp [Hs Hb]]].
  unfold find_peaks. rewrite Hp. eexists; eexists. split; [reflexivity|].
  split.
  - apply StronglySorted_filter, Hs.
  - rewrite Forall_forall in *. intros p Hin. apply filter_In in Hin.
    apply Hb, Hin.
Qed.

(** A raw signal of 20 samples with one peak at index 7. *)
Definition single_peak_signal : list Q :=
  [0; 0; 0; 0; 0; 0; 0; 5; 0; 0; 0; 0; 0; 0; 0; 0; 0; 0; 0; 0]%Q.




(** Seeds near the start of a short record can also come back out of
    order. *)
Lemma peak_correction_out_of_order :
  peak_correction [5; 6] (finite_signal [0; 1; 2; 3; 4; 0; 0; 0]%Q)
    default_window
  = Ok [Some 7; Some 4].
Proof. reflexivity. Qed.

(** A series with the index [10, 11, 12] gives back a label outside
    [[0, 3)], and a range of NaN samples gives NaN. *)
Lemma peak_correction_label_outside_positions :
  peak_correction [1] (Labelled [(10, Val 0%Q); (11, Val 5%Q); (12, Val 0%Q)])
    default_window
  = Ok [Some 11]
  /\ peak_correction [1] (Plain [NaN; NaN; NaN]) 1 = Ok [None].
Proof. split; reflexivity. Qed.

End Peaks.

(** ** The ECG toolbox: [analysis/ecg_toolbox.py] *)

Module Toolbox.

Section Generic.

Context {F : Type} {num : Number F}.

Open Scope Z_scope.

(** *** Smoothing kernels *)

(** [_len_guards(M)] of [scipy.signal.windows]: a negative length raises,
    and a length of at most 1 gives a window of ones. *)
Definition len_guards (M : Z) : result bool :=
  if M <? 0
  then Err (ValueError "Window length M must be a non-negative integer")
  else Ok (M <=? 1).

(** [windows.gaussian(M, std, sym=True)] *)
Definition windows_gaussian (M : Z) (std : F) : result (list F) :=
  ones <- len_guards M ;;
  if (ones : bool) then Ok (repeat fone (Z.to_nat M))
  else
    let centre := (of_Z (M - 1) / of_Z 2)%num in
    let sig2 := (of_Z 2 * std * std)%num in
    Ok (map (fun k => let n := (of_Z k - centre)%num in
                      fexp (- (n * n) / sig2)%num)
            (range (Z.to_nat M))).

(** [windows.exponential(M, tau=tau, sym=True)] *)
Definition windows_exponential (M : Z) (tau : F) : result (list F) :=
  ones <- len_guards M ;;
  if (ones : bool) then Ok (repeat fone (Z.to_nat M))
  else
    let centre := (of_Z (M - 1) / of_Z 2)%num in
    Ok (map (fun k => fexp (- fabs (of_Z k - centre) / tau)%num)
            (range (Z.to_nat M))).

(** [if L % 2 == 0: L += 1] *)
Definition force_odd (L : Z) : Z := if L mod 2 =? 0 then L + 1 else L.

Definition normalise (window : list F) : list F :=
  let total := np_sum window in map (fun w => (w / total)%num) window.

Definition symmetric_gaussian_moving_average (y : list F) (L : Z) (std : F)
  : result (list F) :=
  window <- windows_gaussian (force_odd L) std ;;
  np_convolve_same y (normalise window).

Definition symmetric_exponential_moving_average (y : list F) (L : Z) (tau : F)
  : result (list F) :=
  window <- windows_exponential (force_odd L) tau ;;
  np_convolve_same y (normalise window).

(** *** Pulse metrics *)

(** An array-like argument: an [ndarray], or a [pd.Series] with its index
    labels. *)
Inductive arraylike : Type :=
| NdArray (values : list F)
| PdSeries (index : list Z) (values : list F).

(** [Series(values, index=indices)]: the index labels and the values. *)
Definition Series (values : list F) (indices : list Z)
  : result (list Z * list F) :=
  if (length values =? length indices)%nat
  then Ok (indices, values)
  else Err (ValueError "Length of values does not match length of index").

(** The test on the type of an array-like argument that opens
    [get_pulse_metrics] and [get_anomalies_from_rri]: an array needs
    [indices] and becomes a series, a series stays as it is. *)
Definition as_series (a : arraylike) (indices : option (list Z))
  (message : string) : result (list Z * list F) :=
  match a, indices with
  | NdArray _, None => Err (ValueError message)
  | NdArray values, Some indices => Series values indices
  | PdSeries index values, _ => Ok (index, values)
  end.

Record PulseMetricsTable : Type := {
  table_index : list Z;
  table_timestamps : list F;
  table_intervals : list F;
  table_variability : list F
}.

(** [series[label] = value]: every row that carries the label is set. *)
Definition set_by_label (index : list Z) (values : list F) (label : Z)
  (value : F) : list F :=
  map (fun lv => if fst lv =? label then value else snd lv)
      (combine index values).

(** The loop [for i in range(len(variability))] of [get_pulse_metrics],
    over the positions [is] that are left. *)
Fixpoint variability_loop (index : list Z) (diffs : list F) (N : Z)
  (positions : list Z) (variability : list F) : list F :=
  match positions with
  | [] => variability
  | i :: rest =>
      let X := map (fun d => (d * d)%num) (py_slice diffs (i - N) (i + 1)) in
      variability_loop index diffs N rest
        (set_by_label index variability (nth (Z.to_nat i) index 0)
           (fsqrt (pd_mean X)))
  end.

Definition get_pulse_metrics (timestamps : arraylike)
  (indices : option (list Z)) : result PulseMetricsTable :=
  series <- as_series timestamps indices
              "Indicate indices when passing timestamps as an ndarray." ;;
  let index := fst series in
  let timestamps := snd series in
  let intervals := pd_diff timestamps in
  let variability := pd_diff intervals in
  let diffs := map (fun v => (v * of_Z 1000)%num) variability in
  let N := 3 in
  let variability :=
    variability_loop index diffs N (range (length variability)) variability in
  Ok {| table_index := index;
        table_timestamps := timestamps;
        table_intervals := pd_bfill intervals;
        table_variability := pd_bfill variability |}.

(** *** Anomaly detection *)

(** [str(n)] of a length. *)
Definition str (n : nat) : string :=
  DecimalString.NilEmpty.string_of_uint (Nat.to_uint n).

(** [series - array]: numpy subtracts the values, stretching an array of
    one element over the series, and the result takes the index of the
    series. Values that cannot be broadcast make numpy raise; a series of
    one row stretched over a longer array no longer fits its index. *)
Definition series_sub (s a : list F) : result (list F) :=
  if (length s =? length a)%nat
  then Ok (map (fun p => (fst p - snd p)%num) (combine s a))
  else
    match a, s with
    | [y], _ => Ok (map (fun x => (x - y)%num) s)
    | _, [_] =>
        Err (ValueError ("Length of values (" ++ str (length a)
                         ++ ") does not match length of index (1)")%string)
    | _, _ =>
        Err (ValueError ("operands could not be broadcast together with shapes ("
                         ++ str (length s) ++ ",) (" ++ str (length a)
                         ++ ",) ")%string)
    end.

(** The loop [for i in range(len(rri_f_d_n) - 1)]. *)
Fixpoint pac_loop (rri_f_d_n : list F) (drop_threshold rise_threshold : F)
  (positions : list Z) (pac : list Z) : list Z :=
  match positions with
  | [] => pac
  | i :: rest =>
      pac_loop rri_f_d_n drop_threshold rise_threshold rest
        (if (nth (Z.to_nat i) rri_f_d_n fnan <=? drop_threshold)%num
            && fgeb (nth (Z.to_nat (i + 1)) rri_f_d_n fnan) rise_threshold
         then pac ++ [i] else pac)
  end.

(** [get_anomalies_from_rri(rri, indices, **kwargs)]; the keyword arguments
    that it reads are [rise_threshold] and [drop_threshold]. The result of
    [rri.fillna(0)] is not bound to a name, and [rri] stays as it was. *)
Definition get_anomalies_from_rri (rri : arraylike)
  (indices : option (list Z)) (kw_rise_threshold kw_drop_threshold : option F)
  : result (list Z) :=
  series <- as_series rri indices
              "Indicate indices when passing rri as an ndarray of list." ;;
  let index := fst series in
  let rri := snd series in
  let _ := pd_fillna fzero rri in
  baseline <- symmetric_exponential_moving_average rri 6 (of_Z 4) ;;
  rri_f <- series_sub rri baseline ;;
  let rri_f_d := pd_fillna fzero (pd_diff rri_f) in
  let rri_f_d_n := map (fun d => (d / pd_max (map fabs rri_f_d))%num) rri_f_d in
  let drop_threshold := of_ratio (-15) 100 in
  let rise_threshold := of_ratio 25 100 in
  let rise_threshold :=
    match kw_rise_threshold with Some v => v | None => rise_threshold end in
  let drop_threshold :=
    match kw_drop_threshold with Some v => v | None => drop_threshold end in
  let pac :=
    pac_loop rri_f_d_n drop_threshold rise_threshold
      (range (Z.to_nat (Z.of_nat (length rri_f_d_n) - 1))) [] in
  Ok (map (fun i => nth (Z.to_nat i) index 0) pac).

(** *** Transform-domain filter *)

(** Complex numbers as numpy has them: a real and an imaginary part. *)
Local Abbreviation complex := (F * F)%type.

Definition cadd (a b : complex) : complex :=
  (fst a + fst b, snd a + snd b)%num.

Definition cmul (a b : complex) : complex :=
  (fst a * fst b - snd a * snd b, fst a * snd b + snd a * fst b)%num.

Definition czero : complex := (fzero, fzero).

Definition csum (a : list complex) : complex := fold_left cadd a czero.

(** [exp(sign * 2 pi i j / n)], with [j] reduced modulo [n]. *)
Definition root_of_unity (sign : Z) (j n : nat) : complex :=
  let angle := (of_Z sign * (of_Z 2 * fpi * of_Z (Z.of_nat (j mod n)))
                / of_Z (Z.of_nat n))%num in
  (fcos angle, fsin angle).

(** The discrete Fourier transform of [numpy.fft]:
    [A[k] = sum_m a[m] exp(-2 pi i m k / n)]. *)
Definition dft (sign : Z) (a : list complex) : list complex :=
  let n := length a in
  map (fun k =>
         csum (map (fun m => cmul (nth m a czero) (root_of_unity sign (m * k) n))
                   (seq 0 n)))
      (seq 0 n).

(** [fft.fft(y, N)] with [N = len(y)] *)
Definition fft (y : list F) : result (list complex) :=
  match y with
  | [] => Err (ValueError "Invalid number of FFT data points (0) specified.")
  | _ :: _ => Ok (dft (-1) (map (fun v => (v, fzero)) y))
  end.

(** [fft.ifft(X)]: the inverse transform, scaled by [1/n]. *)
Definition ifft (X : list complex) : result (list complex) :=
  match X with
  | [] => Err (ValueError "Invalid number of FFT data points (0) specified.")
  | _ :: _ =>
      let fct := (fone / of_Z (Z.of_nat (length X)))%num in
      Ok (map (fun c => (fst c * fct, snd c * fct)%num) (dft 1 X))
  end.

(** [fft.fftfreq(n)] with the default spacing [d = 1.0] *)
Definition fftfreq (n : nat) : list F :=
  let n' := Z.of_nat n in
  let val := (fone / (of_Z n' * fone))%num in
  let N := (n' - 1) / 2 + 1 in
  let results :=
    (map (fun i => Z.of_nat i) (seq 0 (Z.to_nat N))
     ++ map (fun i => Z.of_nat i - n' / 2) (seq 0 (Z.to_nat (n' / 2))))%list in
  map (fun r => (of_Z r * val)%num) results.

Definition dquote : string := String (ascii_of_nat 34) EmptyString.

Definition dimension_mismatch (len_y len_t : nat) : exn :=
  ValueError ("Dimension mismatch, length of y (" ++ str len_y
              ++ ") must be equal to length of t (" ++ str len_t ++ ")")%string.

Definition bad_reconstruction_mode : exn :=
  ValueError ("reconstruction_mode must be either " ++ dquote ++ "positive"
              ++ dquote ++ " or " ++ dquote ++ "all" ++ dquote)%string.

Definition of_bool (b : bool) : complex :=
  ((if b then fone else fzero), fzero).

Definition frequency_filtering_fft (y : list F) (t : option (list F))
  (upper lower : option F) (reconstruction_mode : string)
  : result (list F) :=
  t <- match t with
       | None => Ok (np_arange (length y))
       | Some t =>
           if negb (length y =? length t)%nat
           then Err (dimension_mismatch (length y) (length t))
           else Ok t
       end ;;
  origin <- np_min t ;;
  let t_filtered := map (fun x => (x - origin)%num) t in
  let N := length y in
  X <- fft y ;;
  let freq :=
    map (fun f => (f * (fone / np_mean (np_diff t_filtered)))%num) (fftfreq N) in
  freq <- (if String.eqb reconstruction_mode "all" then Ok (map fabs freq)
           else if negb (String.eqb reconstruction_mode "positive")
           then Err bad_reconstruction_mode
           else Ok freq) ;;
  filter_mask <-
    match lower, upper with
    | None, None =>
        Err (TypeError "'<' not supported between instances of 'float' and 'NoneType'")
    | None, Some upper => Ok (map (fun f => (f <? upper)%num) freq)
    | Some lower, None => Ok (map (fun f => fgtb f lower) freq)
    | Some lower, Some upper =>
        Ok (map (fun f => (f <? upper)%num && fgtb f lower) freq)
    end ;;
  let X_filtered :=
    map (fun p => cmul (fst p) (of_bool (snd p))) (combine X filter_mask) in
  y_filtered <- ifft X_filtered ;;
  Ok (map fst y_filtered).

End Generic.

(** *** Facts about the smoothing kernels *)

Section GenericFacts.

Context {F : Type} {num : Number F}.

Local Abbreviation complex := (F * F)%type.

Open Scope Z_scope.

Lemma np_convolve_same_length (a v out : list F) :
  np_convolve_same a v = Ok out ->
  length out = Nat.max (length a) (length v).
Proof.
  unfold np_convolve_same.
  destruct (length a <? length v)%nat eqn:E.
  - apply Nat.ltb_lt in E.
    destruct (length v =? 0)%nat; [discriminate|].
    destruct (length a =? 0)%nat; [discriminate|].
    intros H. injection H as <-. rewrite length_map, length_seq. lia.
  - apply Nat.ltb_ge in E.
    destruct (length a =? 0)%nat; [discriminate|].
    destruct (length v =? 0)%nat; [discriminate|].
    intros H. injection H as <-. rewrite length_map, length_seq. lia.
Qed.


(** The signal is not shorter than the kernel: no swap, and sample [i] of
    the result is the sum of [y[j] * w[i + h - j]] over the samples [j] of
    [y] that the kernel covers, [h] being half the kernel length. Beyond the
    ends of [y] there is nothing to add: zero padding. *)
Lemma np_convolve_same_long (y w : list F) :
  w <> [] -> (length w <= length y)%nat ->
  np_convolve_same y w
  = Ok (map (fun i => conv_at y w (i + (length w - 1) / 2)) (seq 0 (length y))).
Proof.
  intros Hw Hle. unfold np_convolve_same.
  assert (length w <> 0)%nat by (destruct w; simpl; congruence).
  destruct (Nat.ltb_spec (length y) (length w)); [lia|].
  destruct (Nat.eqb_spec (length y) 0); [lia|].
  destruct (Nat.eqb_spec (length w) 0); [lia|].
  reflexivity.
Qed.


Lemma range_length (n : nat) : length (range n) = n.
Proof. unfold range. rewrite length_map, length_seq. reflexivity. Qed.


Lemma windows_exponential_length (M : Z) (tau : F) :
  0 <= M ->
  exists w, windows_exponential M tau = Ok w /\ length w = Z.to_nat M.
Proof.
  intros HM. unfold windows_exponential, len_guards.
  destruct (Z.ltb_spec M 0); [lia|]. cbn [bind].
  destruct (M <=? 1); eexists; (split; [reflexivity|]).
  - apply repeat_length.
  - rewrite length_map. apply range_length.
Qed.

Lemma normalise_length (w : list F) : length (normalise w) = length w.
Proof. unfold normalise. apply length_map. Qed.

Lemma nonempty_length {A : Type} (l : list A) : (1 <= length l)%nat -> l <> [].
Proof. destruct l; simpl; [lia | discriminate]. Qed.



(** *** Facts about the transform-domain filter *)

Lemma dft_length (sign : Z) (a : list complex) :
  length (dft sign a) = length a.
Proof. unfold dft. rewrite length_map, length_seq. reflexivity. Qed.

Lemma fft_length (y : list F) (X : list complex) :
  fft y = Ok X -> length X = length y.
Proof.
  destruct y as [|v y]; [discriminate|]. unfold fft. intros H.
  apply Ok_inj in H. subst X. rewrite dft_length. apply length_map.
Qed.

Lemma ifft_length (X out : list complex) :
  ifft X = Ok out -> length out = length X.
Proof.
  destruct X as [|c X]; [discriminate|]. unfold ifft. intros H.
  apply Ok_inj in H. subst out. rewrite length_map. apply dft_length.
Qed.

Lemma fftfreq_length (n : nat) : length (fftfreq n) = n.
Proof.
  unfold fftfreq. cbv zeta.
  rewrite length_map, length_app, !length_map, !length_seq.
  Z.div_mod_to_equations. lia.
Qed.

Lemma np_min_returns (t : list F) :
  t <> [] -> exists origin, np_min t = Ok origin.
Proof. destruct t; [contradiction|]. intros _. eexists. reflexivity. Qed.

Lemma fft_returns (y : list F) : y <> [] -> exists X, fft y = Ok X.
Proof. destruct y; [contradiction|]. intros _. eexists. reflexivity. Qed.

Tactic Notation "stage" hyp(H) "as" ident(x) ident(E) :=
  match type of H with
  | bind ?r _ = _ => destruct r as [x|] eqn:E; cbn [bind] in H; [|discriminate H]
  end.

(** C6. Whenever the transform-domain filter returns, its output is as long
    as the input signal. *)
Theorem frequency_filtering_fft_length (y : list F) (t : option (list F))
  (upper lower : option F) (reconstruction_mode : string) (out : list F) :
  frequency_filtering_fft y t upper lower reconstruction_mode = Ok out ->
  length out = length y.
Proof.
  unfold frequency_filtering_fft. intros H.
  stage H as t0 Et. stage H as origin Eo. stage H as X EX.
  stage H as freq Ef. stage H as filter_mask Em. stage H as y_filtered Ey.
  apply Ok_inj in H. subst out.
  apply ifft_length in Ey. apply fft_length in EX.
  rewrite length_map, Ey, length_map, length_combine, EX.
  assert (Hfreq : length freq = length y).
  { revert Ef. destruct (String.eqb reconstruction_mode "all").
    - intros E. apply Ok_inj in E. subst freq. rewrite !length_map. apply fftfreq_length.
    - destruct (negb (String.eqb reconstruction_mode "positive")); [discriminate|].
      intros E. apply Ok_inj in E. subst freq. rewrite length_map. apply fftfreq_length. }
  assert (Hmask : length filter_mask = length y).
  { revert Em. destruct lower, upper; try discriminate;
      intros E; apply Ok_inj in E; subst filter_mask; rewrite length_map; exact Hfreq. }
  rewrite Hmask. apply Nat.min_id.
Qed.

(** C7 (as amended). A time axis whose length differs from that of the
    signal always raises the dimension-mismatch error. An unknown
    reconstruction mode always raises, and no result is returned; it raises
    the reconstruction-mode error when the checks that run first pass: the
    signal is not empty and the time axis, if given, is as long as the
    signal. *)
Theorem frequency_filtering_fft_errors (y : list F) (t : option (list F))
  (upper lower : option F) (reconstruction_mode : string) :
  (forall t', t = Some t' -> length y <> length t' ->
     frequency_filtering_fft y t upper lower reconstruction_mode
     = Err (dimension_mismatch (length y) (length t')))
  /\
  (String.eqb reconstruction_mode "all" = false ->
   String.eqb reconstruction_mode "positive" = false ->
   (exists e, frequency_filtering_fft y t upper lower reconstruction_mode = Err e)
   /\ (y <> [] ->
       (forall t', t = Some t' -> length y = length t') ->
       frequency_filtering_fft y t upper lower reconstruction_mode
       = Err bad_reconstruction_mode)).
Proof.
  split.
  - intros t' -> Hlen. unfold frequency_filtering_fft.
    destruct (Nat.eqb_spec (length y) (length t')); [contradiction|].
    reflexivity.
  - intros Hall Hpos.
    assert (Hconfig : forall t0 : list F,
               length t0 = length y -> y <> [] ->
               (origin <- np_min t0 ;;
                X <- fft y ;;
                freq <- (if String.eqb reconstruction_mode "all"
                         then Ok (map fabs
                                (map (fun f => (f * (fone / np_mean (np_diff
                                   (map (fun x => (x - origin)%num) t0))))%num)
                                   (fftfreq (length y))))
                         else if negb (String.eqb reconstruction_mode "positive")
                         then Err bad_reconstruction_mode
                         else Ok (map (fun f => (f * (fone / np_mean (np_diff
                                   (map (fun x => (x - origin)%num) t0))))%num)
                                   (fftfreq (length y)))) ;;
                filter_mask <-
                  match lower, upper with
                  | None, None =>
                      Err (TypeError
                        "'<' not supported between instances of 'float' and 'NoneType'")
                  | None, Some upper => Ok (map (fun f => (f <? upper)%num) freq)
                  | Some lower, None => Ok (map (fun f => fgtb f lower) freq)
                  | Some lower, Some upper =>
                      Ok (map (fun f => (f <? upper)%num && fgtb f lower) freq)
                  end ;;
                y_filtered <- ifft
                  (map (fun p => cmul (fst p) (of_bool (snd p)))
                     (combine X filter_mask)) ;;
                Ok (map fst y_filtered))
               = Err bad_reconstruction_mode).
    { intros t0 Hlen Hy.
      destruct (@np_min_returns t0) as [origin ->].
      { intros ->. destruct y; [contradiction | discriminate]. }
      destruct (fft_returns Hy) as [X ->]. cbn [bind].
      rewrite Hall, Hpos. reflexivity. }
    split.
    + unfold frequency_filtering_fft. destruct t as [t'|].
      * destruct (Nat.eqb_spec (length y) (length t')) as [E|E]; cbn [negb bind].
        -- destruct y as [|v y].
           ++ destruct t'; [|discriminate]. eexists. reflexivity.
           ++ eexists. apply Hconfig; [symmetry; exact E | discriminate].
        -- eexists. reflexivity.
      * cbn [bind]. destruct y as [|v y].
        -- eexists. reflexivity.
        -- eexists. apply Hconfig; [|discriminate].
           unfold np_arange. rewrite length_map. apply range_length.
    + intros Hy Ht. unfold frequency_filtering_fft. destruct t as [t'|].
      * specialize (Ht t' eq_refl). rewrite Ht, Nat.eqb_refl. cbn [negb bind].
        rewrite <- Ht. apply Hconfig; [symmetry; exact Ht | exact Hy].
      * cbn [bind]. apply Hconfig; [|exact Hy].
        unfold np_arange. rewrite length_map. apply range_length.
Qed.

(** *** Facts about series *)

(** The first difference as the design document words it: undefined at
    position 0, [s[i] - s[i-1]] after it. *)
Definition first_difference (s : list F) (i : nat) : F :=
  match i with
  | O => fnan
  | S j => (nth (S j) s fnan - nth j s fnan)%num
  end.

Lemma diff_from_spec (a : list F) :
  forall prev,
    diff_from prev a
    = map (fun j => (nth j a fnan - nth j (prev :: a) fnan)%num)
          (seq 0 (length a)).
Proof.
  induction a as [|x a IH]; intros prev; [reflexivity|].
  cbn [diff_from length seq map nth]. f_equal.
  rewrite IH, <- seq_shift, map_map. reflexivity.
Qed.

Lemma pd_diff_spec (s : list F) :
  pd_diff s = map (first_difference s) (seq 0 (length s)).
Proof.
  destruct s as [|x s]; [reflexivity|].
  cbn [pd_diff np_diff length seq map first_difference]. f_equal.
  rewrite diff_from_spec, <- seq_shift, map_map. reflexivity.
Qed.

Lemma pd_diff_length (s : list F) : length (pd_diff s) = length s.
Proof. rewrite pd_diff_spec, length_map, length_seq. reflexivity. Qed.

Lemma pd_fillna_length (v : F) (s : list F) :
  length (pd_fillna v s) = length s.
Proof. apply length_map. Qed.

Lemma pd_bfill_length (s : list F) : length (pd_bfill s) = length s.
Proof.
  induction s as [|x s IH]; [reflexivity|]. cbn [pd_bfill length].
  rewrite IH. reflexivity.
Qed.

(** The first defined value at or after position [i]. *)
Definition next_valid (s : list F) (i : nat) : option F :=
  find (fun x => negb (fisnan x)) (skipn i s).

(** Back-filling puts at every position the first defined value at or
    after it, and NaN where none follows. *)
Lemma pd_bfill_spec (s : list F) :
  forall i, (i < length s)%nat ->
    nth i (pd_bfill s) fnan
    = match next_valid s i with Some v => v | None => fnan end.
Proof.
  unfold next_valid. induction s as [|x s IH]; intros i Hi; [simpl in Hi; lia|].
  destruct i as [|i].
  - cbn [pd_bfill nth skipn find].
    destruct (fisnan x); cbn [negb]; [|reflexivity].
    destruct s as [|y s]; [reflexivity|].
    specialize (IH 0%nat ltac:(simpl; lia)). cbn [skipn] in IH.
    rewrite <- IH. destruct (pd_bfill (y :: s)); reflexivity.
  - cbn [pd_bfill nth skipn]. apply IH. simpl in Hi. lia.
Qed.

Lemma skipn_cons_nth {A : Type} (d : A) (l : list A) :
  forall k, (k < length l)%nat -> skipn k l = nth k l d :: skipn (S k) l.
Proof.
  induction l as [|x l IH]; intros k Hk; [simpl in Hk; lia|].
  destruct k as [|k]; [reflexivity|].
  cbn [skipn nth]. rewrite (IH k) by (simpl in Hk; lia). reflexivity.
Qed.

Lemma firstn_skipn_nth {A : Type} (d : A) (l : list A) (m : nat) :
  forall k, (k + m <= length l)%nat ->
    firstn m (skipn k l) = map (fun j => nth (k + j) l d) (seq 0 m).
Proof.
  induction m as [|m IH]; intros k Hk; [reflexivity|].
  rewrite (skipn_cons_nth d) by lia.
  cbn [firstn seq map]. rewrite Nat.add_0_r. f_equal.
  rewrite IH by lia. rewrite <- seq_shift, map_map.
  apply map_ext. intros j. f_equal. lia.
Qed.

(** The window of the RMS: the current sample and the three before it. *)
Lemma window_slice (diffs : list F) (i : nat) :
  (3 <= i < length diffs)%nat ->
  py_slice diffs (Z.of_nat i - 3) (Z.of_nat i + 1)
  = [nth (i - 3) diffs fnan; nth (i - 2) diffs fnan;
     nth (i - 1) diffs fnan; nth i diffs fnan].
Proof.
  intros Hi. unfold py_slice, clip_index.
  destruct (Z.ltb_spec (Z.of_nat i - 3) 0); [lia|].
  destruct (Z.ltb_spec (Z.of_nat i + 1) 0); [lia|].
  rewrite !Z.min_l by lia.
  replace (Z.to_nat (Z.of_nat i + 1 - (Z.of_nat i - 3))) with 4%nat by lia.
  replace (Z.to_nat (Z.of_nat i - 3)) with (i - 3)%nat by lia.
  rewrite (firstn_skipn_nth fnan) by lia.
  cbn [seq map].
  replace (i - 3 + 0)%nat with (i - 3)%nat by lia.
  replace (i - 3 + 1)%nat with (i - 2)%nat by lia.
  replace (i - 3 + 2)%nat with (i - 1)%nat by lia.
  replace (i - 3 + 3)%nat with i by lia.
  reflexivity.
Qed.

(** In a series of at least four samples the window of the first three
    positions is empty: its start, counted from the end, is not before its
    stop. *)
Lemma window_slice_leading (diffs : list F) (i : nat) :
  (4 <= length diffs)%nat -> (i < 3)%nat ->
  py_slice diffs (Z.of_nat i - 3) (Z.of_nat i + 1) = [].
Proof.
  intros Hn Hi. unfold py_slice, clip_index.
  destruct (Z.ltb_spec (Z.of_nat i - 3) 0); [|lia].
  destruct (Z.ltb_spec (Z.of_nat i + 1) 0); [lia|].
  replace (Z.to_nat _) with 0%nat by lia. reflexivity.
Qed.

Lemma set_by_label_length (index : list Z) (values : list F) (label : Z) (v : F) :
  length index = length values ->
  length (set_by_label index values label v) = length values.
Proof.
  intros H. unfold set_by_label. rewrite length_map, length_combine. lia.
Qed.

Lemma set_by_label_nth (index : list Z) (values : list F) (label : Z) (v : F) :
  length index = length values ->
  forall j, (j < length values)%nat ->
    nth j (set_by_label index values label v) fnan
    = if nth j index 0 =? label then v else nth j values fnan.
Proof.
  intros Hlen j Hj. unfold set_by_label.
  rewrite (nth_map_lt _ _ (0, fnan)) by (rewrite length_combine; lia).
  rewrite combine_nth by exact Hlen. reflexivity.
Qed.

(** The value that the loop computes at position [p]. *)
Definition window_rms (diffs : list F) (N : Z) (p : nat) : F :=
  fsqrt (pd_mean (map (fun d => (d * d)%num)
                      (py_slice diffs (Z.of_nat p - N) (Z.of_nat p + 1)))).

(** With distinct index labels the loop sets position [p] and no other. *)
Lemma variability_loop_spec (index : list Z) (diffs : list F) (N : Z) :
  NoDup index ->
  forall positions variability,
    length index = length variability ->
    (forall p, In p positions -> (p < length index)%nat) ->
    let result :=
      variability_loop index diffs N (map Z.of_nat positions) variability in
    length result = length variability
    /\ forall j, (j < length variability)%nat ->
         nth j result fnan
         = if existsb (Nat.eqb j) positions then window_rms diffs N j
           else nth j variability fnan.
Proof.
  intros Hnodup. induction positions as [|p rest IH]; intros v Hlen Hpos; cbv zeta.
  - split; reflexivity.
  - cbn [map variability_loop]. rewrite Nat2Z.id.
    fold (window_rms diffs N p).
    set (v' := set_by_label index v (nth p index 0) (window_rms diffs N p)).
    assert (Hlen' : length v' = length v) by (apply set_by_label_length, Hlen).
    destruct (IH v') as [Hl Hn].
    { rewrite Hlen'. exact Hlen. }
    { intros q Hq. apply Hpos. right. exact Hq. }
    split; [rewrite Hl; exact Hlen'|].
    intros j Hj. rewrite Hn by (rewrite Hlen'; exact Hj).
    cbn [existsb]. unfold v'. rewrite set_by_label_nth by assumption.
    destruct (existsb (Nat.eqb j) rest); [rewrite orb_true_r; reflexivity|].
    rewrite orb_false_r.
    destruct (Nat.eqb_spec j p) as [->|Hne].
    + rewrite Z.eqb_refl. reflexivity.
    + destruct (Z.eqb_spec (nth j index 0) (nth p index 0)) as [E|E]; [|reflexivity].
      exfalso. apply Hne.
      apply (proj1 (NoDup_nth index 0) Hnodup); [lia | | exact E].
      apply Hpos. left. reflexivity.
Qed.

Lemma existsb_eqb_seq (j n : nat) :
  (j < n)%nat -> existsb (Nat.eqb j) (seq 0 n) = true.
Proof.
  intros Hj. apply existsb_exists. exists j. split.
  - apply in_seq. lia.
  - apply Nat.eqb_refl.
Qed.

(** The interval and variability series before back-filling, as the design
    document words them. *)
Definition spec_intervals (timestamps : list F) : list F :=
  map (first_difference timestamps) (seq 0 (length timestamps)).

Definition spec_difference_ms (timestamps : list F) (i : nat) : F :=
  (first_difference (spec_intervals timestamps) i * of_Z 1000)%num.

(** The RMS at position [i] as the design document words it: the root of
    the mean of the squares of the differences, in milliseconds, at [i] and
    the three positions before it. A square that is undefined is left out
    of the sum and of the count, and the RMS of nothing is the root of an
    undefined value. *)
Definition spec_rms (timestamps : list F) (i : nat) : F :=
  let squares :=
    filter (fun square => negb (fisnan square))
      (map (fun d => (d * d)%num)
         [spec_difference_ms timestamps (i - 3);
          spec_difference_ms timestamps (i - 2);
          spec_difference_ms timestamps (i - 1);
          spec_difference_ms timestamps i]) in
  match squares with
  | [] => fsqrt fnan
  | _ :: _ =>
      fsqrt (fold_left fadd squares fzero / of_Z (Z.of_nat (length squares)))%num
  end.

(** Where the four squares are defined, the RMS is the root of a quarter of
    their sum. *)
Lemma spec_rms_all_defined (timestamps : list F) (i : nat) :
  let a := spec_difference_ms timestamps (i - 3) in
  let b := spec_difference_ms timestamps (i - 2) in
  let c := spec_difference_ms timestamps (i - 1) in
  let d := spec_difference_ms timestamps i in
  fisnan (a * a)%num = false -> fisnan (b * b)%num = false ->
  fisnan (c * c)%num = false -> fisnan (d * d)%num = false ->
  spec_rms timestamps i
  = fsqrt ((fzero + a * a + b * b + c * c + d * d) / of_Z 4)%num.
Proof.
  intros a b c d Ha Hb Hc Hd. unfold spec_rms. cbn [map filter].
  fold a b c d. rewrite Ha, Hb, Hc, Hd. reflexivity.
Qed.

Lemma spec_intervals_length (timestamps : list F) :
  length (spec_intervals timestamps) = length timestamps.
Proof. unfold spec_intervals. rewrite length_map, length_seq. reflexivity. Qed.

Lemma diffs_nth (timestamps : list F) (i : nat) :
  (i < length timestamps)%nat ->
  nth i (map (fun v => (v * of_Z 1000)%num)
             (pd_diff (spec_intervals timestamps))) fnan
  = spec_difference_ms timestamps i.
Proof.
  intros Hi. rewrite pd_diff_spec, map_map, spec_intervals_length.
  rewrite (nth_map_lt _ _ 0%nat) by (rewrite length_seq; exact Hi).
  rewrite seq_nth by exact Hi. reflexivity.
Qed.

(** The general part of C2. *)
Lemma get_pulse_metrics_series (index : list Z) (timestamps : list F)
  (indices : option (list Z)) :
  NoDup index ->
  length index = length timestamps ->
  exists variability,
    get_pulse_metrics (PdSeries index timestamps) indices
    = Ok {| table_index := index;
            table_timestamps := timestamps;
            table_intervals := pd_bfill (spec_intervals timestamps);
            table_variability := pd_bfill variability |}
    /\ length variability = length timestamps
    /\ (forall i, (3 <= i < length timestamps)%nat ->
          nth i variability fnan = spec_rms timestamps i)
    /\ ((4 <= length timestamps)%nat ->
        forall i, (i < 3)%nat -> nth i variability fnan = fsqrt fnan).
Proof.
  intros Hnodup Hlen. unfold get_pulse_metrics. cbn [as_series bind fst snd].
  rewrite (pd_diff_spec timestamps). fold (spec_intervals timestamps).
  set (raw := pd_diff (spec_intervals timestamps)).
  set (diffs := map (fun v => (v * of_Z 1000)%num) raw).
  assert (Hraw : length raw = length timestamps)
    by (unfold raw; rewrite pd_diff_length; apply spec_intervals_length).
  assert (Hdiffs : length diffs = length timestamps)
    by (unfold diffs; rewrite length_map; exact Hraw).
  destruct (@variability_loop_spec index diffs 3 Hnodup (seq 0 (length raw)) raw)
    as [Hl Hn].
  { rewrite Hraw. exact Hlen. }
  { intros p Hp. apply in_seq in Hp. lia. }
  unfold range.
  eexists. split; [reflexivity|]. split; [rewrite Hl; exact Hraw|]. split.
  - intros i Hi. rewrite Hn by lia.
    rewrite existsb_eqb_seq by lia.
    unfold window_rms, spec_rms. rewrite window_slice by lia.
    unfold diffs, raw. rewrite !diffs_nth by lia.
    unfold pd_mean, dropna, np_sum. cbv zeta.
    destruct (filter _ _); reflexivity.
  - intros Hfour i Hi. rewrite Hn by lia.
    rewrite existsb_eqb_seq by lia.
    unfold window_rms. rewrite window_slice_leading by lia. reflexivity.
Qed.

(** *** Facts about the anomaly detector *)

(** The rows [a .. b-1] of [range(n)]. *)
Lemma filter_seq_range (a : nat) :
  forall n b, (b <= n)%nat ->
    filter (fun j => (a <=? j)%nat && (j <? b)%nat) (seq 0 n) = seq a (b - a).
Proof.
  induction n as [|n IH]; intros b Hb.
  - replace (b - a)%nat with 0%nat by lia. reflexivity.
  - rewrite seq_S, filter_app. cbn [plus filter].
    destruct (Nat.eq_dec b (S n)) as [->|Hne].
    + rewrite (filter_ext_in _ (fun j => (a <=? j)%nat && (j <? n)%nat)).
      2:{ intros j Hj. apply in_seq in Hj.
          destruct (Nat.ltb_spec j (S n)); destruct (Nat.ltb_spec j n);
            try lia; reflexivity. }
      rewrite (IH n (le_n n)).
      destruct (Nat.ltb_spec n (S n)); [|lia]. rewrite andb_true_r.
      destruct (Nat.leb_spec a n) as [Ha|Ha].
      * replace (S n - a)%nat with (S (n - a)) by lia. rewrite seq_S.
        replace (a + (n - a))%nat with n by lia. reflexivity.
      * replace (n - a)%nat with 0%nat by lia.
        replace (S n - a)%nat with 0%nat by lia. reflexivity.
    + rewrite (IH b) by lia.
      destruct (Nat.ltb_spec n b); [lia|]. rewrite andb_false_r.
      apply app_nil_r.
Qed.

(** The smoothing window of the detector as the design document words it:
    seven weights ([L = 6], forced odd) that decay with constant 4 on both
    sides of the centre [(7 - 1) / 2], normalised to unit sum. *)
Definition spec_decay (k : nat) : F :=
  fexp (- fabs (of_Z (Z.of_nat k) - of_Z 6 / of_Z 2) / of_Z 4)%num.

Definition spec_weight (k : nat) : F :=
  (spec_decay k
   / (fzero + spec_decay 0 + spec_decay 1 + spec_decay 2 + spec_decay 3
      + spec_decay 4 + spec_decay 5 + spec_decay 6))%num.

(** The baseline at position [i]: the weighted sum of the intervals at the
    positions [i - 3 .. i + 3] that exist, in this order; beyond the ends
    of the series there is nothing to add. The interval at [j] meets the
    weight [i + 3 - j]. *)
Definition spec_baseline (rri : list F) (i : nat) : F :=
  fold_left fadd
    (map (fun j => (nth j rri fzero * spec_weight (i + 3 - j))%num)
         (seq (i - 3) (Nat.min (length rri) (i + 4) - (i - 3))))
    fzero.

(** The intervals less their baseline. *)
Definition spec_detrended (rri : list F) : list F :=
  map (fun i => (nth i rri fnan - spec_baseline rri i)%num)
      (seq 0 (length rri)).

(** The first difference of the detrended series, an undefined difference
    counting as zero. *)
Definition spec_steps (rri : list F) : list F :=
  map (fun i => let d := first_difference (spec_detrended rri) i in
                if fisnan d then fzero else d)
      (seq 0 (length rri)).

(** The largest of the defined values of a list, the first of them in case
    of a tie; undefined when the list has none. *)
Fixpoint largest_after (m : F) (l : list F) : F :=
  match l with
  | [] => m
  | y :: rest =>
      largest_after (if fisnan y then m else if (m <? y)%num then y else m) rest
  end.

Fixpoint spec_largest (l : list F) : F :=
  match l with
  | [] => fnan
  | x :: rest => if fisnan x then spec_largest rest else largest_after x rest
  end.

(** The detrended, differenced and normalised interval series, as the
    design document words it: every difference over the largest absolute
    difference. *)
Definition spec_normalised_differences (rri : list F) : list F :=
  map (fun d => (d / spec_largest (map fabs (spec_steps rri)))%num)
      (spec_steps rri).

(** Position [i] is flagged: a drop at [i] and a rise at [i + 1]. *)
Definition spec_flagged (normalised : list F) (drop_threshold rise_threshold : F)
  (i : nat) : bool :=
  (nth i normalised fnan <=? drop_threshold)%num
  && fgeb (nth (S i) normalised fnan) rise_threshold.

Definition threshold (keyword : option F) (default : F) : F :=
  match keyword with Some v => v | None => default end.

Lemma pac_loop_filter (normalised : list F) (drop rise : F) :
  forall positions pac,
    pac_loop normalised drop rise (map Z.of_nat positions) pac
    = (pac ++ map Z.of_nat (filter (spec_flagged normalised drop rise) positions))%list.
Proof.
  induction positions as [|i rest IH]; intros pac.
  - cbn. rewrite app_nil_r. reflexivity.
  - cbn [map pac_loop filter]. rewrite IH. unfold spec_flagged at 2.
    rewrite Nat2Z.id. replace (Z.to_nat (Z.of_nat i + 1)) with (S i) by lia.
    destruct (_ && _); [|reflexivity].
    cbn [map]. rewrite <- app_assoc. reflexivity.
Qed.

Lemma spec_steps_length (rri : list F) :
  length (spec_steps rri) = length rri.
Proof. unfold spec_steps. rewrite length_map, length_seq. reflexivity. Qed.

Lemma spec_normalised_differences_length (rri : list F) :
  length (spec_normalised_differences rri) = length rri.
Proof.
  unfold spec_normalised_differences. rewrite length_map.
  apply spec_steps_length.
Qed.

(** The window that [windows.exponential(7, tau=4)] returns. *)
Lemma detector_decays :
  windows_exponential (force_odd 6) (of_Z 4) = Ok (map spec_decay (seq 0 7)).
Proof. reflexivity. Qed.

Lemma detector_weights (d : nat) :
  (d < 7)%nat ->
  nth d (normalise (map spec_decay (seq 0 7))) fzero = spec_weight d.
Proof.
  intros Hd. do 7 (destruct d as [|d]; [reflexivity|]). lia.
Qed.

(** The samples that the window centred at [i] covers. *)
Lemma detector_cover (n i : nat) :
  (i < n)%nat ->
  filter (fun j => (j <=? i + 3)%nat && (i + 3 - j <? 7)%nat) (seq 0 n)
  = seq (i - 3) (Nat.min n (i + 4) - (i - 3)).
Proof.
  intros Hi.
  rewrite (filter_ext_in _
             (fun j => (i - 3 <=? j)%nat && (j <? Nat.min n (i + 4))%nat)).
  - apply filter_seq_range. lia.
  - intros j Hj. apply in_seq in Hj.
    destruct (Nat.leb_spec j (i + 3)); destruct (Nat.ltb_spec (i + 3 - j) 7);
      destruct (Nat.leb_spec (i - 3) j);
      destruct (Nat.ltb_spec j (Nat.min n (i + 4)));
      try reflexivity; lia.
Qed.

(** On a series of at least seven intervals the moving average is the
    baseline of the design document. *)
Lemma exponential_baseline (rri : list F) :
  (7 <= length rri)%nat ->
  symmetric_exponential_moving_average rri 6 (of_Z 4)
  = Ok (map (spec_baseline rri) (seq 0 (length rri))).
Proof.
  intros Hn. unfold symmetric_exponential_moving_average.
  rewrite detector_decays. cbn [bind].
  rewrite np_convolve_same_long;
    [| discriminate | rewrite normalise_length; exact Hn].
  rewrite normalise_length.
  change (length (map spec_decay (seq 0 7))) with 7%nat.
  change ((7 - 1) / 2)%nat with 3%nat.
  f_equal. apply map_ext_in. intros i Hi. apply in_seq in Hi.
  unfold conv_at, spec_baseline, np_sum. rewrite normalise_length.
  change (length (map spec_decay (seq 0 7))) with 7%nat.
  rewrite detector_cover by lia.
  f_equal. apply map_ext_in. intros j Hj. apply in_seq in Hj.
  f_equal. apply detector_weights. lia.
Qed.

Lemma combine_map_seq {A B C : Type} (g : A -> B -> C) (d : A) (l : list A) :
  forall f : nat -> B,
    map (fun p => g (fst p) (snd p)) (combine l (map f (seq 0 (length l))))
    = map (fun i => g (nth i l d) (f i)) (seq 0 (length l)).
Proof.
  induction l as [|x l IH]; intros f; [reflexivity|].
  cbn [length seq map combine fst snd nth]. f_equal.
  rewrite <- seq_shift, !map_map. exact (IH (fun i => f (S i))).
Qed.

Lemma series_sub_baseline (rri : list F) :
  series_sub rri (map (spec_baseline rri) (seq 0 (length rri)))
  = Ok (spec_detrended rri).
Proof.
  unfold series_sub. rewrite length_map, length_seq, Nat.eqb_refl. f_equal.
  apply (combine_map_seq (fun a b => (a - b)%num) fnan).
Qed.

Lemma fillna_diff_steps (rri : list F) :
  pd_fillna fzero (pd_diff (spec_detrended rri)) = spec_steps rri.
Proof.
  rewrite pd_diff_spec. unfold pd_fillna, spec_steps. rewrite map_map.
  replace (length (spec_detrended rri)) with (length rri)
    by (unfold spec_detrended; rewrite length_map, length_seq; reflexivity).
  reflexivity.
Qed.

Lemma largest_after_fold (l : list F) :
  forall m,
    fold_left (fun m y => if (m <? y)%num then y else m) (dropna l) m
    = largest_after m l.
Proof.
  unfold dropna.
  induction l as [|y l IH]; intros m; [reflexivity|].
  cbn [filter largest_after]. destruct (fisnan y); cbn [negb fold_left]; apply IH.
Qed.

(** [s.max()] is the largest of the defined values. *)
Lemma pd_max_largest (l : list F) : pd_max l = spec_largest l.
Proof.
  induction l as [|x l IH]; [reflexivity|].
  cbn [spec_largest]. rewrite <- IH, <- largest_after_fold.
  unfold pd_max, dropna. cbn [filter].
  destruct (fisnan x); reflexivity.
Qed.

(** C3 (as amended). On a series of at least seven intervals the detector
    returns. It detrends by the exponential baseline ([L = 6], forced odd,
    [tau = 4]: at every position the weighted sum of the intervals at most
    three positions away), takes the first difference, an undefined one
    counting as zero, normalises by the largest absolute difference, and
    returns the index labels of exactly the positions [i], [0 <= i < n - 1],
    whose normalised difference is at most the drop threshold (default
    -0.15) while the next one is at least the rise threshold (default
    0.25). *)
Theorem get_anomalies_flags (index : list Z) (rri : list F)
  (indices : option (list Z)) (kw_rise_threshold kw_drop_threshold : option F) :
  (7 <= length rri)%nat ->
  symmetric_exponential_moving_average rri 6 (of_Z 4)
  = Ok (map (spec_baseline rri) (seq 0 (length rri)))
  /\ get_anomalies_from_rri (PdSeries index rri) indices
       kw_rise_threshold kw_drop_threshold
     = Ok (map (fun i => nth i index 0)
             (filter (spec_flagged (spec_normalised_differences rri)
                        (threshold kw_drop_threshold (of_ratio (-15) 100))
                        (threshold kw_rise_threshold (of_ratio 25 100)))
                     (seq 0 (length rri - 1)))).
Proof.
  intros Hn. pose proof (@exponential_baseline rri Hn) as Hb.
  split; [exact Hb|].
  unfold get_anomalies_from_rri. cbn [as_series bind fst snd]. rewrite Hb.
  cbn [bind]. rewrite series_sub_baseline. cbn [bind].
  rewrite fillna_diff_steps, pd_max_largest.
  fold (spec_normalised_differences rri).
  rewrite spec_normalised_differences_length.
  unfold range.
  replace (Z.to_nat (Z.of_nat (length rri) - 1)) with (length rri - 1)%nat by lia.
  rewrite pac_loop_filter. cbn [app]. rewrite map_map.
  unfold threshold. f_equal. apply map_ext. intros i. rewrite Nat2Z.id.
  reflexivity.
Qed.

(** An array with index labels of the same length is treated as the series
    that it is turned into. *)
Lemma get_pulse_metrics_ndarray (values : list F) (indices : list Z) :
  length values = length indices ->
  get_pulse_metrics (NdArray values) (Some indices)
  = get_pulse_metrics (PdSeries indices values) None.
Proof.
  intros H. unfold get_pulse_metrics, as_series, Series.
  rewrite H, Nat.eqb_refl. reflexivity.
Qed.

Lemma get_anomalies_from_rri_ndarray (values : list F) (indices : list Z)
  (kw_rise_threshold kw_drop_threshold : option F) :
  length values = length indices ->
  get_anomalies_from_rri (NdArray values) (Some indices)
    kw_rise_threshold kw_drop_threshold
  = get_anomalies_from_rri (PdSeries indices values) None
      kw_rise_threshold kw_drop_threshold.
Proof.
  intros H. unfold get_anomalies_from_rri, as_series, Series.
  rewrite H, Nat.eqb_refl. reflexivity.
Qed.

End GenericFacts.

(** *** The toolbox on binary64 *)

Import Binary64.

#[local] Set Warnings "-inexact-float".

Open Scope float_scope.

(** C2 (as amended). For a series of timestamps with distinct index labels,
    [get_pulse_metrics] returns the timestamps, the back-filled intervals
    [timestamps[i] - timestamps[i-1]] (undefined at 0), and the back-filled
    variability, which at every position [i >= 3] is the root of the mean
    of the squares of the interval differences, in milliseconds, at [i] and
    the three positions before it (undefined ones skipped) and is undefined
    at the first three positions of a series of four or more. Back-filling
    gives every position the first defined value at or after it. On the
    timestamps [0, 1, 2, 3] the intervals are all 1 and no entry of the
    table is undefined. *)
Theorem get_pulse_metrics_spec :
  (forall (F : Type) (num : Number F) (index : list Z) (timestamps : list F)
          (indices : option (list Z)),
      NoDup index ->
      length index = length timestamps ->
      exists variability,
        get_pulse_metrics (PdSeries index timestamps) indices
        = Ok {| table_index := index;
                table_timestamps := timestamps;
                table_intervals := pd_bfill (spec_intervals timestamps);
                table_variability := pd_bfill variability |}
        /\ length variability = length timestamps
        /\ (forall i, (3 <= i < length timestamps)%nat ->
              nth i variability fnan = spec_rms timestamps i)
        /\ ((4 <= length timestamps)%nat ->
            forall i, (i < 3)%nat -> nth i variability fnan = fsqrt fnan))
  /\
  (forall (F : Type) (num : Number F) (s : list F) (i : nat),
      (i < length s)%nat ->
      nth i (pd_bfill s) fnan
      = match next_valid s i with Some v => v | None => fnan end)
  /\
  (exists table,
      get_pulse_metrics (PdSeries [0; 1; 2; 3]%Z [0; 1; 2; 3]) None = Ok table
      /\ table_intervals table = [1; 1; 1; 1]
      /\ table_variability table = [0; 0; 0; 0]
      /\ forallb (fun x => negb (fisnan x))
           (table_timestamps table ++ table_intervals table
            ++ table_variability table) = true).
Proof.
  split; [|split].
  - intros F num. apply get_pulse_metrics_series.
  - intros F num. apply pd_bfill_spec.
  - eexists. split; [vm_compute; reflexivity|]. repeat split.
Qed.

Lemma get_pulse_metrics_spec_example :
  exists variability,
    get_pulse_metrics (PdSeries [3; 5; 7; 9; 11]%Z [0; 1; 2.5; 3; 5]) None
    = Ok {| table_index := [3; 5; 7; 9; 11]%Z;
            table_timestamps := [0; 1; 2.5; 3; 5];
            table_intervals := pd_bfill (spec_intervals [0; 1; 2.5; 3; 5]);
            table_variability := pd_bfill variability |}
    /\ length variability = 5%nat
    /\ nth 3 variability nan = spec_rms [0; 1; 2.5; 3; 5] 3
    /\ nth 4 variability nan = spec_rms [0; 1; 2.5; 3; 5] 4
    /\ nth 0 variability nan = nan.
Proof.
  destruct (proj1 get_pulse_metrics_spec float binary64
              [3; 5; 7; 9; 11]%Z [0; 1; 2.5; 3; 5] None)
    as [variability [Hrun [Hlen [Hrms Hlead]]]].
  - repeat constructor; simpl; intuition lia.
  - reflexivity.
  - exists variability. split; [exact Hrun|]. split; [exact Hlen|].
    split; [apply Hrms; simpl; lia|]. split; [apply Hrms; simpl; lia|].
    apply (Hlead ltac:(simpl; lia) 0%nat). lia.
Defined.

(** C2 as stated fails on an index that repeats a label. The assignment
    [variability[variability.index[i]] = ...] sets every row that carries
    the label of row [i]: rows 3 and 5 below share the label 10, and row 3
    ends with the RMS of row 5, 1000, where the RMS of its own window is 0.
    With distinct labels row 3 holds 0. *)
Lemma get_pulse_metrics_repeated_label :
  exists table,
    get_pulse_metrics (PdSeries [7; 8; 9; 10; 11; 10]%Z [0; 1; 2; 3; 4; 7]) None
    = Ok table
    /\ nth 3 (table_variability table) nan = 1000
    /\ spec_rms [0; 1; 2; 3; 4; 7] 3 = 0
    /\ spec_rms [0; 1; 2; 3; 4; 7] 5 = 1000
    /\ exists distinct,
         get_pulse_metrics (PdSeries [7; 8; 9; 10; 11; 12]%Z [0; 1; 2; 3; 4; 7])
           None
         = Ok distinct
         /\ nth 3 (table_variability distinct) nan = 0.
Proof.
  eexists. split; [vm_compute; reflexivity|].
  split; [reflexivity|]. split; [vm_compute; reflexivity|].
  split; [vm_compute; reflexivity|].
  eexists. split; [vm_compute; reflexivity|]. reflexivity.
Qed.

(** The RMS on uneven beats: the differences of the intervals of
    [0, 1, 2.5, 3, 5] are [_, _, 500, -1000, 1500] ms, and the RMS of the
    last four is the root of [(500^2 + 1000^2 + 1500^2) / 3]. *)
Lemma get_pulse_metrics_uneven_beats :
  spec_rms [0; 1; 2.5; 3; 5] 4
  = PrimFloat.sqrt ((500 * 500 + 1000 * 1000 + 1500 * 1500) / 3)
  /\ exists table,
       get_pulse_metrics (PdSeries [3; 5; 7; 9; 11]%Z [0; 1; 2.5; 3; 5]) None
       = Ok table
       /\ nth 4 (table_variability table) nan
          = PrimFloat.sqrt ((500 * 500 + 1000 * 1000 + 1500 * 1500) / 3).
Proof.
  split; [vm_compute; reflexivity|].
  eexists. split; [vm_compute; reflexivity|]. vm_compute. reflexivity.
Qed.

(** The example series of the design document: one sharp drop at position
    3 followed by a rise. *)
Definition drop_then_rise : list float := [1; 1; 1; 0.5; 1.3; 1; 1].

Lemma get_anomalies_flags_example :
  get_anomalies_from_rri (PdSeries [10; 11; 12; 13; 14; 15; 16]%Z drop_then_rise)
    None None None
  = Ok [13%Z].
Proof.
  destruct (@get_anomalies_flags float binary64
              [10; 11; 12; 13; 14; 15; 16]%Z drop_then_rise None None None)
    as [_ Hrun].
  - simpl. lia.
  - rewrite Hrun. vm_compute. reflexivity.
Defined.

(** C4, the code at a series with a missing interval. The result of
    [rri.fillna(0)] is dropped, the NaN reaches the moving average and
    spreads over the seven positions around it, every first difference
    becomes NaN and then 0, the scale is 0, and nothing is flagged. On the
    same series with 0 in place of the NaN the drop at position 4 is
    flagged. *)
Lemma get_anomalies_nan_is_not_zero_filled :
  get_anomalies_from_rri
    (PdSeries [0; 1; 2; 3; 4; 5; 6; 7; 8]%Z [1; 1; 1; 1; nan; 1; 1; 1; 1])
    None None None
  = Ok []
  /\
  get_anomalies_from_rri
    (PdSeries [0; 1; 2; 3; 4; 5; 6; 7; 8]%Z [1; 1; 1; 1; 0; 1; 1; 1; 1])
    None None None
  = Ok [4%Z].
Proof. split; vm_compute; reflexivity. Qed.

(** C3 as stated fails on a series shorter than the smoothing window. The
    six intervals below drop at position 2 and rise at position 3, and
    nothing is flagged: the baseline that [convolve(..., 'same')] returns
    has seven samples, as many as the window, the subtraction raises, and
    the detector with it. *)
Lemma get_anomalies_short_series :
  exists message,
    get_anomalies_from_rri
      (PdSeries [10; 11; 12; 13; 14; 15]%Z [1; 1; 0.5; 1.3; 1; 1]) None None None
    = Err (ValueError message).
Proof. eexists. vm_compute. reflexivity. Qed.

Lemma frequency_filtering_fft_length_example :
  exists out,
    frequency_filtering_fft [1; 2; 3; 4; 5; 6; 7; 8] None (Some 0.2) None "all"
    = Ok out
    /\ length out = 8%nat.
Proof.
  destruct (frequency_filtering_fft [1; 2; 3; 4; 5; 6; 7; 8] None (Some 0.2)
              None "all") as [out|e] eqn:E.
  - exists out. split; [reflexivity|].
    apply (@frequency_filtering_fft_length float binary64 _ _ _ _ _ _ E).
  - vm_compute in E. discriminate E.
Defined.

Lemma frequency_filtering_fft_errors_example :
  frequency_filtering_fft [1; 2] (Some [3]) (Some 0.2) None "all"
  = Err (dimension_mismatch 2 1)
  /\ frequency_filtering_fft [1; 2] (Some [3; 4]) (Some 0.2) None "negative"
     = Err bad_reconstruction_mode.
Proof.
  split.
  - apply (proj1 (@frequency_filtering_fft_errors float binary64
                    [1; 2] (Some [3]) (Some 0.2) None "all") [3]);
      [reflexivity | discriminate].
  - apply (proj2 (@frequency_filtering_fft_errors float binary64
                    [1; 2] (Some [3; 4]) (Some 0.2) None "negative"));
      [reflexivity | reflexivity | discriminate |].
    intros t' H. injection H as <-. reflexivity.
Defined.

(** C7 as stated fails: with an unknown reconstruction mode it is not
    always the reconstruction-mode error that is raised. An empty signal
    with no time axis fails in [min(t)] first, and a time axis of the wrong
    length raises the dimension-mismatch error first. *)
Lemma frequency_filtering_fft_other_error_first :
  frequency_filtering_fft (@nil float) None (Some 0.2) None "negative"
  = Err (ValueError
      "zero-size array to reduction operation minimum which has no identity")
  /\ frequency_filtering_fft (@nil float) None (Some 0.2) None "negative"
     <> Err bad_reconstruction_mode
  /\ frequency_filtering_fft [1; 2] (Some [3]) (Some 0.2) None "negative"
     = Err (dimension_mismatch 2 1)
  /\ frequency_filtering_fft [1; 2] (Some [3]) (Some 0.2) None "negative"
     <> Err bad_reconstruction_mode.
Proof.
  repeat split; try reflexivity; vm_compute; discriminate.
Qed.

(** C5 as stated fails: a signal of one sample has no sample spacing, the
    mean of no difference is NaN, so is the frequency of the only bin, the
    comparison with the upper bound is false, and the filter returns 0. *)
Lemma frequency_filtering_fft_single_sample :
  frequency_filtering_fft [5] (Some [0]) (Some finfinity) None "all" = Ok [0]
  /\ frequency_filtering_fft [5] None (Some finfinity) None "positive" = Ok [0]
  /\ Ok [0] <> Ok [5].
Proof.
  split; [|split]; try (vm_compute; reflexivity).
  intros H. apply Ok_inj in H.
  apply (f_equal (fun l => PrimFloat.eqb (hd 0 l) 0)) in H.
  vm_compute in H. discriminate H.
Qed.

(** A time axis that does not advance has mean spacing 0: every bin
    frequency is infinite or NaN, and nothing passes. *)
Lemma frequency_filtering_fft_constant_time :
  frequency_filtering_fft [1; 2; 3; 4] (Some [3; 3; 3; 3]) (Some finfinity) None "all"
  = Ok [0; 0; 0; 0].
Proof. vm_compute. reflexivity. Qed.



End Toolbox.

(** ** The transform-domain filter over exact arithmetic *)

Module ExactFilter.

Import Reals Lra.
Import ExactReal Toolbox.

Open Scope R_scope.

Lemma Some_inj {A : Type} (a b : A) : Some a = Some b -> a = b.
Proof. intros H. injection H as H. exact H. Qed.

(** *** Finite sums and the cosine sum over a period *)

Fixpoint bigsum (f : nat -> R) (n : nat) : R :=
  match n with
  | O => 0
  | S n' => bigsum f n' + f n'
  end.

Lemma bigsum_ext (f g : nat -> R) (n : nat) :
  (forall k, (k < n)%nat -> f k = g k) -> bigsum f n = bigsum g n.
Proof.
  induction n as [|n IH]; intros H; simpl; [reflexivity|].
  rewrite IH, H; auto.
Qed.

Lemma bigsum_plus (f g : nat -> R) (n : nat) :
  bigsum (fun k => f k + g k) n = bigsum f n + bigsum g n.
Proof. induction n as [|n IH]; simpl; [lra | rewrite IH; lra]. Qed.

Lemma bigsum_scal (c : R) (f : nat -> R) (n : nat) :
  bigsum (fun k => c * f k) n = c * bigsum f n.
Proof. induction n as [|n IH]; simpl; [lra | rewrite IH; lra]. Qed.

Lemma bigsum_zero (n : nat) : bigsum (fun _ => 0) n = 0.
Proof. induction n as [|n IH]; simpl; [lra | rewrite IH; lra]. Qed.

Lemma bigsum_swap (g : nat -> nat -> R) (n m : nat) :
  bigsum (fun k => bigsum (fun j => g k j) m) n
  = bigsum (fun j => bigsum (fun k => g k j) n) m.
Proof.
  induction n as [|n IH]; simpl.
  - symmetry. apply bigsum_zero.
  - rewrite IH, <- bigsum_plus. reflexivity.
Qed.

Lemma bigsum_single (f : nat -> R) (j n : nat) :
  (j < n)%nat ->
  bigsum (fun m => if Nat.eqb m j then f m else 0) n = f j.
Proof.
  induction n as [|n IH]; intros Hj; [lia|]. simpl.
  destruct (Nat.eqb_spec n j) as [->|Hne].
  - rewrite (bigsum_ext _ (fun _ => 0)).
    + rewrite bigsum_zero. lra.
    + intros k Hk. destruct (Nat.eqb_spec k j); [lia | reflexivity].
  - rewrite IH by lia. lra.
Qed.

(** Lagrange's identity for the sum of cosines of an arithmetic
    progression. *)
Lemma cos_sum_telescope (alpha : R) (n : nat) :
  2 * sin (alpha / 2) * bigsum (fun k => cos (INR k * alpha)) n
  = sin ((INR n - 1 / 2) * alpha) + sin (alpha / 2).
Proof.
  induction n as [|n IH].
  - simpl. replace ((0 - 1 / 2) * alpha) with (- (alpha / 2)) by lra.
    rewrite sin_neg. lra.
  - cbn [bigsum]. rewrite Rmult_plus_distr_l, IH, S_INR.
    replace ((INR n + 1 - 1 / 2) * alpha) with (INR n * alpha + alpha / 2) by lra.
    replace ((INR n - 1 / 2) * alpha) with (INR n * alpha - alpha / 2) by lra.
    rewrite sin_plus, sin_minus. lra.
Qed.

Lemma cos_sum_zero (N d : nat) :
  (0 < d < N)%nat ->
  bigsum (fun k => cos (INR k * (2 * PI * INR d / INR N))) N = 0.
Proof.
  intros Hd.
  assert (HN : 0 < INR N) by (apply lt_0_INR; lia).
  assert (Hd0 : 0 < INR d) by (apply lt_0_INR; lia).
  assert (HdN : INR d < INR N) by (apply lt_INR; lia).
  set (alpha := 2 * PI * INR d / INR N).
  pose proof (cos_sum_telescope alpha N) as H.
  assert (Hhalf : alpha / 2 = PI * (INR d / INR N)) by (unfold alpha; field; lra).
  assert (Hsin : 0 < sin (alpha / 2)).
  { pose proof PI_RGT_0 as Hpi.
    assert (0 < INR d / INR N < 1).
    { split; [apply Rdiv_lt_0_compat; lra|].
      apply (Rmult_lt_reg_r (INR N)); [lra|]. field_simplify; lra. }
    apply sin_gt_0; rewrite Hhalf; nra. }
  assert (Hwrap : sin ((INR N - 1 / 2) * alpha) = - sin (alpha / 2)).
  { replace ((INR N - 1 / 2) * alpha) with (- (alpha / 2) + 2 * INR d * PI)
      by (unfold alpha; field; lra).
    rewrite sin_period, sin_neg. reflexivity. }
  rewrite Hwrap in H.
  assert (H0 : sin (alpha / 2) * bigsum (fun k => cos (INR k * alpha)) N = 0) by lra.
  apply Rmult_integral in H0. destruct H0; [lra | assumption].
Qed.

Lemma cos_sum_full (N : nat) :
  bigsum (fun k => cos (INR k * 0)) N = INR N.
Proof.
  induction N as [|N IH]; [reflexivity|].
  cbn [bigsum]. rewrite IH, S_INR, Rmult_0_r, cos_0. reflexivity.
Qed.

(** *** The transform on finite values *)

Definition lift (c : R * R) : xreal * xreal := (XFin (fst c), XFin (snd c)).

Definition Cmul (a b : R * R) : R * R :=
  (fst a * fst b - snd a * snd b, fst a * snd b + snd a * fst b).

Lemma cmul_lift (a b : R * R) : cmul (lift a) (lift b) = lift (Cmul a b).
Proof. reflexivity. Qed.

Lemma cadd_lift (a b : R * R) :
  cadd (lift a) (lift b) = lift (fst a + fst b, snd a + snd b).
Proof. reflexivity. Qed.

Lemma csum_lift (g : nat -> R * R) (n : nat) :
  csum (map (fun m => lift (g m)) (seq 0 n))
  = lift (bigsum (fun m => fst (g m)) n, bigsum (fun m => snd (g m)) n).
Proof.
  unfold csum. induction n as [|n IH]; [reflexivity|].
  rewrite seq_S, map_app, fold_left_app, IH. reflexivity.
Qed.

Definition rootR (sign : Z) (j n : nat) : R * R :=
  let angle := IZR sign * (2 * PI * IZR (Z.of_nat (j mod n))) / IZR (Z.of_nat n) in
  (cos angle, sin angle).

Lemma IZR_of_nat_neq_0 (n : nat) : n <> 0%nat -> IZR (Z.of_nat n) <> 0.
Proof. intros H. rewrite <- INR_IZR_INZ. apply not_0_INR, H. Qed.

Lemma xdiv_fin (x y : R) : y <> 0 -> xdiv (XFin x) (XFin y) = XFin (x / y).
Proof. intros H. unfold xdiv. destruct (Req_dec_T y 0); [contradiction | reflexivity]. Qed.

Lemma root_of_unity_lift (sign : Z) (j n : nat) :
  n <> 0%nat -> root_of_unity sign j n = lift (rootR sign j n).
Proof.
  intros Hn. unfold root_of_unity, rootR, lift.
  cbn [fdiv fmul of_Z fpi fcos fsin exact xmul fst snd].
  rewrite xdiv_fin by (apply IZR_of_nat_neq_0, Hn). reflexivity.
Qed.

Definition dftR (sign : Z) (a : list (R * R)) : list (R * R) :=
  let n := length a in
  map (fun k =>
         (bigsum (fun m => fst (Cmul (nth m a (0, 0)) (rootR sign (m * k) n))) n,
          bigsum (fun m => snd (Cmul (nth m a (0, 0)) (rootR sign (m * k) n))) n))
      (seq 0 n).

Lemma dft_lift (sign : Z) (a : list (R * R)) :
  a <> [] -> dft sign (map lift a) = map lift (dftR sign a).
Proof.
  intros Ha. unfold dft, dftR. rewrite length_map, map_map.
  assert (Hn : length a <> 0%nat) by (destruct a; [contradiction | discriminate]).
  apply map_ext. intros k.
  rewrite <- csum_lift. f_equal. apply map_ext. intros m.
  rewrite root_of_unity_lift by exact Hn.
  change czero with (lift (0, 0)). rewrite map_nth. apply cmul_lift.
Qed.

Definition ang (N a : nat) : R := 2 * PI * INR a / INR N.

Lemma ang_mod (N a : nat) :
  N <> 0%nat -> ang N a = ang N (a mod N) + 2 * INR (a / N) * PI.
Proof.
  intros HN. unfold ang.
  rewrite (Nat.div_mod_eq a N) at 1. rewrite plus_INR, mult_INR.
  field. apply not_0_INR, HN.
Qed.

Lemma cos_ang_mod (N a : nat) : N <> 0%nat -> cos (ang N (a mod N)) = cos (ang N a).
Proof. intros HN. rewrite (ang_mod a HN), cos_period. reflexivity. Qed.

Lemma sin_ang_mod (N a : nat) : N <> 0%nat -> sin (ang N (a mod N)) = sin (ang N a).
Proof. intros HN. rewrite (ang_mod a HN), sin_period. reflexivity. Qed.

Lemma rootR_forward (N j : nat) :
  N <> 0%nat -> rootR (-1) j N = (cos (ang N j), - sin (ang N j)).
Proof.
  intros HN. unfold rootR. cbv zeta. rewrite <- !INR_IZR_INZ.
  replace (-1 * (2 * PI * INR (j mod N)) / INR N) with (- ang N (j mod N))
    by (unfold ang; field; apply not_0_INR, HN).
  rewrite cos_neg, sin_neg, cos_ang_mod, sin_ang_mod by exact HN. reflexivity.
Qed.

Lemma rootR_backward (N j : nat) :
  N <> 0%nat -> rootR 1 j N = (cos (ang N j), sin (ang N j)).
Proof.
  intros HN. unfold rootR. cbv zeta. rewrite <- !INR_IZR_INZ.
  replace (1 * (2 * PI * INR (j mod N)) / INR N) with (ang N (j mod N))
    by (unfold ang; field; apply not_0_INR, HN).
  rewrite cos_ang_mod, sin_ang_mod by exact HN. reflexivity.
Qed.

Lemma dftR_length (sign : Z) (a : list (R * R)) : length (dftR sign a) = length a.
Proof. unfold dftR. rewrite length_map, length_seq. reflexivity. Qed.

Lemma dftR_nth (sign : Z) (a : list (R * R)) (k : nat) :
  (k < length a)%nat ->
  nth k (dftR sign a) (0, 0)
  = (bigsum (fun m => fst (Cmul (nth m a (0, 0)) (rootR sign (m * k) (length a))))
       (length a),
     bigsum (fun m => snd (Cmul (nth m a (0, 0)) (rootR sign (m * k) (length a))))
       (length a)).
Proof.
  intros Hk. unfold dftR. cbv zeta.
  rewrite (nth_map_lt _ _ 0%nat) by (rewrite length_seq; exact Hk).
  rewrite seq_nth by exact Hk. reflexivity.
Qed.

(** The sum over a full period of the cosines of the difference of two
    angles on the [N]-point grid. *)
Lemma cos_difference_sum (N m j : nat) :
  (m < N)%nat -> (j < N)%nat ->
  bigsum (fun k => cos (ang N (m * k) - ang N (k * j))) N
  = if Nat.eqb m j then INR N else 0.
Proof.
  intros Hm Hj.
  assert (HN : INR N <> 0) by (apply not_0_INR; lia).
  destruct (Nat.eqb_spec m j) as [->|Hne].
  - rewrite <- cos_sum_full. apply bigsum_ext. intros k _.
    f_equal. unfold ang. rewrite !mult_INR. field. exact HN.
  - destruct (Nat.lt_ge_cases j m) as [Hlt|Hge].
    + rewrite <- (@cos_sum_zero N (m - j)) by lia.
      apply bigsum_ext. intros k _. f_equal. unfold ang.
      rewrite !mult_INR, minus_INR by lia. field. exact HN.
    + rewrite <- (@cos_sum_zero N (j - m)) by lia.
      apply bigsum_ext. intros k _. rewrite <- cos_neg. f_equal. unfold ang.
      rewrite !mult_INR, minus_INR by lia. field. exact HN.
Qed.

(** The inverse transform of the transform of a real signal, through an
    all-pass mask, is the signal. *)
Lemma idft_dft_real (yr : list R) (j : nat) :
  (j < length yr)%nat ->
  fst (nth j (dftR 1 (map (fun c => Cmul c (1, 0))
                        (dftR (-1) (map (fun v => (v, 0)) yr)))) (0, 0))
  * (1 / INR (length yr))
  = nth j yr 0.
Proof.
  intros Hj. set (N := length yr).
  assert (HN0 : N <> 0%nat) by (unfold N; lia).
  assert (HN : INR N <> 0) by (apply not_0_INR; exact HN0).
  set (Y := map (fun v => (v, 0)) yr).
  assert (HY : length Y = N) by (unfold Y; apply length_map).
  set (X := dftR (-1) Y).
  assert (HX : length X = N) by (unfold X; rewrite dftR_length; exact HY).
  set (X' := map (fun c => Cmul c (1, 0)) X).
  assert (HX' : length X' = N) by (unfold X'; rewrite length_map; exact HX).
  rewrite dftR_nth by (rewrite HX'; exact Hj). rewrite HX'. cbn [fst].
  rewrite (@bigsum_ext _
    (fun k => bigsum (fun m => nth m yr 0
                               * cos (ang N (m * k) - ang N (k * j))) N) N).
  2:{ intros k Hk. unfold X'.
      rewrite (nth_map_lt _ _ (0, 0)) by (rewrite HX; exact Hk).
      unfold X. rewrite dftR_nth by (rewrite HY; exact Hk). rewrite HY.
      rewrite rootR_backward by exact HN0.
      rewrite (@bigsum_ext
                 (fun m => fst (Cmul (nth m Y (0, 0)) (rootR (-1) (m * k) N)))
                 (fun m => nth m yr 0 * cos (ang N (m * k))) N).
      2:{ intros m Hm. unfold Y.
          rewrite (nth_map_lt _ _ 0) by exact Hm.
          rewrite rootR_forward by exact HN0. cbn [Cmul fst snd]. ring. }
      rewrite (@bigsum_ext
                 (fun m => snd (Cmul (nth m Y (0, 0)) (rootR (-1) (m * k) N)))
                 (fun m => (-1) * (nth m yr 0 * sin (ang N (m * k)))) N).
      2:{ intros m Hm. unfold Y.
          rewrite (nth_map_lt _ _ 0) by exact Hm.
          rewrite rootR_forward by exact HN0. cbn [Cmul fst snd]. ring. }
      cbn [Cmul fst snd].
      rewrite bigsum_scal.
      transitivity
        (cos (ang N (k * j)) * bigsum (fun m => nth m yr 0 * cos (ang N (m * k))) N
         + sin (ang N (k * j)) * bigsum (fun m => nth m yr 0 * sin (ang N (m * k))) N);
        [ring|].
      rewrite <- !bigsum_scal, <- bigsum_plus.
      apply bigsum_ext. intros m _. rewrite cos_minus. ring. }
  rewrite bigsum_swap.
  rewrite (@bigsum_ext _
    (fun m => if Nat.eqb m j then nth m yr 0 * INR N else 0) N).
  2:{ intros m Hm. rewrite bigsum_scal, cos_difference_sum by assumption.
      destruct (Nat.eqb m j); ring. }
  rewrite (bigsum_single (fun m => nth m yr 0 * INR N)) by exact Hj.
  field. exact HN.
Qed.

(** *** The stages of the filter on finite input *)

Definition finite (a : xreal) : Prop := exists r, a = XFin r.

Lemma fft_lift (yr : list R) :
  yr <> [] ->
  fft (map XFin yr) = Ok (map lift (dftR (-1) (map (fun v => (v, 0)) yr))).
Proof.
  intros Hy. destruct yr as [|v yr]; [contradiction|].
  unfold fft. cbn [map]. f_equal.
  rewrite <- dft_lift by discriminate.
  f_equal. cbn [map]. f_equal. rewrite !map_map. reflexivity.
Qed.

Lemma ifft_lift (XR : list (R * R)) :
  XR <> [] ->
  ifft (map lift XR)
  = Ok (map lift (map (fun c => (fst c * (1 / INR (length XR)),
                                 snd c * (1 / INR (length XR))))
                      (dftR 1 XR))).
Proof.
  intros HX. destruct XR as [|c XR]; [contradiction|].
  unfold ifft. cbn [map]. f_equal.
  change (lift c :: map lift XR) with (map lift (c :: XR)).
  rewrite dft_lift by discriminate. rewrite length_map, !map_map.
  apply map_ext. intros z.
  cbn [fdiv fmul of_Z fone exact]. unfold fone. cbn [of_Z exact].
  rewrite xdiv_fin by (apply IZR_of_nat_neq_0; discriminate).
  rewrite <- INR_IZR_INZ. reflexivity.
Qed.

Lemma fold_fmin_finite (l : list R) :
  forall x, exists m, fold_left fmin (map XFin l) (XFin x) = XFin m.
Proof.
  induction l as [|y l IH]; intros x; [exists x; reflexivity|].
  cbn [map fold_left]. unfold fmin at 2. cbn [fisnan exact xisnan fltb xltb].
  destruct (Rlt_dec y x); apply IH.
Qed.

Lemma np_min_finite (tr : list R) :
  tr <> [] -> exists m, np_min (map XFin tr) = Ok (XFin m).
Proof.
  destruct tr as [|x tr]; [contradiction|]. intros _.
  destruct (fold_fmin_finite tr x) as [m Hm]. exists m.
  unfold np_min. cbn [map]. rewrite Hm. reflexivity.
Qed.

Lemma last_default {A : Type} (d d' : A) (l : list A) :
  forall y, last (y :: l) d = last (y :: l) d'.
Proof.
  induction l as [|z l IH]; intros y; [reflexivity|].
  change (last (z :: l) d = last (z :: l) d'). apply IH.
Qed.

Lemma last_cons {A : Type} (x d : A) (l : list A) : last (x :: l) d = last l x.
Proof.
  destruct l as [|y l]; [reflexivity|].
  change (last (y :: l) d = last (y :: l) x). apply last_default.
Qed.

(** The differences of a finite series sum to its last value minus its
    first. *)
Lemma sum_diff_from (m : R) (l : list R) :
  forall p a,
  exists s,
    fold_left fadd
      (diff_from (XFin (p - m)) (map (fun x => (x - XFin m)%num) (map XFin l)))
      (XFin a)
    = XFin s
    /\ s = a + (last l p - p).
Proof.
  induction l as [|y l IH]; intros p a.
  - exists a. split; [reflexivity | simpl; lra].
  - cbn [map diff_from fold_left].
    cbn [fsub fadd exact xsub xadd].
    destruct (IH y (a + (y - m - (p - m)))) as [s [Hs Hv]].
    exists s. split; [exact Hs|]. rewrite last_cons. lra.
Qed.

Lemma mean_spacing_finite (m : R) (tr : list R) :
  (2 <= length tr)%nat ->
  last tr 0 <> hd 0 tr ->
  exists s,
    np_mean (np_diff (map (fun x => (x - XFin m)%num) (map XFin tr))) = XFin s
    /\ s <> 0.
Proof.
  intros Hlen Hne. destruct tr as [|p l]; [simpl in Hlen; lia|].
  assert (Hl : l <> []) by (destruct l; [simpl in Hlen; lia | discriminate]).
  unfold np_mean, np_sum. cbn [map np_diff].
  assert (Hdl : length (diff_from (XFin p - XFin m)%num
                          (map (fun x => (x - XFin m)%num) (map XFin l)))
                = length l).
  { rewrite (@diff_from_spec xreal exact), length_map, length_seq, !length_map.
    reflexivity. }
  rewrite Hdl.
  destruct (sum_diff_from m l p 0) as [s [Hs Hv]].
  change (XFin p - XFin m)%num with (XFin (p - m)).
  change (@fzero xreal exact) with (XFin 0). rewrite Hs.
  cbn [fdiv of_Z exact].
  assert (Hn : IZR (Z.of_nat (length l)) <> 0).
  { apply IZR_of_nat_neq_0. destruct l; [contradiction | discriminate]. }
  rewrite xdiv_fin by exact Hn.
  eexists. split; [reflexivity|].
  rewrite last_cons in Hne. cbn [hd] in Hne.
  assert (Hlast : last l p = last l 0).
  { destruct l as [|q l']; [contradiction|]. rewrite !last_cons. reflexivity. }
  assert (s <> 0) by (rewrite Hv, Hlast; lra).
  intros H0. apply Rmult_integral in H0. destruct H0 as [H0|H0]; [contradiction|].
  apply (Rinv_neq_0_compat _ Hn). exact H0.
Qed.

Lemma fftfreq_finite (n : nat) : n <> 0%nat -> Forall finite (fftfreq n).
Proof.
  intros Hn. unfold fftfreq. cbv zeta. apply Forall_forall. intros f Hf.
  apply in_map_iff in Hf. destruct Hf as [r [<- _]].
  unfold fone. cbn [fmul fdiv of_Z exact xmul].
  rewrite xdiv_fin.
  - eexists. reflexivity.
  - apply Rmult_integral_contrapositive. split.
    + apply IZR_of_nat_neq_0, Hn.
    + lra.
Qed.

Lemma finfinity_exact : @finfinity xreal exact = XPInf.
Proof.
  unfold finfinity, fone, fzero. cbn [fdiv of_Z exact xdiv].
  destruct (Req_dec_T 0 0) as [_|H]; [|contradiction H; reflexivity].
  unfold Rsign. destruct (Rlt_dec 1 0); [lra|].
  destruct (Rlt_dec 0 1); [reflexivity | lra].
Qed.

Lemma combine_all_true {A B C : Type} (g : A -> bool -> C) (l1 : list A) :
  forall l2 : list B,
    length l2 = length l1 ->
    map (fun p => g (fst p) (snd p)) (combine l1 (map (fun _ => true) l2))
    = map (fun c => g c true) l1.
Proof.
  induction l1 as [|x l1 IH]; intros l2 H; [reflexivity|].
  destruct l2 as [|y l2]; [discriminate|].
  cbn [map combine fst snd]. f_equal. apply IH. simpl in H. lia.
Qed.

Lemma all_pass_mask (freq : list xreal) :
  Forall finite freq ->
  map (fun f => (f <? finfinity)%num) freq = map (fun _ => true) freq
  /\ map (fun f => (f <? finfinity)%num) (map fabs freq)
     = map (fun _ => true) (map fabs freq).
Proof.
  intros H. rewrite finfinity_exact. split.
  - apply map_ext_in. intros f Hf.
    rewrite Forall_forall in H. destruct (H f Hf) as [r ->]. reflexivity.
  - rewrite !map_map. apply map_ext_in. intros f Hf.
    rewrite Forall_forall in H. destruct (H f Hf) as [r ->]. reflexivity.
Qed.

Lemma scaled_finite (c : R) (freq : list xreal) :
  Forall finite freq -> Forall finite (map (fun f => (f * XFin c)%num) freq).
Proof.
  intros H. apply Forall_forall. intros f Hf. apply in_map_iff in Hf.
  destruct Hf as [g [<- Hg]]. rewrite Forall_forall in H.
  destruct (H g Hg) as [r ->]. eexists. reflexivity.
Qed.

Lemma inverse_of_transform (yr : list R) :
  yr <> [] ->
  map fst
    (map lift
       (map (fun c => (fst c * (1 / INR (length yr)), snd c * (1 / INR (length yr))))
          (dftR 1 (map (fun c => Cmul c (1, 0))
                     (dftR (-1) (map (fun v => (v, 0)) yr))))))
  = map XFin yr.
Proof.
  intros Hy. rewrite !map_map. cbn [lift fst].
  rewrite <- (map_map (fun c => fst c * (1 / INR (length yr))) XFin).
  f_equal. apply (nth_ext _ _ 0 0).
  - rewrite length_map, dftR_length, length_map, dftR_length, length_map.
    reflexivity.
  - intros j Hj.
    rewrite length_map, dftR_length, length_map, dftR_length, length_map in Hj.
    rewrite (nth_map_lt _ _ (0, 0))
      by (rewrite dftR_length, length_map, dftR_length, length_map; exact Hj).
    apply idft_dft_real. exact Hj.
Qed.

Lemma filter_with_time_axis (yr tr : list R) (mode : string) :
  (2 <= length yr)%nat ->
  length tr = length yr ->
  last tr 0 <> hd 0 tr ->
  mode = "all"%string \/ mode = "positive"%string ->
  frequency_filtering_fft (map XFin yr) (Some (map XFin tr))
    (Some finfinity) None mode
  = Ok (map XFin yr).
Proof.
  intros HN Hlen Hne Hmode.
  assert (Hy : yr <> []) by (destruct yr; [simpl in HN; lia | discriminate]).
  assert (Ht : tr <> []) by (destruct tr; [simpl in *; lia | discriminate]).
  unfold frequency_filtering_fft.
  rewrite !length_map, Hlen, Nat.eqb_refl. cbn [negb bind].
  destruct (np_min_finite Ht) as [m ->]. cbn [bind].
  rewrite (fft_lift Hy). cbn [bind].
  destruct (@mean_spacing_finite m tr) as [s [-> Hs]]; [lia | exact Hne |].
  assert (Hinv : (fone / XFin s)%num = XFin (1 / s))
    by (unfold fone; cbn [fdiv of_Z exact]; apply xdiv_fin, Hs).
  rewrite !Hinv.
  assert (Hfreq : Forall finite
                    (map (fun f => (f * XFin (1 / s))%num) (fftfreq (length yr)))).
  { apply scaled_finite, fftfreq_finite. lia. }
  destruct (all_pass_mask Hfreq) as [Hpos Hall].
  set (X := dftR (-1) (map (fun v => (v, 0)) yr)).
  assert (HX : length X = length yr)
    by (unfold X; rewrite dftR_length; apply length_map).
  assert (Hfinal : forall freq : list xreal,
             length freq = length yr ->
             (y_filtered <- ifft
                (map (fun p => cmul (fst p) (of_bool (snd p)))
                   (combine (map lift X) (map (fun _ => true) freq))) ;;
              Ok (map fst y_filtered))
             = Ok (map XFin yr)).
  { intros freq Hf.
    rewrite (combine_all_true (fun c b => cmul c (of_bool b)))
      by (rewrite length_map, HX; exact Hf).
    rewrite map_map.
    rewrite (map_ext _ (fun c => lift (Cmul c (1, 0)))) by reflexivity.
    rewrite <- (map_map (fun c => Cmul c (1, 0)) lift).
    rewrite ifft_lift
      by (intros E; apply (f_equal (@length _)) in E;
          rewrite length_map, HX in E; simpl in E; lia).
    cbn [bind]. rewrite length_map, HX. f_equal.
    apply inverse_of_transform. exact Hy. }
  destruct Hmode as [-> | ->].
  - change (String.eqb "all" "all") with true. cbn [bind].
    rewrite Hall. apply Hfinal.
    rewrite !length_map. apply fftfreq_length.
  - change (String.eqb "positive" "all") with false.
    change (String.eqb "positive" "positive") with true. cbn [negb bind].
    rewrite Hpos. apply Hfinal.
    rewrite length_map. apply fftfreq_length.
Qed.

Lemma arange_exact (n : nat) :
  @np_arange xreal exact n = map XFin (map IZR (range n)).
Proof. unfold np_arange. rewrite map_map. reflexivity. Qed.

Lemma arange_spacing (n : nat) :
  (2 <= n)%nat -> last (map IZR (range n)) 0 <> hd 0 (map IZR (range n)).
Proof.
  intros Hn. destruct n as [|[|n]]; try lia.
  unfold range. rewrite seq_S, !map_app. cbn [map]. rewrite last_last.
  cbn [seq map hd]. intros H. apply eq_IZR in H. lia.
Qed.

Lemma without_time_axis {F : Type} {num : Number F} (y : list F)
  (upper lower : option F) (mode : string) :
  frequency_filtering_fft y None upper lower mode
  = frequency_filtering_fft y (Some (np_arange (length y))) upper lower mode.
Proof.
  unfold frequency_filtering_fft.
  unfold np_arange at 2. rewrite length_map, range_length, Nat.eqb_refl.
  reflexivity.
Qed.

(** C5 (as amended). Over exact arithmetic, for a finite signal of at
    least two samples and either no time axis or a finite time axis of the
    same length whose last stamp differs from its first, the filter with no
    lower bound and an infinite upper bound, in either reconstruction mode,
    keeps every frequency bin and returns the input signal unchanged. *)
Theorem frequency_filtering_fft_identity (yr : list R) (t : option (list R))
  (reconstruction_mode : string) :
  (2 <= length yr)%nat ->
  (forall tr, t = Some tr -> length tr = length yr /\ last tr 0 <> hd 0 tr) ->
  reconstruction_mode = "all"%string \/ reconstruction_mode = "positive"%string ->
  frequency_filtering_fft (map XFin yr) (option_map (map XFin) t)
    (Some finfinity) None reconstruction_mode
  = Ok (map XFin yr).
Proof.
  intros HN Ht Hmode. destruct t as [tr|]; cbn [option_map].
  - destruct (Ht tr eq_refl) as [Hlen Hne].
    apply filter_with_time_axis; assumption.
  - rewrite without_time_axis, length_map, arange_exact.
    apply filter_with_time_axis; try assumption.
    + rewrite length_map. apply range_length.
    + apply arange_spacing. exact HN.
Qed.

Lemma frequency_filtering_fft_identity_example :
  frequency_filtering_fft (map XFin [1; 2]) (Some (map XFin [0; 1]))
    (Some finfinity) None "all"
  = Ok (map XFin [1; 2]).
Proof.
  apply (@frequency_filtering_fft_identity [1; 2] (Some [0; 1]) "all").
  - simpl. lia.
  - intros tr H. apply Some_inj in H. subst tr. split; [reflexivity|].
    simpl. lra.
  - left. reflexivity.
Defined.

Lemma xmul_nan_r (x : xreal) : xmul x XNaN = XNaN.
Proof. destruct x; reflexivity. Qed.

Lemma mean_of_nothing : @np_mean xreal exact [] = XNaN.
Proof.
  unfold np_mean, np_sum, fzero. cbn [fold_left length fdiv of_Z exact Z.of_nat xdiv].
  destruct (Req_dec_T 0 0) as [_|H]; [|contradiction H; reflexivity].
  unfold Rsign. destruct (Rlt_dec 0 0); [lra | reflexivity].
Qed.

(** C5 as stated fails, also over exact arithmetic: a signal of one sample
    has no sample spacing, the mean of no difference is NaN, so is the
    frequency of the only bin, no bin is kept, and the filter returns 0 for
    the sample 5. *)
Lemma frequency_filtering_fft_single_sample_exact :
  exists r,
    frequency_filtering_fft [XFin 5] (Some [XFin 0]) (Some finfinity) None "all"
    = Ok [XFin r]
    /\ r = 0
    /\ r <> 5.
Proof.
  unfold frequency_filtering_fft.
  cbn [length Nat.eqb negb bind np_min fold_left map np_diff diff_from].
  rewrite mean_of_nothing.
  change [XFin 5] with (map XFin [5]). rewrite fft_lift by discriminate.
  set (X := dftR (-1) (map (fun v => (v, 0)) [5])).
  assert (HX : exists c, X = [c]).
  { unfold X, dftR. cbn [length map seq]. eexists. reflexivity. }
  destruct HX as [c ->].
  change (String.eqb "all" "all") with true. cbn [bind].
  assert (Hfreq : map fabs (map (fun f => (f * (fone / XNaN))%num) (@fftfreq xreal exact 1))
                  = [XNaN]).
  { unfold fftfreq. cbv zeta. cbn [Z.of_nat Pos.of_succ_nat].
    change ((1 - 1) / 2 + 1)%Z with 1%Z. change (1 / 2)%Z with 0%Z.
    change (Z.to_nat 1) with 1%nat. change (Z.to_nat 0) with 0%nat.
    cbn [seq map app]. unfold fone.
    cbn [fmul fdiv fabs of_Z exact]. cbn [xdiv].
    rewrite xmul_nan_r. reflexivity. }
  rewrite Hfreq. cbn [map fltb exact xltb combine fst snd of_bool].
  change [cmul (lift c) (of_bool false)] with (map lift [Cmul c (0, 0)]).
  rewrite ifft_lift by discriminate. cbn [bind].
  unfold dftR. cbn [length seq map fst snd lift bigsum Cmul].
  eexists. split; [reflexivity|].
  assert (H0 : forall a b : R, a = b -> b = 0 -> a = 0 /\ a <> 5)
    by (intros a b -> ->; split; lra).
  eapply H0; [reflexivity|].
  cbn [nth Cmul fst snd]. change (INR 1) with 1. field.
Qed.

End ExactFilter.

(** ** The anomaly detector over exact arithmetic

    Without rounding the weights and the scale of the detector are the
    numbers that the design document names. *)

Module ExactDetector.

Import Reals Lra.
Import ExactReal Toolbox.

Open Scope R_scope.

(** The decay [exp(-|k - 3| / 4)] of weight [k]. *)
Definition decay (k : nat) : R := exp (- Rabs (INR k - 3) / 4).

Definition decay_total : R :=
  decay 0 + decay 1 + decay 2 + decay 3 + decay 4 + decay 5 + decay 6.

Lemma decay_pos (k : nat) : 0 < decay k.
Proof. apply exp_pos. Qed.

Lemma decay_total_pos : 0 < decay_total.
Proof.
  unfold decay_total.
  pose proof (decay_pos 0); pose proof (decay_pos 1); pose proof (decay_pos 2);
    pose proof (decay_pos 3); pose proof (decay_pos 4); pose proof (decay_pos 5);
    pose proof (decay_pos 6).
  lra.
Qed.

Lemma spec_decay_exact (k : nat) : @spec_decay xreal exact k = XFin (decay k).
Proof.
  unfold spec_decay, decay.
  cbn [fexp fopp fabs fsub fdiv of_Z exact].
  rewrite (@ExactFilter.xdiv_fin (IZR 6) (IZR 2)) by lra.
  cbn [xsub xabs xopp]. rewrite ExactFilter.xdiv_fin by lra.
  cbn [xexp]. rewrite <- INR_IZR_INZ.
  replace (6 / 2) with 3 by lra. reflexivity.
Qed.

(** The seven weights are the decays over their sum, and they add up to
    one. *)
Lemma spec_weight_exact (k : nat) :
  @spec_weight xreal exact k = XFin (decay k / decay_total).
Proof.
  unfold spec_weight. rewrite !spec_decay_exact.
  unfold fzero. cbn [fadd fdiv of_Z exact xadd].
  rewrite ExactFilter.xdiv_fin.
  - unfold decay_total. do 2 f_equal. lra.
  - pose proof decay_total_pos as H. unfold decay_total in H. lra.
Qed.

Lemma weights_sum_to_one :
  decay 0 / decay_total + decay 1 / decay_total + decay 2 / decay_total
  + decay 3 / decay_total + decay 4 / decay_total + decay 5 / decay_total
  + decay 6 / decay_total = 1.
Proof.
  pose proof decay_total_pos as H.
  transitivity (decay_total / decay_total).
  - unfold decay_total at 8. unfold Rdiv. ring.
  - unfold Rdiv. apply Rinv_r. lra.
Qed.

Lemma largest_after_finite (l : list R) :
  forall m,
    exists M,
      largest_after (XFin m) (map XFin l) = XFin M
      /\ (M = m \/ In M l) /\ m <= M /\ Forall (fun x => x <= M) l.
Proof.
  induction l as [|y l IH]; intros m; cbn [map largest_after].
  - exists m. split; [reflexivity|]. split; [left; reflexivity|].
    split; [lra | constructor].
  - cbn [fisnan fltb exact xisnan xltb].
    destruct (Rlt_dec m y) as [Hlt|Hge].
    + destruct (IH y) as [M [HM [Hin [Hle Hall]]]].
      exists M. split; [exact HM|]. split.
      * right. destruct Hin as [->|Hin]; [left; reflexivity | right; exact Hin].
      * split; [lra|]. constructor; assumption.
    + destruct (IH m) as [M [HM [Hin [Hle Hall]]]].
      exists M. split; [exact HM|]. split.
      * destruct Hin as [->|Hin]; [left; reflexivity | right; right; exact Hin].
      * split; [lra|]. constructor; [lra | exact Hall].
Qed.

(** The scale of finite values is the greatest of them. *)
Lemma spec_largest_finite (x : R) (l : list R) :
  exists M,
    spec_largest (map XFin (x :: l)) = XFin M
    /\ In M (x :: l) /\ Forall (fun y => y <= M) (x :: l).
Proof.
  cbn [map spec_largest]. cbn [fisnan exact xisnan].
  destruct (largest_after_finite l x) as [M [HM [Hin [Hle Hall]]]].
  exists M. split; [exact HM|]. split.
  - destruct Hin as [->|Hin]; [left; reflexivity | right; exact Hin].
  - constructor; assumption.
Qed.

End ExactDetector.

(** ** Peak search and refinement: where the peaks lie *)

Module PeakFacts.

Import Peaks.

Open Scope Z_scope.

Lemma Qle_bool_false (a b : Q) : Qle_bool a b = false -> (b < a)%Q.
Proof.
  intros H. apply Qnot_le_lt. intros Hle. apply Qle_bool_iff in Hle.
  rewrite Hle in H. discriminate H.
Qed.

(** The sample in row [k] of a series. *)
Definition row_value (s : Series) (k : nat) : value := snd (nth k s (0, NaN)).

(** With a sample [bv] in hand, [idxmax_from] keeps its label when no later
    sample is larger, and otherwise returns the label of the first of the
    largest later samples. *)
Lemma idxmax_from_some (s : Series) :
  forall bl bv,
    exists l,
      idxmax_from (Some (bl, bv)) s = Some l
      /\ ((l = bl
           /\ forall j u, (j < length s)%nat -> row_value s j = Val u ->
                (u <= bv)%Q)
          \/ exists k v,
               (k < length s)%nat /\ nth k s (0, NaN) = (l, Val v)
               /\ (bv < v)%Q
               /\ (forall j u, (j < length s)%nat -> row_value s j = Val u ->
                     (u <= v)%Q)
               /\ (forall j u, (j < k)%nat -> row_value s j = Val u -> (u < v)%Q)).
Proof.
  unfold row_value.
  induction s as [|[lab [v0|]] s IH]; intros bl bv; cbn [idxmax_from].
  - exists bl. split; [reflexivity|]. left. split; [reflexivity|].
    intros j u Hj. simpl in Hj. lia.
  - destruct (Qle_bool v0 bv) eqn:E.
    + apply Qle_bool_iff in E.
      destruct (IH bl bv) as [l [Hl Hcase]]; exists l; (split; [exact Hl|]);
        destruct Hcase as [[-> Hall] | [k [v [Hk [Hn [Hbv [Hall Hbefore]]]]]]].
      * left. split; [reflexivity|]. intros [|j] u Hj Hu.
        -- cbn in Hu. injection Hu as <-. exact E.
        -- apply (Hall j u); [simpl in Hj; lia | exact Hu].
      * right. exists (S k), v. split; [simpl; lia|]. split; [exact Hn|].
        split; [exact Hbv|]. split.
        -- intros [|j] u Hj Hu.
           ++ cbn in Hu. injection Hu as <-. apply Qlt_le_weak.
              apply (Qle_lt_trans _ bv); assumption.
           ++ apply (Hall j u); [simpl in Hj; lia | exact Hu].
        -- intros [|j] u Hj Hu.
           ++ cbn in Hu. injection Hu as <-.
              apply (Qle_lt_trans _ bv); assumption.
           ++ apply (Hbefore j u); [lia | exact Hu].
    + apply Qle_bool_false in E.
      destruct (IH lab v0) as [l [Hl Hcase]]; exists l; (split; [exact Hl|]);
        right;
        destruct Hcase as [[-> Hall] | [k [v [Hk [Hn [Hbv [Hall Hbefore]]]]]]].
      * exists 0%nat, v0. split; [simpl; lia|]. split; [reflexivity|].
        split; [exact E|]. split.
        -- intros [|j] u Hj Hu.
           ++ cbn in Hu. injection Hu as <-. apply Qle_refl.
           ++ apply (Hall j u); [simpl in Hj; lia | exact Hu].
        -- intros j u Hj. lia.
      * exists (S k), v. split; [simpl; lia|]. split; [exact Hn|].
        split; [apply (Qlt_trans _ v0); assumption|]. split.
        -- intros [|j] u Hj Hu.
           ++ cbn in Hu. injection Hu as <-. apply Qlt_le_weak. exact Hbv.
           ++ apply (Hall j u); [simpl in Hj; lia | exact Hu].
        -- intros [|j] u Hj Hu.
           ++ cbn in Hu. injection Hu as <-. exact Hbv.
           ++ apply (Hbefore j u); [lia | exact Hu].
  - destruct (IH bl bv) as [l [Hl Hcase]]; exists l; (split; [exact Hl|]);
      destruct Hcase as [[-> Hall] | [k [v [Hk [Hn [Hbv [Hall Hbefore]]]]]]].
    + left. split; [reflexivity|]. intros [|j] u Hj Hu.
      * cbn in Hu. discriminate Hu.
      * apply (Hall j u); [simpl in Hj; lia | exact Hu].
    + right. exists (S k), v. split; [simpl; lia|]. split; [exact Hn|].
      split; [exact Hbv|]. split.
      * intros [|j] u Hj Hu.
        -- cbn in Hu. discriminate Hu.
        -- apply (Hall j u); [simpl in Hj; lia | exact Hu].
      * intros [|j] u Hj Hu.
        -- cbn in Hu. discriminate Hu.
        -- apply (Hbefore j u); [lia | exact Hu].
Qed.

(** [idxmax] of a series: NaN when every sample is NaN, and otherwise the
    label at the first position of the largest defined sample. *)
Lemma idxmax_from_none (s : Series) :
  match idxmax_from None s with
  | None => forall j, (j < length s)%nat -> row_value s j = NaN
  | Some l =>
      exists k v,
        (k < length s)%nat /\ nth k s (0, NaN) = (l, Val v)
        /\ (forall j u, (j < length s)%nat -> row_value s j = Val u -> (u <= v)%Q)
        /\ (forall j u, (j < k)%nat -> row_value s j = Val u -> (u < v)%Q)
  end.
Proof.
  unfold row_value.
  induction s as [|[lab [v0|]] s IH]; cbn [idxmax_from].
  - intros j Hj. simpl in Hj. lia.
  - destruct (idxmax_from_some s lab v0)
      as [l [-> [[-> Hall] | [k [v [Hk [Hn [Hbv [Hall Hbefore]]]]]]]]].
    + exists 0%nat, v0. split; [simpl; lia|]. split; [reflexivity|]. split.
      * intros [|j] u Hj Hu.
        -- cbn in Hu. injection Hu as <-. apply Qle_refl.
        -- apply (Hall j u); [simpl in Hj; lia | exact Hu].
      * intros j u Hj. lia.
    + exists (S k), v. split; [simpl; lia|]. split; [exact Hn|]. split.
      * intros [|j] u Hj Hu.
        -- cbn in Hu. injection Hu as <-. apply Qlt_le_weak. exact Hbv.
        -- apply (Hall j u); [simpl in Hj; lia | exact Hu].
      * intros [|j] u Hj Hu.
        -- cbn in Hu. injection Hu as <-. exact Hbv.
        -- apply (Hbefore j u); [lia | exact Hu].
  - destruct (idxmax_from None s) as [l|].
    + destruct IH as [k [v [Hk [Hn [Hall Hbefore]]]]].
      exists (S k), v. split; [simpl; lia|]. split; [exact Hn|]. split.
      * intros [|j] u Hj Hu.
        -- cbn in Hu. discriminate Hu.
        -- apply (Hall j u); [simpl in Hj; lia | exact Hu].
      * intros [|j] u Hj Hu.
        -- cbn in Hu. discriminate Hu.
        -- apply (Hbefore j u); [lia | exact Hu].
    + intros [|j] Hj; [reflexivity|]. apply IH. simpl in Hj. lia.
Qed.

Lemma seq_from (m : nat) :
  forall a, seq a m = map (fun j => (a + j)%nat) (seq 0 m).
Proof.
  induction m as [|m IH]; intros a; [reflexivity|].
  cbn [seq map]. rewrite Nat.add_0_r. f_equal.
  rewrite (IH (S a)), <- seq_shift, map_map.
  apply map_ext. intros j. lia.
Qed.

(** A slice inside the record: the rows at its positions. *)
Lemma series_slice (s : Series) (a b : Z) :
  0 <= a -> a <= b -> b <= Z.of_nat (length s) ->
  py_slice s a b
  = map (fun j => nth (Z.to_nat a + j) s (0, NaN)) (seq 0 (Z.to_nat (b - a))).
Proof.
  intros Ha Hab Hb. unfold py_slice, clip_index.
  destruct (Z.ltb_spec a 0); [lia|]. destruct (Z.ltb_spec b 0); [lia|].
  rewrite !Z.min_l by lia.
  apply (Toolbox.firstn_skipn_nth (0, NaN)). lia.
Qed.

(** [q] is the first position of the largest defined sample in
    [[lo, hi)], [sample] giving the sample at a position. *)
Definition first_maximum_in (sample : Z -> value) (lo hi q : Z) : Prop :=
  lo <= q < hi
  /\ exists v,
       sample q = Val v
       /\ (forall r u, lo <= r < hi -> sample r = Val u -> (u <= v)%Q)
       /\ (forall r u, lo <= r < q -> sample r = Val u -> (u < v)%Q).

(** What a seed with the search range [[lo, hi)] is replaced by: the label
    that [label] gives the first position of the largest defined sample
    of the range, or NaN when no sample of the range is defined. *)
Definition refined (label : Z -> Z) (sample : Z -> value) (lo hi : Z)
  (p : option Z) : Prop :=
  match p with
  | Some l => exists q, first_maximum_in sample lo hi q /\ l = label q
  | None => forall r, lo <= r < hi -> sample r = NaN
  end.

Lemma refined_ext (label label' : Z -> Z) (sample sample' : Z -> value)
  (lo hi : Z) (p : option Z) :
  (forall q, lo <= q < hi -> label q = label' q /\ sample q = sample' q) ->
  refined label sample lo hi p -> refined label' sample' lo hi p.
Proof.
  intros Hsame. destruct p as [l|]; cbn [refined].
  - intros [q [[Hq [v [Hv [Hall Hbefore]]]] ->]]. exists q. split.
    + split; [exact Hq|]. exists v. split; [|split].
      * rewrite <- (proj2 (Hsame q Hq)). exact Hv.
      * intros r u Hr Hu. apply (Hall r u Hr).
        rewrite (proj2 (Hsame r Hr)). exact Hu.
      * intros r u Hr Hu. apply (Hbefore r u Hr).
        rewrite (proj2 (Hsame r ltac:(lia))). exact Hu.
    + apply (proj1 (Hsame q Hq)).
  - intros H r Hr. rewrite <- (proj2 (Hsame r Hr)). apply H, Hr.
Qed.

Lemma idxmax_slice (s : Series) (lo hi : Z) :
  0 <= lo -> lo < hi -> hi <= Z.of_nat (length s) ->
  exists p,
    idxmax (py_slice s lo hi) = Ok p
    /\ empty (py_slice s lo hi) = false
    /\ refined (label_at s) (value_at s) lo hi p.
Proof.
  intros Hlo Hlt Hhi. rewrite series_slice by lia.
  set (slice := map _ _).
  assert (Hlen : length slice = Z.to_nat (hi - lo))
    by (unfold slice; rewrite length_map, length_seq; reflexivity).
  assert (Hrow : forall j, (j < length slice)%nat ->
             nth j slice (0, NaN) = nth (Z.to_nat lo + j) s (0, NaN)).
  { intros j Hj. unfold slice.
    rewrite (nth_map_lt _ _ 0%nat) by (rewrite length_seq; lia).
    rewrite seq_nth by lia. reflexivity. }
  assert (Hval : forall j, (j < length slice)%nat ->
             row_value slice j = value_at s (lo + Z.of_nat j)).
  { intros j Hj. unfold row_value, value_at. rewrite (Hrow j Hj).
    do 2 f_equal. lia. }
  exists (idxmax_from None slice).
  assert (Hne : empty slice = false).
  { destruct slice; [simpl in Hlen; lia | reflexivity]. }
  split; [destruct slice; [discriminate Hne | reflexivity]|].
  split; [exact Hne|].
  pose proof (idxmax_from_none slice) as H.
  destruct (idxmax_from None slice) as [l|]; cbn [refined].
  - destruct H as [k [v [Hk [Hn [Hall Hbefore]]]]].
    exists (lo + Z.of_nat k). split.
    + split; [lia|]. exists v. split.
      * rewrite <- (Hval k Hk). unfold row_value. rewrite Hn. reflexivity.
      * split.
        -- intros r u Hr Hu. apply (Hall (Z.to_nat (r - lo)) u); [lia|].
           rewrite Hval by lia. rewrite <- Hu. f_equal. lia.
        -- intros r u Hr Hu. apply (Hbefore (Z.to_nat (r - lo)) u); [lia|].
           rewrite Hval by lia. rewrite <- Hu. f_equal. lia.
    + unfold label_at. rewrite Hrow in Hn by exact Hk.
      replace (Z.to_nat (lo + Z.of_nat k)) with (Z.to_nat lo + k)%nat by lia.
      rewrite Hn. reflexivity.
  - intros r Hr. rewrite <- (H (Z.to_nat (r - lo))) by lia.
    rewrite Hval by lia. f_equal. lia.
Qed.

Lemma peak_correction_loop_interior (s : Series) (window : Z) :
  1 <= window ->
  forall seeds new_peaks,
    Forall (fun seed => window <= seed
                        /\ seed + window <= Z.of_nat (length s)) seeds ->
    exists out,
      peak_correction_loop seeds s window new_peaks = Ok (new_peaks ++ out)
      /\ Forall2 (fun seed p =>
                    refined (label_at s) (value_at s)
                      (seed - window) (seed + window) p)
                 seeds out.
Proof.
  intros Hw. induction seeds as [|seed rest IH]; intros acc Hseeds.
  - exists []. rewrite app_nil_r. split; [reflexivity | constructor].
  - inversion Hseeds as [|? ? [Hlo Hhi] Hrest]; subst.
    destruct (@idxmax_slice s (seed - window) (seed + window))
      as [p [Hp [Hne Hfirst]]]; try lia.
    cbn [peak_correction_loop]. rewrite Hne, Hp.
    destruct (Z.ltb_spec seed (window - 1)); [lia|]. cbn [bind].
    destruct (IH (acc ++ [p]) Hrest) as [out [Hout Hall]].
    exists (p :: out). rewrite Hout, <- app_assoc. split; [reflexivity|].
    constructor; assumption.
Qed.

(** X1. Away from the ends of the record every seed is replaced by the
    index label at the first position of the largest defined sample
    among the [2 * window] samples at the positions [[seed - window,
    seed + window)], and by NaN when none of these samples is defined.
    For a list or an array the label is that position itself; for a
    [pd.Series] it is the label that its own index gives the position. *)
Theorem peak_correction_first_maximum (seeds : list Z) (window : Z) :
  1 <= window ->
  (forall values,
      Forall (fun seed => window <= seed
                          /\ seed + window <= Z.of_nat (length values)) seeds ->
      exists out,
        peak_correction seeds (Plain values) window = Ok out
        /\ Forall2 (fun seed p =>
                      refined (fun q => q) (sample_at values)
                        (seed - window) (seed + window) p)
                   seeds out)
  /\
  (forall series,
      Forall (fun seed => window <= seed
                          /\ seed + window <= Z.of_nat (length series)) seeds ->
      exists out,
        peak_correction seeds (Labelled series) window = Ok out
        /\ Forall2 (fun seed p =>
                      refined (label_at series) (value_at series)
                        (seed - window) (seed + window) p)
                   seeds out).
Proof.
  intros Hw. split.
  - intros values Hseeds.
    destruct (@peak_correction_loop_interior (make_series values) window Hw
                seeds []) as [out [Hout Hall]].
    { rewrite make_series_length. exact Hseeds. }
    exists out. split; [exact Hout|]. clear Hout.
    induction Hall as [|seed p rest out Hp Hall IH]; constructor.
    + inversion Hseeds as [|? ? [Hlo Hhi] _]; subst.
      refine (@refined_ext _ _ _ _ _ _ _ _ Hp).
      intros q Hq. split.
      * apply make_series_label_at. lia.
      * apply make_series_value_at. lia.
    + apply IH. inversion Hseeds; assumption.
  - intros series Hseeds.
    destruct (@peak_correction_loop_interior series window Hw seeds [] Hseeds)
      as [out [Hout Hall]].
    exists out. split; [exact Hout | exact Hall].
Qed.

Lemma peak_correction_first_maximum_example :
  (exists out,
      peak_correction [6; 12] (Plain (map Val single_peak_signal)) 6 = Ok out
      /\ Forall2 (fun seed p =>
                    refined (fun q => q) (sample_at (map Val single_peak_signal))
                      (seed - 6) (seed + 6) p)
                 [6; 12] out)
  /\
  (exists out,
      peak_correction [1; 2]
        (Labelled [(10, Val 0%Q); (11, Val 5%Q); (12, NaN)]) 1
      = Ok out
      /\ Forall2 (fun seed p =>
                    refined (label_at [(10, Val 0%Q); (11, Val 5%Q); (12, NaN)])
                      (value_at [(10, Val 0%Q); (11, Val 5%Q); (12, NaN)])
                      (seed - 1) (seed + 1) p)
                 [1; 2] out).
Proof.
  split.
  - apply (proj1 (@peak_correction_first_maximum [6; 12] 6 ltac:(lia))).
    repeat constructor; simpl; lia.
  - apply (proj2 (@peak_correction_first_maximum [1; 2] 1 ltac:(lia))).
    repeat constructor; simpl; lia.
Defined.

(** The seeds 6 and 12 around the one peak of [single_peak_signal], and the
    seeds of a series that comes with the index [10, 11, 12]. *)
Lemma peak_correction_first_maximum_values :
  peak_correction [6; 12] (finite_signal single_peak_signal) 6
  = Ok [Some 7; Some 7]
  /\ peak_correction [1; 2]
       (Labelled [(10, Val 0%Q); (11, Val 5%Q); (12, NaN)]) 1
     = Ok [Some 11; Some 11].
Proof. split; reflexivity. Qed.


(** A seed is dropped when its search range is empty: near the start of a
    record of at least [2 * window] samples, where the start of the range
    is negative and counts from the end, and beyond the end of the
    record. *)
Definition dropped (n window seed : Z) : bool :=
  ((0 <=? seed) && (seed <? window) && (2 * window <=? n))
  || ((0 <=? window) && (n + window <=? seed)).

Lemma dropped_slice_empty {A : Type} (s : list A) (window seed : Z) :
  dropped (Z.of_nat (length s)) window seed = true ->
  py_slice s (seed - window) (seed + window) = [].
Proof.
  unfold dropped, py_slice, clip_index. intros H.
  apply orb_true_iff in H. destruct H as [H|H].
  - apply andb_true_iff in H. destruct H as [H H3].
    apply andb_true_iff in H. destruct H as [H1 H2].
    apply Z.leb_le in H1, H3. apply Z.ltb_lt in H2.
    destruct (Z.ltb_spec (seed - window) 0); [|lia].
    destruct (Z.ltb_spec (seed + window) 0); [lia|].
    replace (Z.to_nat _) with 0%nat by lia. reflexivity.
  - apply andb_true_iff in H. destruct H as [H1 H2].
    apply Z.leb_le in H1, H2.
    destruct (Z.ltb_spec (seed - window) 0); [lia|].
    destruct (Z.ltb_spec (seed + window) 0); [lia|].
    replace (Z.to_nat _) with 0%nat by lia. reflexivity.
Qed.

Lemma peak_correction_loop_dropped (raw_signal : Series) (window : Z) :
  forall seeds new_peaks,
    peak_correction_loop seeds raw_signal window new_peaks
    = peak_correction_loop
        (filter (fun seed =>
                   negb (dropped (Z.of_nat (length raw_signal)) window seed)) seeds)
        raw_signal window new_peaks.
Proof.
  induction seeds as [|seed rest IH]; intros acc; [reflexivity|].
  cbn [filter].
  destruct (dropped (Z.of_nat (length raw_signal)) window seed) eqn:E; cbn [negb].
  - cbn [peak_correction_loop]. rewrite (dropped_slice_empty _ _ _ E).
    cbn [empty]. apply IH.
  - cbn [peak_correction_loop].
    destruct (empty _); [apply IH|].
    destruct (seed <? window - 1);
      (destruct (idxmax _) as [p|e]; cbn [bind]; [apply IH | reflexivity]).
Qed.

(** X2. Seeds in [[0, window)] on a record of at least [2 * window]
    samples, and seeds at or beyond [N + window], are silently ignored:
    the result is that of the remaining seeds, and it is empty when no
    seed remains. *)
Theorem peak_correction_ignores_dropped_seeds (seeds : list Z)
  (raw_signal : signal) (window : Z) :
  peak_correction seeds raw_signal window
  = peak_correction
      (filter (fun seed =>
                 negb (dropped (Z.of_nat (signal_length raw_signal)) window seed))
              seeds)
      raw_signal window
  /\ (Forall (fun seed =>
                dropped (Z.of_nat (signal_length raw_signal)) window seed = true)
             seeds ->
      peak_correction seeds raw_signal window = Ok []).
Proof.
  assert (Hlen : length (to_series raw_signal) = signal_length raw_signal).
  { destruct raw_signal as [values|series]; cbn [to_series signal_length];
      [apply make_series_length | reflexivity]. }
  assert (H : peak_correction seeds raw_signal window
              = peak_correction
                  (filter (fun seed =>
                     negb (dropped (Z.of_nat (signal_length raw_signal)) window
                             seed)) seeds)
                  raw_signal window).
  { unfold peak_correction.
    rewrite peak_correction_loop_dropped at 1. rewrite Hlen. reflexivity. }
  split; [exact H|]. intros Hall. rewrite H.
  replace (filter _ seeds) with (@nil Z); [reflexivity|].
  symmetry. clear H. induction Hall as [|seed rest Hd _ IH]; [reflexivity|].
  cbn [filter]. rewrite Hd. exact IH.
Qed.

Lemma peak_correction_ignores_dropped_seeds_example :
  peak_correction [0; 3; 5; 26; 40] (finite_signal single_peak_signal) 6 = Ok [].
Proof.
  apply (proj2 (peak_correction_ignores_dropped_seeds [0; 3; 5; 26; 40]
                  (finite_signal single_peak_signal) 6)).
  repeat constructor.
Defined.

(** *** What [get_peaks] returns *)

(** [m] is the middle of a plateau [[l, r]] of equal samples inside the
    record whose two neighbours are strictly lower. *)
Definition is_peak (x : list Q) (m : nat) : Prop :=
  exists l r : nat,
    (1 <= l)%nat /\ (l <= r)%nat /\ (r + 1 < length x)%nat
    /\ m = ((l + r) / 2)%nat
    /\ (sample x (l - 1) < sample x l)%Q
    /\ (sample x (r + 1) < sample x l)%Q
    /\ (forall j, (l <= j <= r)%nat -> (sample x j == sample x l)%Q).

Lemma plateau_end_equal (x : list Q) (i_max : nat) (xi : Q) (fuel : nat) :
  forall i_ahead r,
    plateau_end fuel x i_max xi i_ahead = Some r ->
    (i_ahead <= r)%nat
    /\ ((i_ahead <= i_max)%nat -> (r <= i_max)%nat)
    /\ (forall j, (i_ahead <= j < r)%nat -> (sample x j == xi)%Q).
Proof.
  induction fuel as [|fuel IH]; intros i_ahead r H; [discriminate|].
  cbn [plateau_end] in H.
  destruct ((i_ahead <? i_max)%nat && Qeq_bool (sample x i_ahead) xi) eqn:E.
  - apply andb_true_iff in E. destruct E as [E1 E2].
    apply Nat.ltb_lt in E1. apply Qeq_bool_iff in E2.
    destruct (IH _ _ H) as [Hlo [Hhi Heq]].
    split; [lia|]. split; [intros _; apply Hhi; lia|].
    intros j Hj. destruct (Nat.eq_dec j i_ahead) as [->|Hne]; [exact E2|].
    apply Heq. lia.
  - injection H as <-. split; [lia|]. split; [lia|]. intros j Hj. lia.
Qed.

Lemma Qlt_bool_true (a b : Q) : Qlt_bool a b = true -> (a < b)%Q.
Proof.
  unfold Qlt_bool. intros H. apply Qle_bool_false.
  destruct (Qle_bool b a); [discriminate | reflexivity].
Qed.

Lemma local_maxima_loop_peaks (x : list Q) (fuel : nat) :
  forall i midpoints out,
    local_maxima_loop fuel x (length x - 1) i midpoints = Some out ->
    (1 <= i)%nat ->
    Forall (is_peak x) midpoints ->
    Forall (is_peak x) out.
Proof.
  induction fuel as [|fuel IH]; intros i mids out H Hi Hm; [discriminate|].
  cbn [local_maxima_loop] in H.
  destruct (i <? length x - 1)%nat eqn:E.
  - apply Nat.ltb_lt in E.
    destruct (Qlt_bool (sample x (i - 1)) (sample x i)) eqn:Eup.
    + destruct (plateau_end (S (length x)) x (length x - 1) (sample x i) (S i))
        as [r|] eqn:Er; [|discriminate].
      destruct (@plateau_end_equal x _ _ _ _ _ Er) as [Hlo [Hhi Heq]].
      destruct (Qlt_bool (sample x r) (sample x i)) eqn:Edown.
      * apply (IH _ _ _ H); [lia|].
        apply Forall_app. split; [exact Hm|]. constructor; [|constructor].
        exists i, (r - 1)%nat. repeat split.
        -- exact Hi.
        -- lia.
        -- lia.
        -- apply Qlt_bool_true, Eup.
        -- replace (r - 1 + 1)%nat with r by lia. apply Qlt_bool_true, Edown.
        -- intros j Hj. destruct (Nat.eq_dec j i) as [->|Hne]; [reflexivity|].
           apply Heq. lia.
      * apply (IH _ _ _ H); [lia | exact Hm].
    + apply (IH _ _ _ H); [lia | exact Hm].
  - injection H as <-. exact Hm.
Qed.

Lemma get_peaks_locations (quantile : list Q -> Q -> result Q)
  (y : list Q) (quant : Q) (output : string) (height : Q) (o : peaks_output) :
  quantile y quant = Ok height ->
  get_peaks quantile y quant output = Some (Ok o) ->
  Forall (fun p => is_peak y p
                   /\ (1 <= p)%nat /\ (p + 1 < length y)%nat
                   /\ (height <= sample y p)%Q)
         (peak_locations o).
Proof.
  intros Hq. unfold get_peaks, find_peaks. rewrite Hq.
  destruct (local_maxima_1d y) as [peaks|] eqn:Ep; [|discriminate].
  assert (Hpeaks : Forall (is_peak y) peaks).
  { unfold local_maxima_1d in Ep.
    apply (@local_maxima_loop_peaks y _ 1%nat [] peaks Ep); [lia | constructor]. }
  assert (Hall : Forall (fun p => is_peak y p
                                  /\ (1 <= p)%nat /\ (p + 1 < length y)%nat
                                  /\ (height <= sample y p)%Q)
                        (filter (fun p => Qle_bool height (sample y p)) peaks)).
  { apply Forall_forall. intros p Hp. apply filter_In in Hp.
    destruct Hp as [Hin Hh]. rewrite Forall_forall in Hpeaks.
    pose proof (Hpeaks p Hin) as Hpk. split; [exact Hpk|].
    destruct Hpk as [l [r [Hl [Hlr [Hr [Hmid _]]]]]].
    assert (l <= p <= r)%nat.
    { subst p. split.
      - apply Nat.div_le_lower_bound; lia.
      - apply Nat.Div0.div_le_upper_bound; lia. }
    split; [lia|]. split; [lia|]. apply Qle_bool_iff, Hh. }
  destruct (String.eqb output "locs"); intros H; injection H as <-; exact Hall.
Qed.

(** X3. Whenever the quantile is found, [get_peaks] returns, and every
    location that it returns is the middle of a plateau of equal samples
    with strictly lower neighbours on both sides, is neither the first
    nor the last sample, and has a sample that reaches the quantile
    height. *)
Theorem get_peaks_are_local_maxima (quantile : list Q -> Q -> result Q)
  (y : list Q) (quant : Q) (output : string) (height : Q) :
  quantile y quant = Ok height ->
  exists o,
    get_peaks quantile y quant output = Some (Ok o)
    /\ Forall (fun p => is_peak y p
                        /\ (1 <= p)%nat /\ (p + 1 < length y)%nat
                        /\ (height <= sample y p)%Q)
              (peak_locations o).
Proof.
  intros Hq.
  assert (Hret : exists o, get_peaks quantile y quant output = Some (Ok o)).
  { unfold get_peaks. rewrite Hq.
    destruct (find_peaks_sorted y height) as [peaks [heights [Hf _]]].
    rewrite Hf. destruct (String.eqb output "locs"); eexists; reflexivity. }
  destruct Hret as [o Ho]. exists o. split; [exact Ho|].
  apply (get_peaks_locations quantile y quant output Hq Ho).
Qed.

Definition example_signal : list Q := [0; 1; 0; 2; 2; 2; 1; 3; 3; 4; 0; 5]%Q.

Lemma get_peaks_are_local_maxima_example :
  exists o,
    get_peaks (fun _ _ => Ok 2%Q) example_signal (4 # 5) "locs" = Some (Ok o)
    /\ Forall (fun p => is_peak example_signal p
                        /\ (1 <= p)%nat /\ (p + 1 < length example_signal)%nat
                        /\ (2 <= sample example_signal p)%Q)
              (peak_locations o).
Proof.
  apply (@get_peaks_are_local_maxima (fun _ _ => Ok 2%Q) example_signal (4 # 5)
           "locs" 2%Q).
  reflexivity.
Defined.

End PeakFacts.

(** ** Heartbeat segmentation: termination and the shape of the segments *)

Module SegmentFacts.

Import Segmenter.

Open Scope Z_scope.

Lemma filter_length_lt {A : Type} (f g : A -> bool) (l : list A) (x : A) :
  (forall y, In y l -> g y = true -> f y = true) ->
  In x l -> f x = true -> g x = false ->
  (length (filter g l) < length (filter f l))%nat.
Proof.
  induction l as [|y l IH]; intros Himp Hin Hf Hg; [contradiction|].
  assert (Hle : forall l' : list A,
             (forall z, In z l' -> g z = true -> f z = true) ->
             (length (filter g l') <= length (filter f l'))%nat).
  { induction l' as [|z l' IH']; intros H; [simpl; lia|].
    cbn [filter]. specialize (IH' (fun w Hw => H w (or_intror Hw))).
    destruct (g z) eqn:Eg.
    - rewrite (H z (or_introl eq_refl) Eg). simpl. lia.
    - destruct (f z); simpl; lia. }
  cbn [filter]. destruct Hin as [->|Hin].
  - rewrite Hf, Hg. specialize (Hle l (fun w Hw => Himp w (or_intror Hw))).
    simpl. lia.
  - specialize (IH (fun w Hw => Himp w (or_intror Hw)) Hin Hf Hg).
    destruct (g y) eqn:Eg.
    + rewrite (Himp y (or_introl eq_refl) Eg). simpl. lia.
    + destruct (f y); simpl; lia.
Qed.

Lemma last_In {A : Type} (d : A) (l : list A) : l <> [] -> In (last l d) l.
Proof.
  induction l as [|x l IH]; intros H; [contradiction|].
  destruct l as [|y l]; [left; reflexivity|].
  right. apply IH. discriminate.
Qed.

(** The two kinds of span that the loop cuts out of the heartbeats. *)
Definition span (heartbeats breaks : list Z) (step : nat) (last_break : Z)
  : list Z :=
  if (length breaks <=? step)%nat
  then loc_from heartbeats last_break
  else loc_between heartbeats last_break (nth step breaks 0).

Lemma span_spec (heartbeats breaks : list Z) (step : nat) (last_break x : Z) :
  In x (span heartbeats breaks step last_break) <->
  In x heartbeats /\ last_break <= x
  /\ ((step < length breaks)%nat -> x <= nth step breaks 0).
Proof.
  unfold span, loc_from, loc_between.
  destruct (Nat.leb_spec (length breaks) step); rewrite filter_In.
  - rewrite Z.leb_le. intuition lia.
  - rewrite andb_true_iff, !Z.leb_le. intuition lia.
Qed.

Lemma span_sorted (heartbeats breaks : list Z) (step : nat) (last_break : Z) :
  StronglySorted Z.lt heartbeats ->
  StronglySorted Z.lt (span heartbeats breaks step last_break).
Proof.
  intros H. unfold span, loc_from, loc_between.
  destruct (length breaks <=? step)%nat; apply StronglySorted_filter, H.
Qed.

Lemma segment_loop_unfold (fuel : nat) (heartbeats breaks : list Z)
  (step : nat) (last_break : Z) (acc : list (list Z)) :
  segment_loop (S fuel) heartbeats breaks step last_break acc
  = let segment := span heartbeats breaks step last_break in
    match segment with
    | [] => segment_loop fuel heartbeats breaks (S step) last_break acc
    | _ :: _ =>
        match filter (fun i => i >? last segment 0 + 1) heartbeats with
        | [] => Some (acc ++ [segment])%list
        | r :: _ =>
            segment_loop fuel heartbeats breaks (S step) r
              (acc ++ [segment])%list
        end
    end.
Proof. reflexivity. Qed.

(** What the next start of a span satisfies. *)
Lemma next_start (heartbeats segment : list Z) (r : Z) (rest : list Z) :
  StronglySorted Z.lt segment -> segment <> [] ->
  filter (fun i => i >? last segment 0 + 1) heartbeats = r :: rest ->
  In r heartbeats /\ Forall (fun x => x < r) segment.
Proof.
  intros Hs Hne Hf.
  assert (Hr : In r (filter (fun i => i >? last segment 0 + 1) heartbeats))
    by (rewrite Hf; left; reflexivity).
  apply filter_In in Hr. destruct Hr as [Hin Hgt].
  rewrite Z.gtb_ltb in Hgt. apply Z.ltb_lt in Hgt.
  split; [exact Hin|].
  eapply Forall_impl; [|exact (StronglySorted_le_last 0 Hs)].
  cbv beta. intros x Hx. lia.
Qed.

(** The loop ends whenever a heartbeat is left at or after its start. *)
Lemma segment_loop_terminates (heartbeats breaks : list Z) :
  StronglySorted Z.lt heartbeats ->
  forall fuel step last_break acc,
    loc_from heartbeats last_break <> [] ->
    (length breaks - step + length (loc_from heartbeats last_break) <= fuel)%nat ->
    exists segs,
      segment_loop fuel heartbeats breaks step last_break acc = Some segs.
Proof.
  intros Hs. induction fuel as [|fuel IH]; intros step lb acc Hne Hfuel.
  - destruct (loc_from heartbeats lb); [contradiction | simpl in Hfuel; lia].
  - rewrite segment_loop_unfold. cbv zeta.
    destruct (span heartbeats breaks step lb) as [|s0 rest] eqn:Espan.
    + assert (step < length breaks)%nat.
      { unfold span in Espan.
        destruct (Nat.leb_spec (length breaks) step); [contradiction | assumption]. }
      apply IH; [exact Hne | lia].
    + destruct (filter _ heartbeats) as [|r more] eqn:Er.
      * eexists. reflexivity.
      * pose proof (@span_sorted heartbeats breaks step lb Hs) as Hsorted.
        rewrite Espan in Hsorted.
        destruct (next_start heartbeats Hsorted ltac:(discriminate) Er)
          as [Hin Hlt].
        assert (Hs0 : In s0 (span heartbeats breaks step lb))
          by (rewrite Espan; left; reflexivity).
        apply span_spec in Hs0. destruct Hs0 as [Hs0in [Hs0lb _]].
        inversion Hlt as [|? ? Hs0r _]; subst.
        apply IH.
        -- intros E. assert (Hr : In r (loc_from heartbeats r)).
           { apply filter_In. split; [exact Hin | apply Z.leb_refl]. }
           rewrite E in Hr. contradiction.
        -- assert (length (loc_from heartbeats r)
                   < length (loc_from heartbeats lb))%nat.
           { unfold loc_from. apply (@filter_length_lt _ _ _ _ s0).
             - intros y _ Hy. apply Z.leb_le in Hy. apply Z.leb_le. lia.
             - exact Hs0in.
             - apply Z.leb_le. exact Hs0lb.
             - apply Z.leb_gt. exact Hs0r. }
           lia.
Qed.


Lemma StronglySorted_app (l1 l2 : list Z) :
  StronglySorted Z.lt l1 -> StronglySorted Z.lt l2 ->
  (forall x y, In x l1 -> In y l2 -> x < y) ->
  StronglySorted Z.lt (l1 ++ l2).
Proof.
  intros H1 H2 H. induction H1 as [|a l Hs IH Ha]; simpl; [exact H2|].
  constructor.
  - apply IH. intros x y Hx Hy. apply H; [right; exact Hx | exact Hy].
  - apply Forall_app. split; [exact Ha|].
    apply Forall_forall. intros y Hy. apply H; [left; reflexivity | exact Hy].
Qed.

Lemma StronglySorted_nth_lt (l : list Z) :
  StronglySorted Z.lt l ->
  forall i j, (i < j)%nat -> (j < length l)%nat -> nth i l 0 < nth j l 0.
Proof.
  induction 1 as [|a l Hs IH Ha]; intros i j Hij Hj; [simpl in Hj; lia|].
  destruct j as [|j]; [lia|]. simpl in Hj. destruct i as [|i].
  - cbn [nth]. rewrite Forall_forall in Ha. apply Ha, nth_In. lia.
  - cbn [nth]. apply IH; lia.
Qed.

Lemma StronglySorted_head_le (a : Z) (l : list Z) (x : Z) :
  StronglySorted Z.lt (a :: l) -> In x (a :: l) -> a <= x.
Proof.
  intros H [->|Hx]; [lia|]. inversion H as [|? ? _ Ha]; subst.
  rewrite Forall_forall in Ha. specialize (Ha x Hx). lia.
Qed.

(** A segment lies on one side of every break row. *)
Definition never_straddles (breaks segment : list Z) : Prop :=
  forall b, In b breaks ->
    Forall (fun x => x <= b) segment \/ Forall (fun x => b < x) segment.

Definition well_cut (heartbeats breaks : list Z) (segs : list (list Z)) : Prop :=
  Forall (fun s => s <> [] /\ incl s heartbeats /\ never_straddles breaks s) segs
  /\ StronglySorted Z.lt (concat segs).

(** What one turn of the loop establishes about the span it cuts and the
    row it restarts from. *)
Lemma span_facts (heartbeats breaks : list Z) (step : nat) (lb : Z) :
  StronglySorted Z.lt heartbeats ->
  span heartbeats breaks step lb <> [] ->
  let segment := span heartbeats breaks step lb in
  In (last segment 0) segment
  /\ Forall (fun x => lb <= x <= last segment 0) segment
  /\ forall r rest,
       filter (fun i => i >? last segment 0 + 1) heartbeats = r :: rest ->
       In r heartbeats /\ last segment 0 + 1 < r /\ lb <= r
       /\ (step < length breaks)%nat /\ nth step breaks 0 < r
       /\ forall x, In x heartbeats -> last segment 0 + 1 < x -> r <= x.
Proof.
  intros Hs Hne segment.
  pose proof (@span_sorted heartbeats breaks step lb Hs) as Hsorted.
  fold segment in Hsorted.
  assert (Hlast : In (last segment 0) segment) by (apply last_In; exact Hne).
  assert (Hbounds : Forall (fun x => lb <= x <= last segment 0) segment).
  { apply Forall_forall. intros x Hx.
    pose proof (StronglySorted_le_last 0 Hsorted) as Hle.
    rewrite Forall_forall in Hle. specialize (Hle x Hx).
    apply span_spec in Hx. lia. }
  split; [exact Hlast|]. split; [exact Hbounds|].
  intros r rest Er.
  assert (Hsortedrem :
            StronglySorted Z.lt
              (filter (fun i => i >? last segment 0 + 1) heartbeats))
    by (apply StronglySorted_filter, Hs).
  assert (Hr : In r (filter (fun i => i >? last segment 0 + 1) heartbeats))
    by (rewrite Er; left; reflexivity).
  apply filter_In in Hr. destruct Hr as [Hin Hgt].
  rewrite Z.gtb_ltb in Hgt. apply Z.ltb_lt in Hgt.
  rewrite Forall_forall in Hbounds. specialize (Hbounds _ Hlast).
  assert (Hnot : In r segment -> False).
  { intros Hr.
    pose proof (StronglySorted_le_last 0 Hsorted) as Hle.
    rewrite Forall_forall in Hle. specialize (Hle r Hr). lia. }
  assert (Hstep : (step < length breaks)%nat /\ nth step breaks 0 < r).
  { destruct (Nat.lt_ge_cases step (length breaks)) as [Hlt|Hge].
    - split; [exact Hlt|].
      destruct (Z.lt_ge_cases (nth step breaks 0) r) as [H|H]; [exact H|].
      exfalso. apply Hnot. apply span_spec. repeat split; [exact Hin|lia|].
      intros _. exact H.
    - exfalso. apply Hnot. apply span_spec. repeat split; [exact Hin|lia|].
      intros H. lia. }
  repeat split; try (exact Hin || lia || apply Hstep).
  intros x Hx Hxgt. rewrite Er in Hsortedrem.
  apply (StronglySorted_head_le Hsortedrem). rewrite <- Er.
  apply filter_In. split; [exact Hx|]. rewrite Z.gtb_ltb. apply Z.ltb_lt. exact Hxgt.
Qed.

Lemma span_never_straddles (heartbeats breaks : list Z) (step : nat) (lb : Z) :
  StronglySorted Z.lt breaks ->
  (forall j h, (j < step)%nat -> (j < length breaks)%nat ->
               In h heartbeats -> lb <= h -> nth j breaks 0 < h) ->
  never_straddles breaks (span heartbeats breaks step lb).
Proof.
  intros Hb Hpast b Hin.
  destruct (In_nth _ _ 0 Hin) as [j [Hj <-]].
  destruct (Nat.lt_ge_cases j step) as [Hlt|Hge].
  - right. apply Forall_forall. intros x Hx. apply span_spec in Hx.
    apply Hpast; [exact Hlt | exact Hj | apply Hx | apply Hx].
  - left. apply Forall_forall. intros x Hx. apply span_spec in Hx.
    destruct Hx as [_ [_ Hx]]. specialize (Hx ltac:(lia)).
    destruct (Nat.eq_dec j step) as [->|Hneq]; [exact Hx|].
    pose proof (@StronglySorted_nth_lt breaks Hb step j ltac:(lia) Hj). lia.
Qed.

Lemma segment_loop_well_cut (heartbeats breaks : list Z) :
  StronglySorted Z.lt heartbeats ->
  StronglySorted Z.lt breaks ->
  forall fuel step lb acc segs,
    well_cut heartbeats breaks acc ->
    Forall (fun x => x < lb) (concat acc) ->
    (forall j h, (j < step)%nat -> (j < length breaks)%nat ->
                 In h heartbeats -> lb <= h -> nth j breaks 0 < h) ->
    segment_loop fuel heartbeats breaks step lb acc = Some segs ->
    well_cut heartbeats breaks segs.
Proof.
  intros Hs Hb. induction fuel as [|fuel IH];
    intros step lb acc segs Hacc Hlow Hpast H; [discriminate H|].
  rewrite segment_loop_unfold in H. cbv zeta in H.
  destruct (span heartbeats breaks step lb) as [|s0 rest] eqn:Espan.
  - apply (IH (S step) lb acc segs Hacc Hlow); [|exact H].
    intros j h Hj Hjlen Hh Hlb.
    destruct (Nat.eq_dec j step) as [->|Hneq]; [|apply Hpast; try assumption; lia].
    destruct (Z.lt_ge_cases (nth step breaks 0) h) as [Hlt|Hge]; [exact Hlt|].
    assert (Hin : In h (span heartbeats breaks step lb))
      by (apply span_spec; repeat split; try assumption; intros _; lia).
    rewrite Espan in Hin. contradiction.
  - assert (Hne : span heartbeats breaks step lb <> [])
      by (rewrite Espan; discriminate).
    destruct (@span_facts heartbeats breaks step lb Hs Hne) as [Hlast [Hbounds Hnext]].
    pose proof (@span_never_straddles heartbeats breaks step lb Hb Hpast) as Hside.
    pose proof (@span_sorted heartbeats breaks step lb Hs) as Hsorted.
    rewrite Espan in Hlast, Hbounds, Hnext, Hside, Hsorted.
    assert (Hacc' : well_cut heartbeats breaks (acc ++ [s0 :: rest])).
    { destruct Hacc as [Ha1 Ha2]. split.
      - apply Forall_app. split; [exact Ha1|]. constructor; [|constructor].
        split; [discriminate|]. split; [|exact Hside].
        intros x Hx. rewrite <- Espan in Hx. apply span_spec in Hx. apply Hx.
      - rewrite concat_app. cbn [concat]. rewrite app_nil_r.
        apply StronglySorted_app; [exact Ha2 | exact Hsorted |].
        intros x y Hx Hy. rewrite Forall_forall in Hlow, Hbounds.
        specialize (Hlow x Hx). specialize (Hbounds y Hy). lia. }
    destruct (filter _ heartbeats) as [|r more] eqn:Er.
    + injection H as <-. exact Hacc'.
    + destruct (Hnext r more eq_refl) as [Hrin [Hrgt [Hrlb [Hstep [Hrb Hfirst]]]]].
      apply (IH (S step) r _ segs Hacc'); [| |exact H].
      * rewrite concat_app. cbn [concat]. rewrite app_nil_r.
        apply Forall_app. split.
        -- eapply Forall_impl; [|exact Hlow]. cbv beta. intros x Hx. lia.
        -- eapply Forall_impl; [|exact Hbounds]. cbv beta. intros x Hx. lia.
      * intros j h Hj Hjlen Hh Hlb.
        destruct (Nat.eq_dec j step) as [->|Hneq]; [lia|].
        apply Hpast; try assumption; lia.
Qed.

(** When no row is both a heartbeat and a break, nothing is lost: the
    segments, put end to end, are the heartbeats from the start row on. *)
Lemma filter_split_sorted (f g h : Z -> bool) (l : list Z) :
  StronglySorted Z.lt l ->
  (forall x, In x l -> f x = g x || h x) ->
  (forall x y, In x l -> In y l -> g x = true -> h y = true -> x < y) ->
  filter f l = (filter g l ++ filter h l)%list.
Proof.
  induction 1 as [|a l Hs IH Ha]; intros Hf Hgh; [reflexivity|].
  assert (IH' : filter f l = (filter g l ++ filter h l)%list).
  { apply IH.
    - intros x Hx. apply Hf. right. exact Hx.
    - intros x y Hx Hy. apply Hgh; right; assumption. }
  cbn [filter]. rewrite (Hf a (or_introl eq_refl)).
  destruct (g a) eqn:Eg; destruct (h a) eqn:Eh; cbn [orb].
  - pose proof (Hgh a a (or_introl eq_refl) (or_introl eq_refl) Eg Eh). lia.
  - rewrite IH'. reflexivity.
  - assert (Hnone : filter g l = []).
    { apply filter_none. apply Forall_forall. intros x Hx.
      destruct (g x) eqn:Egx; [|reflexivity].
      pose proof (Hgh x a (or_intror Hx) (or_introl eq_refl) Egx Eh).
      rewrite Forall_forall in Ha. specialize (Ha x Hx). lia. }
    rewrite IH', Hnone. reflexivity.
  - exact IH'.
Qed.

Lemma segment_loop_partition (heartbeats breaks : list Z) :
  StronglySorted Z.lt heartbeats ->
  (forall x, In x heartbeats -> In x breaks -> False) ->
  forall fuel step lb acc segs,
    segment_loop fuel heartbeats breaks step lb acc = Some segs ->
    concat segs = (concat acc ++ loc_from heartbeats lb)%list.
Proof.
  intros Hs Hdisj. induction fuel as [|fuel IH];
    intros step lb acc segs H; [discriminate H|].
  rewrite segment_loop_unfold in H. cbv zeta in H.
  destruct (span heartbeats breaks step lb) as [|s0 rest] eqn:Espan.
  - apply (IH (S step)), H.
  - assert (Hne : span heartbeats breaks step lb <> [])
      by (rewrite Espan; discriminate).
    destruct (@span_facts heartbeats breaks step lb Hs Hne) as [Hlast [Hbounds Hnext]].
    rewrite Espan in Hlast, Hbounds, Hnext.
    rewrite Forall_forall in Hbounds.
    assert (Hlasthb : In (last (s0 :: rest) 0) heartbeats
                      /\ ((step < length breaks)%nat ->
                          last (s0 :: rest) 0 <= nth step breaks 0)).
    { rewrite <- Espan in Hlast. apply span_spec in Hlast.
      rewrite Espan in Hlast. split; apply Hlast. }
    destruct Hlasthb as [Hlasthb Hlastb].
    (* a heartbeat right after the break would need a row with both labels *)
    assert (Hgap : forall x, In x heartbeats -> lb <= x ->
                     (step < length breaks)%nat -> nth step breaks 0 < x ->
                     last (s0 :: rest) 0 + 1 < x).
    { intros x Hx Hlb Hstep Hgt. specialize (Hlastb Hstep).
      destruct (Z.eq_dec x (last (s0 :: rest) 0 + 1)) as [E|E]; [|lia].
      exfalso. apply (Hdisj (last (s0 :: rest) 0) Hlasthb).
      replace (last (s0 :: rest) 0) with (nth step breaks 0) by lia.
      apply nth_In, Hstep. }
    destruct (filter _ heartbeats) as [|r more] eqn:Er.
    + injection H as <-.
      rewrite concat_app. cbn [concat]. rewrite app_nil_r. f_equal.
      rewrite <- Espan. unfold span.
      destruct (Nat.leb_spec (length breaks) step) as [Hge|Hlt]; [reflexivity|].
      unfold loc_between, loc_from. apply filter_ext_in. intros x Hx.
      destruct (Z.leb_spec lb x) as [Hlb|Hlb]; [|reflexivity].
      cbn [andb]. apply Z.leb_le.
      destruct (Z.le_gt_cases x (nth step breaks 0)) as [Hle|Hgt]; [exact Hle|].
      exfalso. specialize (Hgap x Hx Hlb Hlt Hgt).
      assert (Hin : In x (filter (fun i => i >? last (s0 :: rest) 0 + 1) heartbeats)).
      { apply filter_In. split; [exact Hx|]. rewrite Z.gtb_ltb.
        apply Z.ltb_lt. exact Hgap. }
      rewrite Er in Hin. contradiction.
    + destruct (Hnext r more eq_refl) as [Hrin [Hrgt [Hrlb [Hstep [Hrb Hfirst]]]]].
      rewrite (IH _ _ _ _ H). rewrite concat_app. cbn [concat].
      rewrite app_nil_r, <- app_assoc. f_equal.
      rewrite <- Espan. unfold span.
      destruct (Nat.leb_spec (length breaks) step) as [Hge|_]; [lia|].
      unfold loc_between, loc_from. symmetry. apply filter_split_sorted.
      * exact Hs.
      * intros x Hx.
        destruct (Z.leb_spec lb x) as [Hlb|Hlb]; cbn [andb orb].
        -- destruct (Z.leb_spec x (nth step breaks 0)) as [Hle|Hgt];
             [reflexivity|]. cbn [orb]. symmetry. apply Z.leb_le.
           apply Hfirst; [exact Hx|]. apply Hgap; assumption.
        -- symmetry. apply Z.leb_gt. lia.
      * intros x y _ _ Hx Hy. apply andb_true_iff in Hx.
        destruct Hx as [_ Hx]. apply Z.leb_le in Hx, Hy. lia.
Qed.


Lemma loc_from_all (rows : list Z) :
  Forall (fun i => 0 <= i) rows -> loc_from rows 0 = rows.
Proof.
  intros H. unfold loc_from. apply filter_all.
  eapply Forall_impl; [|exact H]. intros i Hi. apply Z.leb_le, Hi.
Qed.

Section HeartbeatFacts.

Variable DEFAULT_HEARTBEAT_CLASSES : list string.
Variable SEGMENT_DENOMINATORS : list string.

Local Abbreviation get_heartbeats :=
  (get_heartbeats DEFAULT_HEARTBEAT_CLASSES SEGMENT_DENOMINATORS).
Local Abbreviation present_labels := (present_labels DEFAULT_HEARTBEAT_CLASSES).
Local Abbreviation included_markers := (included_markers SEGMENT_DENOMINATORS).

(** What [get_heartbeats] computes once the table, the heartbeat rows and
    the break rows are known and a marker label is declared. *)
Lemma get_heartbeats_loop (self : DataHandler) (df : DataFrame)
  (heartbeats breaks : list Z) (fuel : nat) :
  plot_data self = Some df ->
  label_list self <> [] ->
  get_label_data df (present_labels self) = Ok heartbeats ->
  included_markers self <> [] ->
  get_label_data df (included_markers self) = Ok breaks ->
  get_heartbeats fuel self
  = match segment_loop fuel heartbeats breaks 0 0 [] with
    | Some segs => Some (Ok segs)
    | None => None
    end.
Proof.
  intros Hdf Hl Hhb Hm Hbr. unfold Segmenter.get_heartbeats.
  rewrite Hdf. destruct (label_list self) as [|l0 ls]; [contradiction|].
  rewrite Hhb.
  destruct (Segmenter.included_markers SEGMENT_DENOMINATORS self) as [|m0 ms];
    [contradiction|].
  rewrite Hbr. reflexivity.
Qed.

(** [get_heartbeats] returns as soon as one row is a heartbeat: the loop
    needs at most one turn per break row and one per heartbeat row. *)
Lemma get_heartbeats_total (self : DataHandler) (df : DataFrame)
  (heartbeats breaks : list Z) :
  plot_data self = Some df ->
  get_label_data df (present_labels self) = Ok heartbeats ->
  get_label_data df (included_markers self) = Ok breaks ->
  heartbeats <> [] ->
  forall fuel, (length breaks + length heartbeats <= fuel)%nat ->
    exists segs, get_heartbeats fuel self = Some (Ok segs).
Proof.
  intros Hdf Hhb Hbr Hne fuel Hfuel.
  destruct (label_list self) as [|l0 ls] eqn:El.
  { exists []. unfold Segmenter.get_heartbeats. rewrite Hdf, El. reflexivity. }
  destruct (included_markers self) as [|m0 ms] eqn:Em.
  { exists [heartbeats]. unfold Segmenter.get_heartbeats.
    rewrite Hdf, El, Hhb, Em. reflexivity. }
  rewrite (@get_heartbeats_loop self df heartbeats breaks fuel); try assumption;
    try (rewrite El; discriminate); try (rewrite Em; discriminate);
    try (rewrite Em; exact Hbr).
  destruct (get_label_data_sorted _ _ Hhb) as [Hs Hpos].
  destruct (@segment_loop_terminates heartbeats breaks Hs fuel 0%nat 0 [])
    as [segs Hsegs].
  - rewrite loc_from_all by exact Hpos. exact Hne.
  - rewrite loc_from_all by exact Hpos. lia.
  - exists segs. rewrite Hsegs. reflexivity.
Qed.

Lemma get_heartbeats_cut (self : DataHandler) (df : DataFrame)
  (heartbeats breaks : list Z) (fuel : nat) (segs : list (list Z)) :
  plot_data self = Some df ->
  get_label_data df (present_labels self) = Ok heartbeats ->
  included_markers self <> [] ->
  get_label_data df (included_markers self) = Ok breaks ->
  get_heartbeats fuel self = Some (Ok segs) ->
  well_cut heartbeats breaks segs.
Proof.
  intros Hdf Hhb Hm Hbr H.
  destruct (label_list self) as [|l0 ls] eqn:El.
  { unfold Segmenter.get_heartbeats in H. rewrite Hdf, El in H.
    injection H as <-. split; constructor. }
  rewrite (@get_heartbeats_loop self df heartbeats breaks fuel) in H;
    try assumption; try (rewrite El; discriminate).
  destruct (segment_loop fuel heartbeats breaks 0 0 []) as [segs'|] eqn:E;
    [|discriminate H].
  injection H as <-.
  destruct (get_label_data_sorted _ _ Hhb) as [Hs _].
  destruct (get_label_data_sorted _ _ Hbr) as [Hb _].
  apply (@segment_loop_well_cut heartbeats breaks Hs Hb fuel 0%nat 0 [] segs').
  - split; constructor.
  - constructor.
  - intros j h Hj. lia.
  - exact E.
Qed.

Lemma get_heartbeats_concat (self : DataHandler) (df : DataFrame)
  (heartbeats breaks : list Z) (fuel : nat) (segs : list (list Z)) :
  plot_data self = Some df ->
  label_list self <> [] ->
  get_label_data df (present_labels self) = Ok heartbeats ->
  get_label_data df (included_markers self) = Ok breaks ->
  (forall x, In x heartbeats -> In x breaks -> False) ->
  get_heartbeats fuel self = Some (Ok segs) ->
  concat segs = heartbeats.
Proof.
  intros Hdf Hl Hhb Hbr Hdisj H.
  destruct (included_markers self) as [|m0 ms] eqn:Em.
  { unfold Segmenter.get_heartbeats in H. rewrite Hdf in H.
    destruct (label_list self) as [|l0 ls]; [contradiction|].
    rewrite Hhb, Em in H. injection H as <-. cbn [concat]. apply app_nil_r. }
  rewrite (@get_heartbeats_loop self df heartbeats breaks fuel) in H;
    try assumption; try (rewrite Em; discriminate);
    try (rewrite Em; exact Hbr).
  destruct (segment_loop fuel heartbeats breaks 0 0 []) as [segs'|] eqn:E;
    [|discriminate H].
  injection H as <-.
  destruct (get_label_data_sorted _ _ Hhb) as [Hs Hpos].
  rewrite (@segment_loop_partition heartbeats breaks Hs Hdisj fuel 0%nat 0 [] segs' E).
  cbn [concat app]. apply loc_from_all, Hpos.
Qed.

(** X4. With a marker label declared and at least one heartbeat row,
    [get_heartbeats] returns after at most one turn of its loop per
    break row and per heartbeat row. Every segment is non-empty,
    consists of heartbeat rows and lies on one side of every break row,
    and the segments follow one another in strictly increasing row
    order. *)
Theorem get_heartbeats_well_cut (self : DataHandler) (df : DataFrame)
  (heartbeats breaks : list Z) (fuel : nat) :
  plot_data self = Some df ->
  get_label_data df (present_labels self) = Ok heartbeats ->
  included_markers self <> [] ->
  get_label_data df (included_markers self) = Ok breaks ->
  heartbeats <> [] ->
  (length breaks + length heartbeats <= fuel)%nat ->
  exists segs,
    get_heartbeats fuel self = Some (Ok segs)
    /\ well_cut heartbeats breaks segs.
Proof.
  intros Hdf Hhb Hm Hbr Hne Hfuel.
  destruct (@get_heartbeats_total self df heartbeats breaks Hdf Hhb Hbr Hne
              fuel Hfuel) as [segs Hsegs].
  exists segs. split; [exact Hsegs|].
  exact (@get_heartbeats_cut self df heartbeats breaks fuel segs
           Hdf Hhb Hm Hbr Hsegs).
Qed.

(** X5. When no row carries both a heartbeat label and a break label and
    at least one row is a heartbeat, [get_heartbeats] returns and no
    heartbeat is lost: the segments put end to end are the heartbeat
    rows. *)
Theorem get_heartbeats_keeps_every_beat (self : DataHandler) (df : DataFrame)
  (heartbeats breaks : list Z) (fuel : nat) :
  plot_data self = Some df ->
  label_list self <> [] ->
  get_label_data df (present_labels self) = Ok heartbeats ->
  get_label_data df (included_markers self) = Ok breaks ->
  (forall x, In x heartbeats -> In x breaks -> False) ->
  heartbeats <> [] ->
  (length breaks + length heartbeats <= fuel)%nat ->
  exists segs,
    get_heartbeats fuel self = Some (Ok segs)
    /\ concat segs = heartbeats.
Proof.
  intros Hdf Hl Hhb Hbr Hdisj Hne Hfuel.
  destruct (@get_heartbeats_total self df heartbeats breaks Hdf Hhb Hbr Hne
              fuel Hfuel) as [segs Hsegs].
  exists segs. split; [exact Hsegs|].
  exact (@get_heartbeats_concat self df heartbeats breaks fuel segs
           Hdf Hl Hhb Hbr Hdisj Hsegs).
Qed.

End HeartbeatFacts.

Lemma get_heartbeats_well_cut_example :
  exists segs,
    Segmenter.get_heartbeats ["N"%string] ["~"%string] 7 example_handler
    = Some (Ok segs)
    /\ well_cut [1; 2; 3; 10; 11; 12] [5] segs.
Proof.
  apply (@get_heartbeats_well_cut ["N"%string] ["~"%string] example_handler
           example_frame [1; 2; 3; 10; 11; 12] [5] 7);
    [reflexivity | reflexivity | discriminate | reflexivity | discriminate
    | simpl; lia].
Defined.

Lemma get_heartbeats_keeps_every_beat_example :
  exists segs,
    Segmenter.get_heartbeats ["N"%string] ["~"%string] 7 example_handler
    = Some (Ok segs)
    /\ concat segs = [1; 2; 3; 10; 11; 12].
Proof.
  apply (@get_heartbeats_keeps_every_beat ["N"%string] ["~"%string]
           example_handler example_frame [1; 2; 3; 10; 11; 12] [5] 7);
    [reflexivity | discriminate | reflexivity | reflexivity | | discriminate
    | simpl; lia].
  intros x Hx [<-|[]]. simpl in Hx. intuition discriminate.
Defined.

End SegmentFacts.

(** ** Declaring and toggling labels: [DataHandler.declare_label],
    [toggle_selected_label], [set_selected_label], [get_label_list] *)

Module Labels.

Import Segmenter.

Open Scope string_scope.
Open Scope Z_scope.

(** The fields of [DataHandler] that the label methods read and write. *)
Record Handler : Type := {
  plot_data : option DataFrame;
  label_list : list string;
  selected_label : string;
  in_app : bool
}.

(** Besides the exceptions that the methods raise themselves, a handler
    without a table fails in [self.plot_data.columns]. *)
Inductive raised : Type :=
| Exn (e : exn)
| AttributeError (msg : string).

(** A method call either returns a value and leaves the handler in a new
    state, or raises. *)
Inductive outcome (A : Type) : Type :=
| Returns (a : A) (self : Handler)
| Raises (e : raised).

Arguments Returns {A} a self.
Arguments Raises {A} e.

Definition no_columns : raised :=
  AttributeError "'NoneType' object has no attribute 'columns'".

(** [self.plot_data[name] = None]: a new last column of [None]. *)
Definition add_column (df : DataFrame) (name : string) : DataFrame :=
  {| nrows := nrows df;
     columns := (columns df ++ [(name, repeat CNone (nrows df))])%list |}.

Fixpoint set_nth {A : Type} (l : list A) (i : nat) (v : A) : list A :=
  match l, i with
  | [], _ => []
  | _ :: t, O => v :: t
  | h :: t, S i' => h :: set_nth t i' v
  end.

(** [self.plot_data.loc[row, name] = v] for a row of the index and an
    existing column. *)
Fixpoint set_in_columns (cols : list (string * list cell)) (name : string)
  (row : nat) (v : cell) : list (string * list cell) :=
  match cols with
  | [] => []
  | c :: rest =>
      if String.eqb (fst c) name
      then (fst c, set_nth (snd c) row v) :: rest
      else c :: set_in_columns rest name row v
  end.

Definition set_cell (df : DataFrame) (name : string) (row : nat) (v : cell)
  : DataFrame :=
  {| nrows := nrows df; columns := set_in_columns (columns df) name row v |}.

Definition with_frame (self : Handler) (df : DataFrame) : Handler :=
  {| plot_data := Some df;
     label_list := label_list self;
     selected_label := selected_label self;
     in_app := in_app self |}.

Definition declare_label (label_name : string) (self : Handler) : outcome unit :=
  if String.eqb label_name "" then Returns tt self
  else
    match plot_data self with
    | None => Raises no_columns
    | Some df =>
        if has_column df ("Label: " ++ label_name)
        then Raises (Exn (ValueError
                            ("The label " ++ label_name ++ " already exists")))
        else
          Returns tt
            {| plot_data := Some (add_column df ("Label: " ++ label_name));
               label_list := (label_list self ++ [label_name])%list;
               selected_label := label_name;
               in_app := in_app self |}
    end.

(** [str(index)] of a Python integer. *)
Definition str (i : Z) : string :=
  DecimalString.NilZero.string_of_int (Z.to_int i).

(** [if label is None: label = self.selected_label] *)
Definition label_or_selected (label : option string) (self : Handler) : string :=
  match label with
  | None => selected_label self
  | Some l => l
  end.

Definition toggle_selected_label (index : Z) (label : option string)
  (self : Handler) : outcome bool :=
  let label := label_or_selected label self in
  match plot_data self with
  | None => Raises no_columns
  | Some df =>
      let name := "Label: " ++ label in
      if negb (has_column df name)
      then Raises (Exn (KeyError "Declare a label before selecting"))
      else if negb ((0 <=? index) && (index <? Z.of_nat (nrows df)))
      then Raises (Exn (KeyError (str index)))
      else if cell_eq_1 (cell_at df name (Z.to_nat index))
      then Returns true
             (with_frame self (set_cell df name (Z.to_nat index) CNone))
      else Returns false
             (with_frame self (set_cell df name (Z.to_nat index) (CNum 1)))
  end.

Definition set_selected_label (label_name : string) (self : Handler)
  : outcome unit :=
  match plot_data self with
  | None => Returns tt self
  | Some _ =>
      let select (s : Handler) :=
        Returns tt {| plot_data := plot_data s;
                      label_list := label_list s;
                      selected_label := label_name;
                      in_app := in_app s |} in
      if negb (existsb (String.eqb label_name) (label_list self))
      then match declare_label label_name self with
           | Returns _ self' => select self'
           | Raises e => Raises e
           end
      else select self
  end.

(** [label.removeprefix('Label: ')] *)
Definition removeprefix (p s : string) : string :=
  if String.prefix p s
  then String.substring (String.length p) (String.length s - String.length p) s
  else s.

Definition get_label_list (self : Handler) : outcome unit :=
  match plot_data self with
  | None => Raises no_columns
  | Some df =>
      let labels :=
        map (removeprefix "Label: ")
            (filter (py_in "Label: ") (map fst (columns df))) in
      Returns tt
        {| plot_data := plot_data self;
           label_list := labels;
           selected_label :=
             match labels with
             | first :: _ => if in_app self then first else selected_label self
             | [] => selected_label self
             end;
           in_app := in_app self |}
  end.

(** The part of the handler that [get_heartbeats] reads. *)
Definition segmenter_view (self : Handler) : DataHandler :=
  {| Segmenter.plot_data := plot_data self;
     Segmenter.label_list := label_list self |}.

(** Every column has one cell per row. *)
Definition well_formed (df : DataFrame) : Prop :=
  Forall (fun c => length (snd c) = nrows df) (columns df).

(** The declared labels are the labels that have a column. *)
Definition in_sync (self : Handler) (df : DataFrame) : Prop :=
  forall l, In l (label_list self) <-> has_column df ("Label: " ++ l) = true.

(** A recording of six rows with one label column. *)
Definition example_labelled : Handler :=
  {| plot_data :=
       Some {| nrows := 6;
               columns := [("Label: N", marks [1; 4]%nat 6)] |};
     label_list := ["N"];
     selected_label := "N";
     in_app := true |}.

(** *** Facts *)

Lemma nth_set_nth {A : Type} (l : list A) (i j : nat) (v d : A) :
  nth j (set_nth l i v) d
  = if (j =? i)%nat && (i <? length l)%nat then v else nth j l d.
Proof.
  revert i j. induction l as [|h t IH]; intros i j.
  - destruct i; simpl; rewrite andb_false_r; reflexivity.
  - destruct i as [|i]; destruct j as [|j]; simpl; try reflexivity.
    rewrite IH. reflexivity.
Qed.

Lemma length_set_nth {A : Type} (l : list A) (i : nat) (v : A) :
  length (set_nth l i v) = length l.
Proof.
  revert i. induction l as [|h t IH]; intros [|i]; simpl; try reflexivity.
  rewrite IH. reflexivity.
Qed.

Lemma prefix_app (p s : string) : String.prefix p (p ++ s) = true.
Proof.
  induction p as [|a p IH]; simpl.
  - destruct s; reflexivity.
  - destruct (Ascii.ascii_dec a a) as [_|H]; [exact IH | contradiction].
Qed.

Lemma py_in_label_column (l : string) : py_in "Label: " ("Label: " ++ l) = true.
Proof.
  change ("Label: " ++ l) with (String "L" ("abel: " ++ l)).
  cbn [py_in]. change (String "L" ("abel: " ++ l)) with ("Label: " ++ l).
  rewrite prefix_app. reflexivity.
Qed.

Lemma normalise_label_column (l : string) :
  normalise_label ("Label: " ++ l) = "Label: " ++ l.
Proof. unfold normalise_label. rewrite py_in_label_column. reflexivity. Qed.

(** [get_label_data] reads the frame only through the presence of columns
    and through which cells equal 1. *)
Lemma get_label_data_ext (df df' : DataFrame) (label : list string) :
  nrows df = nrows df' ->
  (forall n, In n (map normalise_label label) ->
             has_column df n = has_column df' n) ->
  (forall n r, In n (map normalise_label label) -> (r < nrows df)%nat ->
               cell_eq_1 (cell_at df n r) = cell_eq_1 (cell_at df' n r)) ->
  get_label_data df label = get_label_data df' label.
Proof.
  intros Hn Hc Hcell. unfold get_label_data.
  assert (Hfind : forall ls, incl ls (map normalise_label label) ->
             find (fun l => negb (has_column df l)) ls
             = find (fun l => negb (has_column df' l)) ls).
  { induction ls as [|l ls IH]; intros Hincl; [reflexivity|].
    cbn [find]. rewrite Hc by (apply Hincl; left; reflexivity).
    rewrite IH; [reflexivity|]. intros x Hx. apply Hincl. right. exact Hx. }
  rewrite Hfind by apply incl_refl.
  destruct (find _ _); [reflexivity|]. rewrite <- Hn. do 2 f_equal.
  apply filter_ext_in. intros r Hr. apply in_seq in Hr.
  assert (Hex : forall ls, incl ls (map normalise_label label) ->
             existsb (fun l => cell_eq_1 (cell_at df l r)) ls
             = existsb (fun l => cell_eq_1 (cell_at df' l r)) ls).
  { induction ls as [|l ls IH]; intros Hincl; [reflexivity|].
    cbn [existsb]. rewrite Hcell by (try (apply Hincl; left; reflexivity); lia).
    rewrite IH; [reflexivity|]. intros x Hx. apply Hincl. right. exact Hx. }
  apply Hex, incl_refl.
Qed.

Lemma get_column_set_cell (df : DataFrame) (name n : string) (row : nat) (v : cell) :
  get_column (set_cell df name row v) n
  = if String.eqb n name
    then option_map (fun col => set_nth col row v) (get_column df n)
    else get_column df n.
Proof.
  unfold get_column, set_cell. cbn [columns].
  induction (columns df) as [|c rest IH]; cbn [set_in_columns find].
  - destruct (String.eqb n name); reflexivity.
  - destruct (String.eqb (fst c) name) eqn:Ec.
    + apply String.eqb_eq in Ec. cbn [find fst snd]. rewrite Ec.
      rewrite (String.eqb_sym name n).
      destruct (String.eqb n name) eqn:En; reflexivity.
    + cbn [find]. destruct (String.eqb (fst c) n) eqn:Ecn.
      * apply String.eqb_eq in Ecn. rewrite <- Ecn, Ec. reflexivity.
      * exact IH.
Qed.

Lemma has_column_set_cell (df : DataFrame) (name n : string) (row : nat) (v : cell) :
  has_column (set_cell df name row v) n = has_column df n.
Proof.
  unfold has_column. rewrite get_column_set_cell.
  destruct (String.eqb n name); [|reflexivity].
  destruct (get_column df n); reflexivity.
Qed.

Lemma get_column_length (df : DataFrame) (n : string) (col : list cell) :
  well_formed df -> get_column df n = Some col -> length col = nrows df.
Proof.
  unfold well_formed, get_column. intros Hwf H.
  destruct (find _ _) as [c|] eqn:E; [|discriminate].
  injection H as <-. apply find_some in E. rewrite Forall_forall in Hwf.
  apply Hwf, E.
Qed.

Lemma cell_at_set_cell (df : DataFrame) (name n : string) (row r : nat) (v : cell) :
  well_formed df -> has_column df name = true -> (row < nrows df)%nat ->
  cell_at (set_cell df name row v) n r
  = if String.eqb n name && (r =? row)%nat then v else cell_at df n r.
Proof.
  intros Hwf Hcol Hrow. unfold cell_at. rewrite get_column_set_cell.
  destruct (String.eqb n name) eqn:En; [|reflexivity].
  apply String.eqb_eq in En. subst n. unfold has_column in Hcol.
  destruct (get_column df name) as [col|] eqn:Ecol; [|discriminate].
  cbn [option_map andb]. rewrite nth_set_nth.
  rewrite (get_column_length _ Hwf Ecol).
  destruct (Nat.ltb_spec row (nrows df)); [|lia].
  rewrite andb_true_r. reflexivity.
Qed.

Lemma well_formed_set_cell (df : DataFrame) (name : string) (row : nat) (v : cell) :
  well_formed df -> well_formed (set_cell df name row v).
Proof.
  unfold well_formed, set_cell. cbn [nrows columns].
  induction 1 as [|c rest Hc H IH]; cbn [set_in_columns]; [constructor|].
  destruct (String.eqb (fst c) name).
  - constructor; [|exact H]. cbn [snd]. rewrite length_set_nth. exact Hc.
  - constructor; [exact Hc | exact IH].
Qed.

(** The rows of one label column that hold 1. *)
Lemma get_label_data_one (df : DataFrame) (l : string) :
  has_column df ("Label: " ++ l) = true ->
  get_label_data df ["Label: " ++ l]
  = Ok (map Z.of_nat
          (filter (fun r => cell_eq_1 (cell_at df ("Label: " ++ l) r))
                  (seq 0 (nrows df)))).
Proof.
  intros H. unfold get_label_data. cbn [map]. rewrite normalise_label_column.
  cbn [find]. rewrite H. cbn [negb]. do 2 f_equal.
  apply filter_ext. intros r. cbn [existsb]. apply orb_false_r.
Qed.

Lemma In_label_rows (df : DataFrame) (name : string) (r : Z) :
  In r (map Z.of_nat
          (filter (fun r => cell_eq_1 (cell_at df name r)) (seq 0 (nrows df))))
  <-> 0 <= r < Z.of_nat (nrows df)
      /\ cell_eq_1 (cell_at df name (Z.to_nat r)) = true.
Proof.
  rewrite in_map_iff. split.
  - intros [k [<- Hk]]. apply filter_In in Hk. destruct Hk as [Hk Hc].
    apply in_seq in Hk. rewrite Nat2Z.id. split; [lia | exact Hc].
  - intros [Hr Hc]. exists (Z.to_nat r). split; [lia|].
    apply filter_In. split; [apply in_seq; lia | exact Hc].
Qed.


Lemma existsb_eqb_In (i : Z) (l : list Z) :
  existsb (Z.eqb i) l = true <-> In i l.
Proof.
  rewrite existsb_exists. split.
  - intros [x [Hx E]]. apply Z.eqb_eq in E. subst x. exact Hx.
  - intros H. exists i. split; [exact H | apply Z.eqb_refl].
Qed.

Lemma get_label_data_has_column (df : DataFrame) (l : string) (rows : list Z) :
  get_label_data df ["Label: " ++ l] = Ok rows ->
  has_column df ("Label: " ++ l) = true.
Proof.
  unfold get_label_data. cbn [map]. rewrite normalise_label_column.
  cbn [find]. destruct (has_column df ("Label: " ++ l)); [reflexivity|].
  discriminate.
Qed.

(** The frame after a toggle, and what the toggle reports. *)
Lemma toggle_selected_label_step (self : Handler) (df : DataFrame) (index : Z)
  (label : option string) :
  plot_data self = Some df ->
  has_column df ("Label: " ++ label_or_selected label self) = true ->
  0 <= index < Z.of_nat (nrows df) ->
  let name := "Label: " ++ label_or_selected label self in
  let was := cell_eq_1 (cell_at df name (Z.to_nat index)) in
  toggle_selected_label index label self
  = Returns was
      (with_frame self
         (set_cell df name (Z.to_nat index) (if was then CNone else CNum 1))).
Proof.
  intros Hdf Hcol Hidx name was. unfold toggle_selected_label.
  rewrite Hdf. cbv zeta. rewrite Hcol. cbn [negb].
  destruct (Z.leb_spec 0 index); [|lia].
  destruct (Z.ltb_spec index (Z.of_nat (nrows df))); [|lia].
  cbn [andb negb]. fold name. fold was. destruct was; reflexivity.
Qed.

Lemma cell_after_toggle (df : DataFrame) (name n : string) (row r : nat) :
  well_formed df -> has_column df name = true -> (row < nrows df)%nat ->
  let was := cell_eq_1 (cell_at df name row) in
  cell_eq_1 (cell_at (set_cell df name row (if was then CNone else CNum 1)) n r)
  = if String.eqb n name && (r =? row)%nat
    then negb was
    else cell_eq_1 (cell_at df n r).
Proof.
  intros Hwf Hcol Hrow was. rewrite cell_at_set_cell by assumption.
  destruct (String.eqb n name && (r =? row)%nat); [|reflexivity].
  destruct was; reflexivity.
Qed.

(** X6. A toggle on a declared label and a row of the table returns
    whether the row was marked, and afterwards the row is marked exactly
    when it was not before; every other row of that label, and every
    other label, is as before. *)
Theorem toggle_selected_label_flips (self : Handler) (df : DataFrame)
  (index : Z) (label : option string) (rows : list Z) :
  plot_data self = Some df ->
  well_formed df ->
  get_label_data df ["Label: " ++ label_or_selected label self] = Ok rows ->
  0 <= index < Z.of_nat (nrows df) ->
  exists df' rows',
    toggle_selected_label index label self
    = Returns (existsb (Z.eqb index) rows) (with_frame self df')
    /\ well_formed df'
    /\ get_label_data df' ["Label: " ++ label_or_selected label self] = Ok rows'
    /\ (In index rows' <-> ~ In index rows)
    /\ (forall r, r <> index -> (In r rows' <-> In r rows))
    /\ (forall other,
          normalise_label other <> "Label: " ++ label_or_selected label self ->
          get_label_data df' [other] = get_label_data df [other]).
Proof.
  intros Hdf Hwf Hrows Hidx.
  pose proof (get_label_data_has_column _ _ Hrows) as Hcol.
  rewrite (get_label_data_one _ _ Hcol) in Hrows. apply Ok_inj in Hrows.
  set (name := "Label: " ++ label_or_selected label self) in *.
  set (was := cell_eq_1 (cell_at df name (Z.to_nat index))).
  set (df' := set_cell df name (Z.to_nat index) (if was then CNone else CNum 1)).
  assert (Hrow : (Z.to_nat index < nrows df)%nat) by lia.
  assert (Hcol' : has_column df' name = true)
    by (unfold df'; rewrite has_column_set_cell; exact Hcol).
  assert (Hwas : existsb (Z.eqb index) rows = was).
  { apply eq_true_iff_eq. rewrite existsb_eqb_In, <- Hrows, In_label_rows.
    fold was. intuition lia. }
  assert (Hcell : forall n r,
             cell_eq_1 (cell_at df' n r)
             = if String.eqb n name && (r =? Z.to_nat index)%nat
               then negb was
               else cell_eq_1 (cell_at df n r))
    by (intros n r; apply cell_after_toggle; assumption).
  assert (Hn : nrows df' = nrows df) by reflexivity.
  eexists df', _. split; [|split; [|split; [|split; [|split]]]].
  - rewrite Hwas. apply toggle_selected_label_step; assumption.
  - apply well_formed_set_cell, Hwf.
  - apply (get_label_data_one _ _ Hcol').
  - rewrite <- Hrows, !In_label_rows. fold name. rewrite Hn, Hcell.
    rewrite String.eqb_refl, Nat.eqb_refl. cbn [andb]. fold was.
    destruct was; cbn [negb]; intuition (try discriminate; try lia).
  - intros r Hr. rewrite <- Hrows, !In_label_rows. fold name.
    rewrite Hn, Hcell.
    destruct (Nat.eqb_spec (Z.to_nat r) (Z.to_nat index)) as [E|_].
    + split; intros [Hrange _]; lia.
    + rewrite andb_false_r. reflexivity.
  - intros other Hother. apply get_label_data_ext.
    + reflexivity.
    + intros n _. unfold df'. apply has_column_set_cell.
    + intros n r [<-|[]] _. rewrite Hcell.
      destruct (String.eqb_spec (normalise_label other) name) as [E|_];
        [contradiction | reflexivity].
Qed.


Lemma toggle_selected_label_flips_example :
  exists df' rows',
    toggle_selected_label 2 None example_labelled
    = Returns false (with_frame example_labelled df')
    /\ well_formed df'
    /\ get_label_data df' ["Label: N"] = Ok rows'
    /\ (In 2 rows' <-> ~ In 2 [1; 4])
    /\ (forall r, r <> 2 -> (In r rows' <-> In r [1; 4]))
    /\ (forall other,
          normalise_label other <> "Label: N" ->
          get_label_data df' [other]
          = get_label_data
              {| nrows := 6; columns := [("Label: N", marks [1; 4]%nat 6)] |}
              [other]).
Proof.
  apply (@toggle_selected_label_flips example_labelled
           {| nrows := 6; columns := [("Label: N", marks [1; 4]%nat 6)] |}
           2 None [1; 4]).
  - reflexivity.
  - repeat constructor.
  - reflexivity.
  - simpl. lia.
Defined.

(** X7. Two toggles of the same label and row report opposite things and
    leave the rows of every label as they were. *)
Theorem toggle_selected_label_twice (self : Handler) (df : DataFrame)
  (index : Z) (label : option string) :
  plot_data self = Some df ->
  well_formed df ->
  has_column df ("Label: " ++ label_or_selected label self) = true ->
  0 <= index < Z.of_nat (nrows df) ->
  exists b self' self'' df'',
    toggle_selected_label index label self = Returns b self'
    /\ toggle_selected_label index label self' = Returns (negb b) self''
    /\ plot_data self'' = Some df''
    /\ forall labels, get_label_data df'' labels = get_label_data df labels.
Proof.
  intros Hdf Hwf Hcol Hidx.
  set (name := "Label: " ++ label_or_selected label self) in *.
  set (row := Z.to_nat index).
  set (was := cell_eq_1 (cell_at df name row)).
  set (df' := set_cell df name row (if was then CNone else CNum 1)).
  assert (Hrow : (row < nrows df)%nat) by (unfold row; lia).
  assert (Hcell : forall n r,
             cell_eq_1 (cell_at df' n r)
             = if String.eqb n name && (r =? row)%nat
               then negb was
               else cell_eq_1 (cell_at df n r))
    by (intros n r; apply cell_after_toggle; assumption).
  assert (Hwf' : well_formed df') by (apply well_formed_set_cell, Hwf).
  assert (Hcol' : has_column df' name = true)
    by (unfold df'; rewrite has_column_set_cell; exact Hcol).
  assert (Hwas' : cell_eq_1 (cell_at df' name row) = negb was)
    by (rewrite Hcell, String.eqb_refl, Nat.eqb_refl; reflexivity).
  set (df'' := set_cell df' name row (if negb was then CNone else CNum 1)).
  exists was, (with_frame self df'), (with_frame (with_frame self df') df''), df''.
  split; [|split; [|split]].
  - apply toggle_selected_label_step; assumption.
  - rewrite (@toggle_selected_label_step (with_frame self df') df' index label
               eq_refl Hcol' Hidx).
    change (label_or_selected label (with_frame self df'))
      with (label_or_selected label self).
    fold name. fold row. rewrite Hwas'. reflexivity.
  - reflexivity.
  - intros labels. apply get_label_data_ext.
    + reflexivity.
    + intros n _. unfold df'', df'. rewrite !has_column_set_cell. reflexivity.
    + intros n r _ _. unfold df''. rewrite <- Hwas'.
      rewrite (@cell_after_toggle df' name n row r Hwf' Hcol' Hrow).
      rewrite Hwas', Hcell.
      destruct (String.eqb n name && (r =? row)%nat) eqn:E; [|reflexivity].
      apply andb_true_iff in E. destruct E as [En Er].
      apply String.eqb_eq in En. apply Nat.eqb_eq in Er. subst n r.
      fold was. apply negb_involutive.
Qed.

Lemma toggle_selected_label_twice_example :
  exists b self' self'' df'',
    toggle_selected_label 4 None example_labelled = Returns b self'
    /\ toggle_selected_label 4 None self' = Returns (negb b) self''
    /\ plot_data self'' = Some df''
    /\ forall labels,
         get_label_data df'' labels
         = get_label_data
             {| nrows := 6; columns := [("Label: N", marks [1; 4]%nat 6)] |}
             labels.
Proof.
  apply (@toggle_selected_label_twice example_labelled
           {| nrows := 6; columns := [("Label: N", marks [1; 4]%nat 6)] |}
           4 None).
  - reflexivity.
  - repeat constructor.
  - reflexivity.
  - simpl. lia.
Defined.

Lemma get_column_add_column (df : DataFrame) (name n : string) :
  get_column (add_column df name) n
  = match get_column df n with
    | Some col => Some col
    | None => if String.eqb name n then Some (repeat CNone (nrows df)) else None
    end.
Proof.
  unfold get_column, add_column. cbn [columns nrows].
  induction (columns df) as [|c rest IH]; cbn [app find fst snd].
  - destruct (String.eqb name n); reflexivity.
  - destruct (String.eqb (fst c) n); [reflexivity | exact IH].
Qed.

Lemma nth_repeat_same {A : Type} (a : A) (n r : nat) : nth r (repeat a n) a = a.
Proof.
  revert r. induction n as [|n IH]; intros [|r]; simpl; try reflexivity.
  apply IH.
Qed.

Lemma cell_at_add_column (df : DataFrame) (name n : string) (r : nat) :
  cell_at (add_column df name) n r = cell_at df n r.
Proof.
  unfold cell_at. rewrite get_column_add_column.
  destruct (get_column df n); [reflexivity|].
  destruct (String.eqb name n); [apply nth_repeat_same | reflexivity].
Qed.

Lemma has_column_add_column (df : DataFrame) (name n : string) :
  has_column (add_column df name) n = has_column df n || String.eqb name n.
Proof.
  unfold has_column. rewrite get_column_add_column.
  destruct (get_column df n); [reflexivity|].
  destruct (String.eqb name n); reflexivity.
Qed.

Lemma well_formed_add_column (df : DataFrame) (name : string) :
  well_formed df -> well_formed (add_column df name).
Proof.
  unfold well_formed, add_column. cbn [nrows columns]. intros H.
  apply Forall_app. split; [exact H|]. constructor; [|constructor].
  cbn [snd]. apply repeat_length.
Qed.

(** A successful [get_label_data] only looked at columns that exist. *)
Lemma get_label_data_columns (df : DataFrame) (label : list string)
  (rows : list Z) :
  get_label_data df label = Ok rows ->
  forall n, In n (map normalise_label label) -> has_column df n = true.
Proof.
  unfold get_label_data. intros H n Hn.
  destruct (find _ _) eqn:E; [discriminate|].
  pose proof (find_none _ _ E n Hn) as Hf. cbv beta in Hf.
  destruct (has_column df n); [reflexivity | discriminate].
Qed.

Lemma declare_label_step (self : Handler) (df : DataFrame) (label_name : string) :
  plot_data self = Some df ->
  label_name <> "" ->
  has_column df ("Label: " ++ label_name) = false ->
  declare_label label_name self
  = Returns tt
      {| plot_data := Some (add_column df ("Label: " ++ label_name));
         label_list := (label_list self ++ [label_name])%list;
         selected_label := label_name;
         in_app := in_app self |}.
Proof.
  intros Hdf Hne Hcol. unfold declare_label.
  destruct (String.eqb_spec label_name "") as [E|_]; [contradiction|].
  rewrite Hdf, Hcol. reflexivity.
Qed.

(** X8. Declaring a label that has no column yet selects it, appends it
    to the label list and adds a column in which no row is marked;
    whatever [get_label_data] returned before, it still returns. *)
Theorem declare_label_fresh (self : Handler) (df : DataFrame)
  (label_name : string) :
  plot_data self = Some df ->
  label_name <> "" ->
  has_column df ("Label: " ++ label_name) = false ->
  exists self' df',
    declare_label label_name self = Returns tt self'
    /\ plot_data self' = Some df'
    /\ label_list self' = (label_list self ++ [label_name])%list
    /\ selected_label self' = label_name
    /\ get_label_data df' ["Label: " ++ label_name] = Ok []
    /\ (forall labels rows,
          get_label_data df labels = Ok rows ->
          get_label_data df' labels = Ok rows)
    /\ (well_formed df -> well_formed df').
Proof.
  intros Hdf Hne Hcol. eexists _, _.
  split; [apply (declare_label_step _ Hdf Hne Hcol)|].
  cbn [plot_data label_list selected_label].
  split; [reflexivity|]. split; [reflexivity|]. split; [reflexivity|].
  split; [|split].
  - rewrite get_label_data_one.
    2:{ rewrite has_column_add_column, String.eqb_refl. apply orb_true_r. }
    rewrite filter_none; [reflexivity|]. apply Forall_forall. intros r _.
    rewrite cell_at_add_column. unfold cell_at, has_column in *.
    destruct (get_column df ("Label: " ++ label_name)); [discriminate|].
    reflexivity.
  - intros labels rows H. rewrite <- H. symmetry. apply get_label_data_ext.
    + reflexivity.
    + intros n Hn. rewrite has_column_add_column.
      rewrite (get_label_data_columns _ _ H n Hn). reflexivity.
    + intros n r _ _. rewrite cell_at_add_column. reflexivity.
  - apply well_formed_add_column.
Qed.

Lemma declare_label_fresh_example :
  exists self' df',
    declare_label "V" example_labelled = Returns tt self'
    /\ plot_data self' = Some df'
    /\ label_list self' = ["N"; "V"]
    /\ selected_label self' = "V"
    /\ get_label_data df' ["Label: V"] = Ok []
    /\ (forall labels rows,
          get_label_data
            {| nrows := 6; columns := [("Label: N", marks [1; 4]%nat 6)] |}
            labels = Ok rows ->
          get_label_data df' labels = Ok rows)
    /\ (well_formed
          {| nrows := 6; columns := [("Label: N", marks [1; 4]%nat 6)] |} ->
        well_formed df').
Proof.
  apply (@declare_label_fresh example_labelled
           {| nrows := 6; columns := [("Label: N", marks [1; 4]%nat 6)] |} "V");
    [reflexivity | discriminate | reflexivity].
Defined.

(** X9. A label can be declared once: declaring the same name again
    raises [ValueError] and changes nothing. *)
Theorem declare_label_twice (self self' : Handler) (label_name : string) :
  label_name <> "" ->
  declare_label label_name self = Returns tt self' ->
  declare_label label_name self'
  = Raises (Exn (ValueError ("The label " ++ label_name ++ " already exists"))).
Proof.
  intros Hne H. unfold declare_label in *.
  destruct (String.eqb_spec label_name "") as [E|_]; [contradiction|].
  destruct (plot_data self) as [df|]; [|discriminate H].
  destruct (has_column df ("Label: " ++ label_name)); [discriminate H|].
  injection H as <-. cbn [plot_data].
  rewrite has_column_add_column, String.eqb_refl, orb_true_r. reflexivity.
Qed.

Lemma declare_label_twice_example :
  exists self',
    declare_label "V" example_labelled = Returns tt self'
    /\ declare_label "V" self'
       = Raises (Exn (ValueError "The label V already exists")).
Proof.
  eexists. split; [reflexivity|].
  apply (@declare_label_twice example_labelled); [discriminate | reflexivity].
Defined.


Lemma has_column_In (df : DataFrame) (n : string) :
  has_column df n = true <-> In n (map fst (columns df)).
Proof.
  unfold has_column, get_column.
  induction (columns df) as [|c rest IH]; cbn [find map In].
  - split; [discriminate | contradiction].
  - destruct (String.eqb_spec (fst c) n) as [E|E].
    + split; [intros _; left; exact E | reflexivity].
    + rewrite IH. split; [intros H; right; exact H|].
      intros [H|H]; [contradiction | exact H].
Qed.

Lemma label_column_inj (a b : string) :
  String.eqb ("Label: " ++ a) ("Label: " ++ b) = String.eqb a b.
Proof. reflexivity. Qed.

Lemma existsb_eqb_In_string (x : string) (l : list string) :
  existsb (String.eqb x) l = true <-> In x l.
Proof.
  rewrite existsb_exists. split.
  - intros [y [Hy E]]. apply String.eqb_eq in E. subst y. exact Hy.
  - intros H. exists x. split; [exact H | apply String.eqb_refl].
Qed.

Lemma in_sync_declare (self : Handler) (df : DataFrame) (label_name : string)
  (selected : string) :
  in_sync self df ->
  in_sync
    {| plot_data := Some (add_column df ("Label: " ++ label_name));
       label_list := (label_list self ++ [label_name])%list;
       selected_label := selected;
       in_app := in_app self |}
    (add_column df ("Label: " ++ label_name)).
Proof.
  intros Hsync l. cbn [label_list]. rewrite in_app_iff, has_column_add_column.
  rewrite orb_true_iff, label_column_inj, String.eqb_eq, (Hsync l).
  cbn [In]. intuition.
Qed.

(** X10. On a handler whose label list matches its label columns,
    [set_selected_label] with a non-empty name returns, the name is then
    selected and declared, list and columns still match, and a toggle of
    the selected label on any row of the table does not raise. *)
Theorem set_selected_label_then_toggle (self : Handler) (df : DataFrame)
  (label_name : string) :
  plot_data self = Some df ->
  label_name <> "" ->
  in_sync self df ->
  exists self' df',
    set_selected_label label_name self = Returns tt self'
    /\ selected_label self' = label_name
    /\ plot_data self' = Some df'
    /\ nrows df' = nrows df
    /\ in_sync self' df'
    /\ In label_name (label_list self')
    /\ forall index, 0 <= index < Z.of_nat (nrows df) ->
         exists b self'',
           toggle_selected_label index None self' = Returns b self''.
Proof.
  intros Hdf Hne Hsync. unfold set_selected_label. rewrite Hdf.
  destruct (existsb (String.eqb label_name) (label_list self)) eqn:Ein;
    cbn [negb].
  - apply existsb_eqb_In_string in Ein.
    eexists _, df. split; [reflexivity|]. cbn [selected_label plot_data label_list].
    split; [reflexivity|]. split; [reflexivity|]. split; [reflexivity|].
    split; [exact Hsync|]. split; [exact Ein|].
    intros index Hidx. eexists _, _.
    apply toggle_selected_label_step; [reflexivity | | exact Hidx].
    apply Hsync, Ein.
  - assert (Hcol : has_column df ("Label: " ++ label_name) = false).
    { destruct (has_column df ("Label: " ++ label_name)) eqn:E; [|reflexivity].
      apply Hsync, existsb_eqb_In_string in E. congruence. }
    rewrite (declare_label_step _ Hdf Hne Hcol).
    eexists _, _. split; [reflexivity|].
    cbn [selected_label plot_data label_list in_app].
    split; [reflexivity|]. split; [reflexivity|]. split; [reflexivity|].
    split; [apply (@in_sync_declare self df label_name label_name Hsync)|].
    split; [apply in_app_iff; right; left; reflexivity|].
    intros index Hidx. eexists _, _.
    apply toggle_selected_label_step; [reflexivity | | exact Hidx].
    cbn [label_or_selected selected_label].
    rewrite has_column_add_column, String.eqb_refl. apply orb_true_r.
Qed.

Lemma example_labelled_in_sync :
  in_sync example_labelled
    {| nrows := 6; columns := [("Label: N", marks [1; 4]%nat 6)] |}.
Proof.
  intros l. cbn [label_list example_labelled In]. unfold has_column, get_column.
  cbn [columns find fst snd].
  change (String.eqb "Label: N" ("Label: " ++ l)) with (String.eqb "N" l).
  destruct (String.eqb_spec "N" l) as [E|E].
  - split; [reflexivity | intros _; left; exact E].
  - split; [intros [H|[]]; contradiction | discriminate].
Qed.

Lemma set_selected_label_then_toggle_example :
  exists self' df',
    set_selected_label "V" example_labelled = Returns tt self'
    /\ selected_label self' = "V"
    /\ plot_data self' = Some df'
    /\ nrows df' = 6%nat
    /\ in_sync self' df'
    /\ In "V" (label_list self')
    /\ forall index, 0 <= index < 6 ->
         exists b self'',
           toggle_selected_label index None self' = Returns b self''.
Proof.
  apply (@set_selected_label_then_toggle example_labelled
           {| nrows := 6; columns := [("Label: N", marks [1; 4]%nat 6)] |} "V");
    [reflexivity | discriminate | exact example_labelled_in_sync].
Defined.

(** A table that already has the column of a label which the handler does
    not list. *)
Definition example_unlisted : Handler :=
  {| plot_data :=
       Some {| nrows := 6; columns := [("Label: N", marks [1; 4]%nat 6)] |};
     label_list := [];
     selected_label := "";
     in_app := false |}.

(** X11. When a name has a column but is missing from the label list,
    [set_selected_label] raises the [ValueError] of [declare_label] and
    selects nothing. *)
Theorem set_selected_label_unlisted (self : Handler) (df : DataFrame)
  (label_name : string) :
  plot_data self = Some df ->
  label_name <> "" ->
  existsb (String.eqb label_name) (label_list self) = false ->
  has_column df ("Label: " ++ label_name) = true ->
  set_selected_label label_name self
  = Raises (Exn (ValueError ("The label " ++ label_name ++ " already exists"))).
Proof.
  intros Hdf Hne Hnot Hcol. unfold set_selected_label.
  rewrite Hdf, Hnot. cbn [negb]. unfold declare_label.
  destruct (String.eqb_spec label_name "") as [E|_]; [contradiction|].
  rewrite Hdf, Hcol. reflexivity.
Qed.

Lemma set_selected_label_unlisted_example :
  set_selected_label "N" example_unlisted
  = Raises (Exn (ValueError "The label N already exists")).
Proof.
  apply (@set_selected_label_unlisted example_unlisted
           {| nrows := 6; columns := [("Label: N", marks [1; 4]%nat 6)] |} "N");
    [reflexivity | discriminate | reflexivity | reflexivity].
Defined.

Lemma substring_all (s : string) : String.substring 0 (String.length s) s = s.
Proof.
  induction s as [|a s IH]; [reflexivity|]. cbn [String.length String.substring].
  rewrite IH. reflexivity.
Qed.

Lemma removeprefix_app (p s : string) : removeprefix p (p ++ s) = s.
Proof.
  unfold removeprefix. rewrite prefix_app.
  induction p as [|a p IH].
  - cbn [String.append String.length]. rewrite Nat.sub_0_r. apply substring_all.
  - cbn [String.append String.length String.substring Nat.sub]. exact IH.
Qed.

Lemma prefix_split (p s : string) :
  String.prefix p s = true -> exists t, s = p ++ t.
Proof.
  revert s. induction p as [|a p IH]; intros s H.
  - exists s. reflexivity.
  - destruct s as [|b s]; [discriminate H|]. cbn [String.prefix] in H.
    destruct (Ascii.ascii_dec a b) as [->|_]; [|discriminate H].
    destruct (IH s H) as [t ->]. exists t. reflexivity.
Qed.

(** X12. When every column whose name contains ["Label: "] begins with
    it, [get_label_list] makes the label list match the label columns. *)
Theorem get_label_list_in_sync (self : Handler) (df : DataFrame) :
  plot_data self = Some df ->
  (forall c, In c (map fst (columns df)) ->
             py_in "Label: " c = true -> String.prefix "Label: " c = true) ->
  exists self',
    get_label_list self = Returns tt self'
    /\ plot_data self' = Some df
    /\ in_sync self' df.
Proof.
  intros Hdf Hnames. unfold get_label_list. rewrite Hdf.
  eexists. split; [reflexivity|]. cbn [plot_data]. split; [reflexivity|].
  intros l. cbn [label_list]. rewrite has_column_In, in_map_iff. split.
  - intros [c [Hl Hc]]. apply filter_In in Hc. destruct Hc as [Hc Hin].
    destruct (prefix_split _ _ (Hnames c Hc Hin)) as [t ->].
    rewrite removeprefix_app in Hl. subst t. exact Hc.
  - intros Hc. exists ("Label: " ++ l). split; [apply removeprefix_app|].
    apply filter_In. split; [exact Hc|].
    apply py_in_label_column.
Qed.

Lemma get_label_list_in_sync_example :
  exists self',
    get_label_list example_labelled = Returns tt self'
    /\ plot_data self'
       = Some {| nrows := 6; columns := [("Label: N", marks [1; 4]%nat 6)] |}
    /\ in_sync self'
         {| nrows := 6; columns := [("Label: N", marks [1; 4]%nat 6)] |}.
Proof.
  apply (@get_label_list_in_sync example_labelled); [reflexivity|].
  intros c [<-|[]] _. reflexivity.
Defined.

Lemma get_label_data_returns (df : DataFrame) (label : list string) :
  (forall l, In l label -> has_column df (normalise_label l) = true) ->
  exists rows, get_label_data df label = Ok rows.
Proof.
  intros H. unfold get_label_data.
  destruct (find _ _) as [l|] eqn:E; [|eexists; reflexivity].
  apply find_some in E. destruct E as [Hin Hmissing].
  apply in_map_iff in Hin. destruct Hin as [l0 [<- Hl0]].
  rewrite (H l0 Hl0) in Hmissing. discriminate Hmissing.
Qed.

Lemma listed_labels_have_columns (self : Handler) (df : DataFrame)
  (names : list string) :
  in_sync self df ->
  Forall (fun l => py_in "Label: " l = false) names ->
  forall l,
    In l (filter (fun key => mem_str key (label_list self)) names) ->
    has_column df (normalise_label l) = true.
Proof.
  intros Hsync Hplain l Hl. apply filter_In in Hl. destruct Hl as [Hin Hmem].
  rewrite Forall_forall in Hplain. unfold normalise_label.
  rewrite (Hplain l Hin). apply Hsync.
  unfold mem_str in Hmem. apply existsb_eqb_In_string, Hmem.
Qed.

(** X13. While the label list matches the label columns, and no default
    class or marker name contains ["Label: "], [get_heartbeats] never
    raises: it returns a list of segments, or its loop does not end. *)
Theorem get_heartbeats_never_raises (DEFAULT_HEARTBEAT_CLASSES
  SEGMENT_DENOMINATORS : list string) (self : Handler) (df : DataFrame)
  (fuel : nat) :
  plot_data self = Some df ->
  in_sync self df ->
  Forall (fun l => py_in "Label: " l = false)
         (DEFAULT_HEARTBEAT_CLASSES ++ SEGMENT_DENOMINATORS) ->
  get_heartbeats DEFAULT_HEARTBEAT_CLASSES SEGMENT_DENOMINATORS fuel
    (segmenter_view self) = None
  \/ exists segs,
       get_heartbeats DEFAULT_HEARTBEAT_CLASSES SEGMENT_DENOMINATORS fuel
         (segmenter_view self) = Some (Ok segs).
Proof.
  intros Hdf Hsync Hplain. apply Forall_app in Hplain.
  destruct Hplain as [Hclasses Hmarkers].
  unfold get_heartbeats, segmenter_view.
  cbn [Segmenter.plot_data Segmenter.label_list]. rewrite Hdf.
  destruct (label_list self) as [|l0 ls] eqn:El;
    [right; eexists; reflexivity|].
  destruct (@get_label_data_returns df
              (present_labels DEFAULT_HEARTBEAT_CLASSES (segmenter_view self)))
    as [heartbeats Hhb].
  { apply (listed_labels_have_columns Hsync Hclasses). }
  destruct (@get_label_data_returns df
              (included_markers SEGMENT_DENOMINATORS (segmenter_view self)))
    as [breaks Hbr].
  { apply (listed_labels_have_columns Hsync Hmarkers). }
  unfold present_labels, included_markers, segmenter_view in *.
  cbn [Segmenter.label_list] in *. rewrite El in *. rewrite Hhb.
  destruct (filter _ SEGMENT_DENOMINATORS) as [|m0 ms];
    [right; eexists; reflexivity|].
  rewrite Hbr.
  destruct (segment_loop fuel heartbeats breaks 0 0 []) as [segs|];
    [right; eexists; reflexivity | left; reflexivity].
Qed.

Lemma get_heartbeats_never_raises_example :
  get_heartbeats ["N"] ["~"] 3 (segmenter_view example_labelled) = None
  \/ exists segs,
       get_heartbeats ["N"] ["~"] 3 (segmenter_view example_labelled)
       = Some (Ok segs).
Proof.
  apply (@get_heartbeats_never_raises ["N"] ["~"] example_labelled
           {| nrows := 6; columns := [("Label: N", marks [1; 4]%nat 6)] |} 3).
  - reflexivity.
  - exact example_labelled_in_sync.
  - repeat constructor.
Defined.

End Labels.

(** ** The anomaly detector on short series *)

Module DetectorFacts.

Import Toolbox.

Section Generic.

Context {F : Type} {num : Number F}.

Open Scope Z_scope.

(** The smoothing window of the detector has seven weights. *)
Lemma detector_window :
  exists w, windows_exponential (force_odd 6) (of_Z 4) = Ok w
            /\ length (normalise w) = 7%nat.
Proof.
  destruct (@windows_exponential_length F num (force_odd 6) (of_Z 4))
    as [w [Hw Hlen]]; [cbv; discriminate|].
  exists w. split; [exact Hw|]. rewrite normalise_length. exact Hlen.
Qed.

(** Against a signal shorter than its window, [convolve(..., 'same')]
    returns as many samples as the window has. *)
Lemma np_convolve_same_short (y w : list F) (out : list F) :
  (length y < length w)%nat ->
  np_convolve_same y w = Ok out -> length out = length w.
Proof.
  intros Hlt H. rewrite (np_convolve_same_length _ _ H). lia.
Qed.

(** A series cannot be subtracted from an array of seven values unless it
    has seven rows. *)
Lemma series_sub_mismatch (s a : list F) :
  length a = 7%nat -> length s <> 7%nat ->
  exists msg, series_sub s a = Err (ValueError msg).
Proof.
  intros Ha Hs. unfold series_sub.
  destruct (Nat.eqb_spec (length s) (length a)) as [E|_]; [lia|].
  destruct a as [|y [|y' a]]; [discriminate Ha | discriminate Ha |].
  destruct s as [|x [|x' s]]; eexists; reflexivity.
Qed.

(** X14. A series of fewer than seven intervals makes
    [get_anomalies_from_rri] raise a [ValueError]: the baseline that
    [convolve(..., 'same')] returns has seven samples, as many as the
    window, and cannot be subtracted from the shorter series; an empty
    series is refused by [convolve] itself. *)
Theorem get_anomalies_from_rri_short_series (index : list Z) (rri : list F)
  (indices : option (list Z)) (kw_rise_threshold kw_drop_threshold : option F) :
  (length rri < 7)%nat ->
  exists msg,
    get_anomalies_from_rri (PdSeries index rri) indices
      kw_rise_threshold kw_drop_threshold
    = Err (ValueError msg).
Proof.
  intros Hn. destruct detector_window as [w [Hw Hlen]].
  unfold get_anomalies_from_rri. cbn [as_series bind fst snd].
  unfold symmetric_exponential_moving_average. rewrite Hw. cbn [bind].
  destruct (np_convolve_same rri (normalise w)) as [baseline|e] eqn:Econv.
  - cbn [bind].
    assert (Hb : length baseline = 7%nat).
    { rewrite (@np_convolve_same_short rri (normalise w) baseline); lia || exact Econv. }
    destruct (@series_sub_mismatch rri baseline Hb ltac:(lia)) as [msg ->].
    exists msg. reflexivity.
  - cbn [bind]. unfold np_convolve_same in Econv.
    destruct (Nat.ltb_spec (length rri) (length (normalise w))); [|lia].
    rewrite Hlen in Econv. cbn [Nat.eqb] in Econv.
    destruct (length rri =? 0)%nat; [|discriminate Econv].
    injection Econv as <-. eexists. reflexivity.
Qed.

End Generic.

Import Binary64.

#[local] Set Warnings "-inexact-float".

Open Scope float_scope.

Lemma get_anomalies_from_rri_short_series_example :
  exists msg,
    get_anomalies_from_rri (PdSeries [0; 1; 2]%Z [1; 0.5; 1.3]) None None None
    = Err (ValueError msg).
Proof.
  apply (@get_anomalies_from_rri_short_series float binary64
           [0; 1; 2]%Z [1; 0.5; 1.3] None None None).
  simpl. lia.
Defined.

End DetectorFacts.

(** ** Vector helpers: [unit_vector], [zero_mean_vector] *)

Module Vectors.

Section Generic.

Context {F : Type} {num : Number F}.

(** [numpy.linalg.norm(x)] of a one-dimensional real array: the root of
    [x.dot(x)]. *)
Definition linalg_norm (x : list F) : F :=
  fsqrt (np_sum (map (fun v => (v * v)%num) x)).

Definition unit_vector (vector : list F) : list F :=
  let norm := linalg_norm vector in
  map (fun v => (v / norm)%num) vector.

Definition zero_mean_vector (vector : list F) : list F :=
  let mean := np_mean vector in
  map (fun v => (v - mean)%num) vector.

End Generic.

(** *** Over exact arithmetic *)

Import Reals Lra.
Import ExactReal.

Open Scope R_scope.

Definition Rsum (l : list R) : R := fold_right Rplus 0 l.

Lemma fold_fadd_fin (l : list R) :
  forall a, fold_left fadd (map XFin l) (XFin a) = XFin (a + Rsum l).
Proof.
  induction l as [|x l IH]; intros a; cbn [map fold_left Rsum fold_right].
  - f_equal. lra.
  - change (fadd (XFin a) (XFin x)) with (XFin (a + x)). rewrite IH.
    f_equal. unfold Rsum. lra.
Qed.

Lemma np_sum_fin (l : list R) : np_sum (map XFin l) = XFin (Rsum l).
Proof.
  unfold np_sum, fzero. cbn [of_Z exact]. rewrite fold_fadd_fin.
  f_equal. lra.
Qed.

Lemma INR_length_neq_0 {A : Type} (l : list A) : l <> [] -> INR (length l) <> 0.
Proof.
  intros H. apply not_0_INR. destruct l; [contradiction | discriminate].
Qed.

Lemma np_mean_fin (l : list R) :
  l <> [] -> np_mean (map XFin l) = XFin (Rsum l / INR (length l)).
Proof.
  intros H. unfold np_mean. rewrite np_sum_fin, length_map.
  cbn [fdiv of_Z exact xdiv]. rewrite <- INR_IZR_INZ.
  destruct (Req_dec_T (INR (length l)) 0) as [E|_]; [|reflexivity].
  exfalso. exact (INR_length_neq_0 H E).
Qed.

Lemma Rsum_shift (l : list R) (m : R) :
  Rsum (map (fun x => x - m) l) = Rsum l - INR (length l) * m.
Proof.
  induction l as [|x l IH]; [cbn; lra|].
  cbn [map Rsum fold_right]. fold (Rsum (map (fun x => x - m) l)).
  fold (Rsum l). rewrite IH.
  change (length (x :: l)) with (S (length l)). rewrite S_INR. lra.
Qed.

Lemma zero_mean_vector_fin (v : list R) :
  v <> [] ->
  zero_mean_vector (map XFin v)
  = map XFin (map (fun x => x - Rsum v / INR (length v)) v).
Proof.
  intros H. unfold zero_mean_vector. rewrite (np_mean_fin H), !map_map.
  reflexivity.
Qed.

(** X15. Over exact arithmetic the result of [zero_mean_vector] on a
    non-empty finite vector has mean 0, and applying the function again
    changes nothing. *)
Theorem zero_mean_vector_mean (v : list R) :
  v <> [] ->
  np_mean (zero_mean_vector (map XFin v)) = XFin 0
  /\ zero_mean_vector (zero_mean_vector (map XFin v))
     = zero_mean_vector (map XFin v).
Proof.
  intros H. rewrite (zero_mean_vector_fin H).
  set (m := Rsum v / INR (length v)).
  assert (Hne : map (fun x => x - m) v <> [])
    by (destruct v; [contradiction | discriminate]).
  assert (Hsum : Rsum (map (fun x => x - m) v) = 0).
  { rewrite Rsum_shift. unfold m. field. apply INR_length_neq_0, H. }
  split.
  - rewrite (np_mean_fin Hne), Hsum. f_equal. unfold Rdiv. apply Rmult_0_l.
  - rewrite (zero_mean_vector_fin Hne), Hsum. f_equal.
    transitivity (map (fun x => x) (map (fun x => x - m) v)); [|apply map_id].
    apply map_ext. intros x. unfold Rdiv. rewrite Rmult_0_l. lra.
Qed.

Lemma zero_mean_vector_mean_example :
  np_mean (zero_mean_vector (map XFin [1; 2; 6])) = XFin 0
  /\ zero_mean_vector (zero_mean_vector (map XFin [1; 2; 6]))
     = zero_mean_vector (map XFin [1; 2; 6]).
Proof. apply (@zero_mean_vector_mean [1; 2; 6]). discriminate. Defined.

Definition squares (v : list R) : R := Rsum (map (fun x => x * x) v).

Lemma squares_nonneg (v : list R) : 0 <= squares v.
Proof.
  unfold squares. induction v as [|x v IH]; [cbn; lra|].
  cbn [map Rsum fold_right]. fold (Rsum (map (fun x => x * x) v)).
  pose proof (Rle_0_sqr x) as Hx. unfold Rsqr in Hx. lra.
Qed.

Lemma squares_pos (v : list R) : Exists (fun x => x <> 0) v -> 0 < squares v.
Proof.
  unfold squares. induction 1 as [x v Hx | x v _ IH];
    cbn [map Rsum fold_right]; fold (Rsum (map (fun x => x * x) v)).
  - pose proof (squares_nonneg v) as Hv. unfold squares in Hv.
    pose proof (Rsqr_pos_lt x Hx) as Hpos. unfold Rsqr in Hpos. lra.
  - pose proof (Rle_0_sqr x) as Hx. unfold Rsqr in Hx. lra.
Qed.

Lemma linalg_norm_fin (v : list R) :
  linalg_norm (map XFin v) = XFin (sqrt (squares v)).
Proof.
  unfold linalg_norm. rewrite map_map.
  rewrite (map_ext (fun x => (XFin x * XFin x)%num) (fun x => XFin (x * x)))
    by reflexivity.
  rewrite <- (map_map (fun x => x * x) XFin), np_sum_fin.
  cbn [fsqrt exact xsqrt]. fold (squares v).
  destruct (Rlt_dec (squares v) 0) as [Hlt|_]; [|reflexivity].
  pose proof (squares_nonneg v). lra.
Qed.

Lemma squares_scale (v : list R) (c : R) :
  squares (map (fun x => x / c) v) = squares v / (c * c).
Proof.
  unfold squares. destruct (Req_dec_T c 0) as [->|Hc].
  - induction v as [|x v IH]; cbn [map Rsum fold_right].
    + unfold Rdiv. rewrite Rmult_0_l. reflexivity.
    + fold (Rsum (map (fun x => x * x) (map (fun x => x / 0) v))).
      fold (Rsum (map (fun x => x * x) v)). rewrite IH.
      unfold Rdiv. rewrite !Rmult_0_l, Rinv_0. lra.
  - induction v as [|x v IH]; cbn [map Rsum fold_right].
    + unfold Rdiv. rewrite Rmult_0_l. reflexivity.
    + fold (Rsum (map (fun x => x * x) (map (fun x => x / c) v))).
      fold (Rsum (map (fun x => x * x) v)). rewrite IH. field. exact Hc.
Qed.

(** X16. Over exact arithmetic the result of [unit_vector] on a finite
    vector with a non-zero entry has norm 1. *)
Theorem unit_vector_norm (v : list R) :
  Exists (fun x => x <> 0) v ->
  linalg_norm (unit_vector (map XFin v)) = XFin 1.
Proof.
  intros H. pose proof (squares_pos H) as Hpos.
  pose proof (sqrt_lt_R0 _ Hpos) as Hroot.
  unfold unit_vector. rewrite linalg_norm_fin, map_map.
  rewrite (map_ext (fun x => (XFin x / XFin (sqrt (squares v)))%num)
                   (fun x => XFin (x / sqrt (squares v)))).
  2:{ intros x. cbn [fdiv exact xdiv].
      destruct (Req_dec_T (sqrt (squares v)) 0) as [E|_]; [lra | reflexivity]. }
  rewrite <- (map_map (fun x => x / sqrt (squares v)) XFin), linalg_norm_fin.
  f_equal. rewrite squares_scale, sqrt_sqrt by lra.
  replace (squares v / squares v) with 1 by (field; lra). apply sqrt_1.
Qed.

Lemma unit_vector_norm_example :
  linalg_norm (unit_vector (map XFin [3; 0; 4])) = XFin 1.
Proof.
  apply (@unit_vector_norm [3; 0; 4]). constructor. lra.
Defined.

(** X17. A vector of zeros has no direction: every entry of the result
    of [unit_vector] is NaN. *)
Theorem unit_vector_of_zeros (v : list R) :
  Forall (fun x => x = 0) v ->
  unit_vector (map XFin v) = map (fun _ => XNaN) v.
Proof.
  intros H. unfold unit_vector. rewrite linalg_norm_fin, map_map.
  assert (Hs : squares v = 0).
  { unfold squares. induction H as [|x v Hx _ IH]; [reflexivity|].
    cbn [map Rsum fold_right]. fold (Rsum (map (fun x => x * x) v)).
    rewrite IH, Hx. lra. }
  rewrite Hs, sqrt_0. apply map_ext_in. intros x Hx.
  rewrite Forall_forall in H. rewrite (H x Hx).
  cbn [fdiv exact xdiv]. destruct (Req_dec_T 0 0) as [_|E]; [|contradiction].
  unfold Rsign. destruct (Rlt_dec 0 0); [lra | reflexivity].
Qed.

Lemma unit_vector_of_zeros_example :
  unit_vector (map XFin [0; 0]) = [XNaN; XNaN].
Proof.
  apply (@unit_vector_of_zeros [0; 0]). repeat constructor.
Defined.

End Vectors.

(** ** The moving averages over exact arithmetic *)

Module ExactSmoothing.

Import Reals Lra.
Import ExactReal Toolbox Vectors.

Open Scope R_scope.

Lemma Rsum_app (a b : list R) : Rsum (a ++ b) = Rsum a + Rsum b.
Proof.
  unfold Rsum. induction a as [|x a IH]; cbn [app fold_right]; [lra|].
  rewrite IH. lra.
Qed.

Lemma Rsum_rev (a : list R) : Rsum (rev a) = Rsum a.
Proof.
  induction a as [|x a IH]; [reflexivity|].
  cbn [rev]. rewrite Rsum_app, IH. unfold Rsum. cbn [fold_right]. lra.
Qed.

Lemma Rsum_scale (c : R) (a : list R) :
  Rsum (map (fun x => c * x) a) = c * Rsum a.
Proof.
  unfold Rsum. induction a as [|x a IH]; cbn [map fold_right]; [lra|].
  rewrite IH. lra.
Qed.

Lemma Rsum_pos (a : list R) :
  a <> [] -> Forall (fun x => 0 < x) a -> 0 < Rsum a.
Proof.
  intros Hne H. unfold Rsum. induction H as [|x a Hx Ha IH]; [contradiction|].
  cbn [fold_right]. destruct a as [|y a].
  - cbn [fold_right]. lra.
  - assert (0 < fold_right Rplus 0 (y :: a)) by (apply IH; discriminate). lra.
Qed.

(** The weights that a window of length [M] centred at [k] lays over the
    samples of a signal that covers it. *)
Lemma covered_sum (f : nat -> R) (k M n : nat) :
  (1 <= M)%nat -> (M - 1 <= k)%nat -> (k < n)%nat ->
  Rsum (map (fun j => f (k - j)%nat)
          (filter (fun j => (j <=? k)%nat && (k - j <? M)%nat) (seq 0 n)))
  = Rsum (map f (seq 0 M)).
Proof.
  intros HM Hk Hn.
  rewrite (filter_ext_in _ (fun j => (k + 1 - M <=? j)%nat && (j <? k + 1)%nat)).
  2:{ intros j _.
      destruct (Nat.leb_spec j k); destruct (Nat.ltb_spec (k - j) M);
        destruct (Nat.leb_spec (k + 1 - M) j); destruct (Nat.ltb_spec j (k + 1));
        try lia; reflexivity. }
  rewrite filter_seq_range by lia.
  replace (k + 1 - (k + 1 - M))%nat with M by lia.
  rewrite <- (Rsum_rev (map f (seq 0 M))). f_equal.
  apply (nth_ext _ _ 0 0).
  - rewrite length_rev, !length_map, !length_seq. reflexivity.
  - intros i Hi. rewrite length_map, length_seq in Hi.
    rewrite rev_nth by (rewrite length_map, length_seq; exact Hi).
    rewrite length_map, length_seq.
    rewrite (nth_map_lt _ _ 0%nat) by (rewrite length_seq; exact Hi).
    rewrite (nth_map_lt _ _ 0%nat) by (rewrite length_seq; lia).
    rewrite !seq_nth by lia. f_equal. lia.
Qed.


Lemma conv_at_fin (y w : list R) (k : nat) :
  conv_at (map XFin y) (map XFin w) k
  = XFin (Rsum (map (fun j => nth j y 0 * nth (k - j) w 0)
                  (filter (fun j => (j <=? k)%nat && (k - j <? length w)%nat)
                          (seq 0 (length y))))).
Proof.
  unfold conv_at. rewrite !length_map.
  rewrite (map_ext
             (fun j => (nth j (map XFin y) fzero * nth (k - j) (map XFin w) fzero)%num)
             (fun j => XFin (nth j y 0 * nth (k - j) w 0))).
  2:{ intros j. unfold fzero. cbn [of_Z exact].
      rewrite (map_nth XFin y 0 j), (map_nth XFin w 0 (k - j)). reflexivity. }
  rewrite <- (map_map (fun j => nth j y 0 * nth (k - j) w 0) XFin).
  apply np_sum_fin.
Qed.

Lemma normalise_fin (w : list R) :
  Rsum w <> 0 ->
  normalise (map XFin w) = map XFin (map (fun x => x / Rsum w) w).
Proof.
  intros H. unfold normalise. rewrite np_sum_fin, !map_map.
  apply map_ext. intros x. cbn [fdiv exact xdiv].
  destruct (Req_dec_T (Rsum w) 0) as [E|_]; [contradiction | reflexivity].
Qed.

Lemma Rsum_normalised (w : list R) :
  Rsum w <> 0 -> Rsum (map (fun x => x / Rsum w) w) = 1.
Proof.
  intros H.
  rewrite (map_ext (fun x => x / Rsum w) (fun x => / Rsum w * x))
    by (intros x; unfold Rdiv; apply Rmult_comm).
  rewrite Rsum_scale. field. exact H.
Qed.

Lemma map_nth_seq (w : list R) : map (fun d => nth d w 0) (seq 0 (length w)) = w.
Proof.
  apply (nth_ext _ _ 0 0).
  - rewrite length_map, length_seq. reflexivity.
  - intros i Hi. rewrite length_map, length_seq in Hi.
    rewrite (nth_map_lt _ _ 0%nat) by (rewrite length_seq; exact Hi).
    rewrite seq_nth by exact Hi. reflexivity.
Qed.

(** A window of positive weights, normalised, leaves a constant signal
    unchanged wherever the window lies inside the signal. *)
Lemma smooth_constant (w : list R) (c : R) (n : nat) :
  w <> [] -> Forall (fun x => 0 < x) w -> (length w <= n)%nat ->
  exists out,
    np_convolve_same (map XFin (repeat c n)) (normalise (map XFin w)) = Ok out
    /\ length out = n
    /\ forall i, (length w - 1 - (length w - 1) / 2 <= i)%nat ->
                 (i + (length w - 1) / 2 < n)%nat ->
                 nth i out XNaN = XFin c.
Proof.
  intros Hne Hpos Hlen.
  assert (Hsum : Rsum w <> 0) by (pose proof (Rsum_pos Hne Hpos); lra).
  assert (Hw : (1 <= length w)%nat)
    by (destruct w; [contradiction | simpl; lia]).
  rewrite (@normalise_fin w Hsum).
  set (w' := map (fun x => x / Rsum w) w).
  assert (Hw' : length w' = length w) by (unfold w'; apply length_map).
  rewrite np_convolve_same_long.
  2:{ apply nonempty_length. rewrite length_map, Hw'. exact Hw. }
  2:{ rewrite !length_map, repeat_length, Hw'. exact Hlen. }
  rewrite !length_map, repeat_length, Hw'.
  eexists. split; [reflexivity|]. split.
  - rewrite length_map, length_seq. reflexivity.
  - intros i Hlo Hhi.
    rewrite (nth_map_lt _ _ 0%nat) by (rewrite length_seq; lia).
    rewrite seq_nth by lia. cbn [plus]. rewrite conv_at_fin. f_equal.
    rewrite repeat_length, Hw'.
    rewrite (map_ext_in _ (fun j => c * nth (i + (length w - 1) / 2 - j) w' 0)).
    2:{ intros j Hj. apply filter_In in Hj. destruct Hj as [Hj _].
        apply in_seq in Hj. f_equal.
        apply nth_repeat_lt. lia. }
    rewrite <- (map_map (fun j => nth (i + (length w - 1) / 2 - j) w' 0)
                        (fun x => c * x)).
    rewrite Rsum_scale.
    rewrite (@covered_sum (fun d => nth d w' 0) (i + (length w - 1) / 2)
               (length w) n) by lia.
    rewrite <- Hw', map_nth_seq. unfold w'. rewrite (@Rsum_normalised w Hsum). lra.
Qed.


Lemma xdiv_by_nonzero (x y : R) : y <> 0 -> xdiv (XFin x) (XFin y) = XFin (x / y).
Proof.
  intros H. cbn [xdiv]. destruct (Req_dec_T y 0); [contradiction | reflexivity].
Qed.

(** Both windows have finite, positive weights. *)
Lemma windows_gaussian_positive (M : Z) (s : R) :
  (1 <= M)%Z -> s <> 0 ->
  exists w, windows_gaussian M (XFin s) = Ok (map XFin w)
            /\ length w = Z.to_nat M
            /\ Forall (fun x => 0 < x) w.
Proof.
  intros HM Hs. unfold windows_gaussian, len_guards.
  destruct (Z.ltb_spec M 0); [lia|]. cbn [bind].
  destruct (M <=? 1)%Z.
  - exists (repeat 1 (Z.to_nat M)). split; [|split].
    + rewrite map_repeat. reflexivity.
    + apply repeat_length.
    + apply Forall_forall. intros x Hx. apply repeat_spec in Hx. lra.
  - cbv zeta.
    assert (Hsig : 2 * s * s <> 0).
    { intros E. apply Rmult_integral in E. destruct E as [E|E]; [|contradiction].
      apply Rmult_integral in E. destruct E as [E|E]; [lra | contradiction]. }
    exists (map (fun k => exp (- ((IZR k - IZR (M - 1) / 2)
                                  * (IZR k - IZR (M - 1) / 2)) / (2 * s * s)))
                (range (Z.to_nat M))).
    split; [|split].
    + rewrite map_map. f_equal. apply map_ext. intros k.
      cbn [of_Z exact fsub fdiv fmul fopp fexp].
      rewrite (@xdiv_by_nonzero (IZR (M - 1)) 2) by lra.
      cbn [xsub xmul xopp]. rewrite (@xdiv_by_nonzero _ (2 * s * s) Hsig).
      reflexivity.
    + rewrite length_map. apply range_length.
    + apply Forall_forall. intros x Hx. apply in_map_iff in Hx.
      destruct Hx as [k [<- _]]. apply exp_pos.
Qed.

Lemma windows_exponential_positive (M : Z) (tau : R) :
  (1 <= M)%Z -> tau <> 0 ->
  exists w, windows_exponential M (XFin tau) = Ok (map XFin w)
            /\ length w = Z.to_nat M
            /\ Forall (fun x => 0 < x) w.
Proof.
  intros HM Ht. unfold windows_exponential, len_guards.
  destruct (Z.ltb_spec M 0); [lia|]. cbn [bind].
  destruct (M <=? 1)%Z.
  - exists (repeat 1 (Z.to_nat M)). split; [|split].
    + rewrite map_repeat. reflexivity.
    + apply repeat_length.
    + apply Forall_forall. intros x Hx. apply repeat_spec in Hx. lra.
  - cbv zeta.
    exists (map (fun k => exp (- Rabs (IZR k - IZR (M - 1) / 2) / tau))
                (range (Z.to_nat M))).
    split; [|split].
    + rewrite map_map. f_equal. apply map_ext. intros k.
      cbn [of_Z exact fsub fdiv fabs fopp fexp].
      rewrite (@xdiv_by_nonzero (IZR (M - 1)) 2) by lra.
      cbn [xsub xabs xopp]. rewrite (@xdiv_by_nonzero _ tau Ht).
      reflexivity.
    + rewrite length_map. apply range_length.
    + apply Forall_forall. intros x Hx. apply in_map_iff in Hx.
      destruct Hx as [k [<- _]]. apply exp_pos.
Qed.

Lemma force_odd_is_odd (L : Z) :
  (0 <= L)%Z -> exists h, Z.to_nat (force_odd L) = (2 * h + 1)%nat.
Proof.
  intros HL. unfold force_odd.
  destruct (Z.eqb_spec (L mod 2) 0) as [E|E].
  - exists (Z.to_nat (L / 2)).
    pose proof (Z.div_mod L 2 ltac:(lia)) as Hdm.
    pose proof (Z.div_pos L 2 HL ltac:(lia)). lia.
  - exists (Z.to_nat (L / 2)).
    pose proof (Z.div_mod L 2 ltac:(lia)) as Hdm.
    pose proof (Z.mod_pos_bound L 2 ltac:(lia)).
    pose proof (Z.div_pos L 2 HL ltac:(lia)). lia.
Qed.

(** X18. Over exact arithmetic both moving averages have unit gain: on a
    constant signal that is at least as long as the window ([L] forced
    odd, [2 h + 1] weights) every output sample from [h] to [n - 1 - h],
    where the window lies inside the signal, is that constant. *)
Theorem moving_average_of_constant (c : R) (n : nat) (L : Z) (std tau : R) :
  (0 <= L)%Z -> std <> 0 -> tau <> 0 ->
  (Z.to_nat (force_odd L) <= n)%nat ->
  exists h gaussian exponential,
    Z.to_nat (force_odd L) = (2 * h + 1)%nat
    /\ symmetric_gaussian_moving_average (map XFin (repeat c n)) L (XFin std)
       = Ok gaussian
    /\ symmetric_exponential_moving_average (map XFin (repeat c n)) L (XFin tau)
       = Ok exponential
    /\ length gaussian = n
    /\ length exponential = n
    /\ forall i, (h <= i)%nat -> (i + h < n)%nat ->
         nth i gaussian XNaN = XFin c /\ nth i exponential XNaN = XFin c.
Proof.
  intros HL Hstd Htau Hn.
  destruct (force_odd_is_odd HL) as [h Hh].
  assert (HM : (1 <= force_odd L)%Z) by lia.
  destruct (windows_gaussian_positive HM Hstd) as [wg [Hwg [Hlg Hpg]]].
  destruct (windows_exponential_positive HM Htau) as [we [Hwe [Hle Hpe]]].
  assert (Hneg : wg <> []) by (apply nonempty_length; lia).
  assert (Hnee : we <> []) by (apply nonempty_length; lia).
  destruct (@smooth_constant wg c n Hneg Hpg ltac:(lia)) as [og [Hog [Hlog Hcg]]].
  destruct (@smooth_constant we c n Hnee Hpe ltac:(lia)) as [oe [Hoe [Hloe Hce]]].
  exists h, og, oe. split; [exact Hh|].
  unfold symmetric_gaussian_moving_average, symmetric_exponential_moving_average.
  rewrite Hwg, Hwe. cbn [bind].
  split; [exact Hog|]. split; [exact Hoe|].
  split; [exact Hlog|]. split; [exact Hloe|].
  intros i Hlo Hhi.
  assert (Hhalf : forall m, m = (2 * h + 1)%nat -> ((m - 1) / 2 = h)%nat).
  { intros m ->. replace (2 * h + 1 - 1)%nat with (h * 2)%nat by lia.
    apply Nat.div_mul. discriminate. }
  split.
  - apply Hcg; rewrite (Hhalf (length wg)) by lia; lia.
  - apply Hce; rewrite (Hhalf (length we)) by lia; lia.
Qed.

Lemma moving_average_of_constant_example :
  exists h gaussian exponential,
    Z.to_nat (force_odd 4) = (2 * h + 1)%nat
    /\ symmetric_gaussian_moving_average (map XFin (repeat 3 8)) 4 (XFin 1)
       = Ok gaussian
    /\ symmetric_exponential_moving_average (map XFin (repeat 3 8)) 4 (XFin 2)
       = Ok exponential
    /\ length gaussian = 8%nat
    /\ length exponential = 8%nat
    /\ forall i, (h <= i)%nat -> (i + h < 8)%nat ->
         nth i gaussian XNaN = XFin 3 /\ nth i exponential XNaN = XFin 3.
Proof.
  apply (@moving_average_of_constant 3 8 4 1 2); try lra; [lia | simpl; lia].
Defined.

End ExactSmoothing.

(** ** The transform-domain filter as a low-pass *)

Module ExactLowPass.

Import Reals Lra.
Import ExactReal Toolbox ExactFilter Vectors.

Open Scope R_scope.

(** The mean spacing of a time axis: [mean(diff(t - min(t)))]. *)
Definition spacing (tr : list R) : R :=
  (last tr 0 - hd 0 tr) / INR (length tr - 1).

Lemma spacing_value (m : R) (tr : list R) :
  (2 <= length tr)%nat ->
  np_mean (np_diff (map (fun x => (x - XFin m)%num) (map XFin tr)))
  = XFin (spacing tr).
Proof.
  intros Hlen. destruct tr as [|p l]; [simpl in Hlen; lia|].
  assert (Hl : l <> []) by (destruct l; [simpl in Hlen; lia | discriminate]).
  unfold np_mean, np_sum. cbn [map np_diff].
  assert (Hdl : length (diff_from (XFin p - XFin m)%num
                          (map (fun x => (x - XFin m)%num) (map XFin l)))
                = length l).
  { rewrite (@diff_from_spec xreal exact), length_map, length_seq, !length_map.
    reflexivity. }
  rewrite Hdl.
  destruct (sum_diff_from m l p 0) as [s [Hs Hv]].
  change (XFin p - XFin m)%num with (XFin (p - m)).
  change (@fzero xreal exact) with (XFin 0). rewrite Hs.
  cbn [fdiv of_Z exact].
  assert (Hn : IZR (Z.of_nat (length l)) <> 0).
  { apply IZR_of_nat_neq_0. destruct l; [contradiction | discriminate]. }
  rewrite xdiv_fin by exact Hn. f_equal.
  unfold spacing. rewrite last_cons. cbn [hd length].
  replace (S (length l) - 1)%nat with (length l) by lia.
  rewrite <- INR_IZR_INZ, Hv. f_equal. lra.
Qed.

(** The integer grid of [fftfreq]: [0, 1, ..., -2, -1]. *)
Definition grid (n : nat) : list Z :=
  let n' := Z.of_nat n in
  (map (fun i => Z.of_nat i) (seq 0 (Z.to_nat ((n' - 1) / 2 + 1)%Z))
   ++ map (fun i => (Z.of_nat i - n' / 2)%Z) (seq 0 (Z.to_nat (n' / 2)%Z)))%list.

Lemma fftfreq_grid (n : nat) :
  n <> 0%nat ->
  fftfreq n = map XFin (map (fun r => IZR r * (1 / INR n)) (grid n)).
Proof.
  intros Hn. unfold fftfreq, grid. cbv zeta. rewrite map_map.
  apply map_ext. intros r. unfold fone. cbn [fmul fdiv of_Z exact xmul].
  rewrite xdiv_fin.
  - cbn [xmul]. f_equal. rewrite <- INR_IZR_INZ. f_equal. f_equal. lra.
  - apply Rmult_integral_contrapositive. split.
    + apply IZR_of_nat_neq_0, Hn.
    + lra.
Qed.

Lemma grid_shape (n : nat) :
  n <> 0%nat ->
  exists rest, grid n = 0%Z :: rest /\ Forall (fun r => r <> 0%Z) rest.
Proof.
  intros Hn. unfold grid. cbv zeta.
  set (n' := Z.of_nat n).
  assert (Hn' : (1 <= n')%Z) by (unfold n'; lia).
  assert (Hhalf : (0 <= (n' - 1) / 2)%Z) by (apply Z.div_pos; lia).
  replace (Z.to_nat ((n' - 1) / 2 + 1)%Z) with (S (Z.to_nat ((n' - 1) / 2)%Z)) by lia.
  cbn [seq map app]. eexists. split; [reflexivity|].
  apply Forall_app. split; apply Forall_forall; intros r Hr;
    apply in_map_iff in Hr; destruct Hr as [i [<- Hi]]; apply in_seq in Hi.
  - lia.
  - assert (Z.of_nat i < n' / 2)%Z by lia. lia.
Qed.

Lemma grid_length (n : nat) : length (grid n) = n.
Proof.
  unfold grid. cbv zeta. rewrite length_app, !length_map, !length_seq.
  pose proof (Z.div_mod (Z.of_nat n) 2 ltac:(lia)).
  pose proof (Z.mod_pos_bound (Z.of_nat n) 2 ltac:(lia)).
  destruct (Nat.eq_dec n 0) as [->|Hn]; [reflexivity|].
  assert ((Z.of_nat n - 1) / 2 + 1 + Z.of_nat n / 2 = Z.of_nat n)%Z.
  { assert (Hc : (Z.of_nat n mod 2 = 0 \/ Z.of_nat n mod 2 = 1)%Z) by lia.
    destruct Hc as [Hc|Hc].
    - replace (Z.of_nat n - 1)%Z with ((Z.of_nat n / 2 - 1) * 2 + 1)%Z by lia.
      rewrite Z.div_add_l by lia. change (1 / 2)%Z with 0%Z. lia.
    - replace (Z.of_nat n - 1)%Z with ((Z.of_nat n / 2) * 2 + 0)%Z by lia.
      rewrite Z.div_add_l by lia. change (0 / 2)%Z with 0%Z. lia. }
  assert (0 <= (Z.of_nat n - 1) / 2)%Z by (apply Z.div_pos; lia).
  assert (0 <= Z.of_nat n / 2)%Z by (apply Z.div_pos; lia).
  lia.
Qed.


Lemma IZR_nonzero_abs (r : Z) : r <> 0%Z -> 1 <= Rabs (IZR r).
Proof.
  intros H. destruct (Z_lt_le_dec r 0) as [Hneg|Hpos].
  - rewrite Rabs_left by (apply IZR_lt; exact Hneg).
    assert (IZR r <= IZR (-1)) by (apply IZR_le; lia). lra.
  - rewrite Rabs_right by (apply Rle_ge, IZR_le; exact Hpos).
    apply (IZR_le 1). lia.
Qed.

(** Below the frequency resolution only the bin of frequency 0 passes. *)
Lemma low_pass_mask (n : nat) (s u : R) :
  n <> 0%nat -> s <> 0 -> 0 < u -> u * INR n * Rabs s <= 1 ->
  map (fun f => (f <? XFin u)%num)
      (map fabs (map (fun f => (f * XFin (1 / s))%num) (fftfreq n)))
  = true :: repeat false (n - 1).
Proof.
  intros Hn Hs Hu Hres. rewrite (fftfreq_grid Hn), !map_map.
  pose proof (grid_length n) as Hlen.
  destruct (grid_shape Hn) as [rest [Hg Hrest]]. rewrite Hg in *.
  cbn [length] in Hlen. replace (n - 1)%nat with (length rest) by lia.
  assert (HD : 0 < INR n * Rabs s).
  { apply Rmult_lt_0_compat; [apply lt_0_INR; lia | apply Rabs_pos_lt, Hs]. }
  cbn [map]. f_equal.
  - cbn [fmul fabs fltb exact xmul xabs xltb].
    replace (0 * (1 / INR n) * (1 / s)) with 0
      by (unfold Rdiv; rewrite !Rmult_0_l; reflexivity).
    rewrite Rabs_R0. destruct (Rlt_dec 0 u); [reflexivity | contradiction].
  - clear Hg Hlen. induction Hrest as [|r rest Hr _ IH]; [reflexivity|].
    cbn [map length repeat]. f_equal; [|exact IH].
    cbn [fmul fabs fltb exact xmul xabs xltb].
    destruct (Rlt_dec (Rabs (IZR r * (1 / INR n) * (1 / s))) u) as [Hlt|_];
      [|reflexivity].
    exfalso. pose proof (IZR_nonzero_abs Hr) as Hone.
    assert (Hval : Rabs (IZR r * (1 / INR n) * (1 / s))
                   = Rabs (IZR r) / (INR n * Rabs s)).
    { rewrite !Rabs_mult. unfold Rdiv. rewrite !Rmult_1_l.
      rewrite !Rabs_inv.
      rewrite (Rabs_right (INR n)) by (apply Rle_ge, pos_INR).
      field. split; [apply Rabs_no_R0, Hs | apply not_0_INR, Hn]. }
    rewrite Hval in Hlt.
    apply (Rmult_lt_compat_r (INR n * Rabs s)) in Hlt; [|exact HD].
    unfold Rdiv in Hlt. rewrite Rmult_assoc, Rinv_l, Rmult_1_r in Hlt by lra.
    lra.
Qed.

Lemma ang_zero (N : nat) : ang N 0 = 0.
Proof. unfold ang. cbn [INR]. unfold Rdiv. rewrite Rmult_0_r, Rmult_0_l. reflexivity. Qed.

(** The inverse transform of a spectrum whose only non-zero bin is the
    first one is constant. *)
Lemma single_bin_inverse (x0 : R * R) (xrest : list (R * R)) (j : nat) :
  (j < S (length xrest))%nat ->
  fst (nth j (dftR 1 (Cmul x0 (1, 0) :: map (fun c => Cmul c (0, 0)) xrest))
         (0, 0))
  = fst x0.
Proof.
  intros Hj. set (Xf := Cmul x0 (1, 0) :: map (fun c => Cmul c (0, 0)) xrest).
  assert (HXf : length Xf = S (length xrest))
    by (unfold Xf; cbn [length]; rewrite length_map; reflexivity).
  rewrite dftR_nth by (rewrite HXf; exact Hj). rewrite HXf. cbn [fst].
  rewrite (@bigsum_ext _
             (fun k => if Nat.eqb k 0 then fst x0 else 0) (S (length xrest))).
  - apply (bigsum_single (fun _ => fst x0)). lia.
  - intros k Hk. rewrite rootR_backward by discriminate.
    destruct k as [|k]; cbn [Nat.eqb].
    + cbn [Nat.mul]. rewrite ang_zero, cos_0, sin_0.
      unfold Xf. cbn [nth Cmul fst snd]. ring.
    + unfold Xf. cbn [nth].
      rewrite (nth_map_lt _ _ (0, 0)) by lia.
      cbn [Cmul fst snd]. ring.
Qed.

Lemma bigsum_nth (l : list R) : bigsum (fun m => nth m l 0) (length l) = Rsum l.
Proof.
  induction l as [|x l IH] using rev_ind; [reflexivity|].
  rewrite length_app, Nat.add_comm. cbn [length plus bigsum].
  rewrite (@bigsum_ext _ (fun m => nth m l 0) (length l)).
  - rewrite IH, app_nth2, Nat.sub_diag by lia. cbn [nth].
    unfold Rsum. rewrite fold_right_app. cbn [fold_right].
    clear IH. induction l as [|y l IHl]; cbn [fold_right]; [lra|].
    rewrite <- IHl. lra.
  - intros k Hk. apply app_nth1. exact Hk.
Qed.

(** The first bin of the transform of a real signal is its sum. *)
Lemma first_bin (yr : list R) :
  yr <> [] ->
  fst (nth 0 (dftR (-1) (map (fun v => (v, 0)) yr)) (0, 0)) = Rsum yr.
Proof.
  intros Hy.
  assert (HN : length yr <> 0%nat) by (destruct yr; [contradiction | discriminate]).
  rewrite dftR_nth by (rewrite length_map; lia). rewrite length_map. cbn [fst].
  rewrite <- bigsum_nth. apply bigsum_ext. intros m Hm.
  rewrite Nat.mul_0_r, rootR_forward, ang_zero, cos_0, sin_0 by exact HN.
  rewrite (nth_map_lt _ _ 0) by exact Hm. cbn [Cmul fst snd]. ring.
Qed.


Lemma low_pass_with_time_axis (yr tr : list R) (u : R) :
  (2 <= length yr)%nat ->
  length tr = length yr ->
  last tr 0 <> hd 0 tr ->
  0 < u ->
  u * INR (length yr) * Rabs (spacing tr) <= 1 ->
  frequency_filtering_fft (map XFin yr) (Some (map XFin tr))
    (Some (XFin u)) None "all"
  = Ok (map XFin (repeat (Rsum yr / INR (length yr)) (length yr))).
Proof.
  intros HN Hlen Hne Hu Hres.
  assert (Hy : yr <> []) by (destruct yr; [simpl in HN; lia | discriminate]).
  assert (Ht : tr <> []) by (destruct tr; [simpl in *; lia | discriminate]).
  assert (Hs : spacing tr <> 0).
  { unfold spacing. intros E. apply Rmult_integral in E.
    destruct E as [E|E]; [lra|].
    apply (Rinv_neq_0_compat (INR (length tr - 1))); [|exact E].
    apply not_0_INR. lia. }
  unfold frequency_filtering_fft.
  rewrite !length_map, Hlen, Nat.eqb_refl. cbn [negb bind].
  destruct (np_min_finite Ht) as [m ->]. cbn [bind].
  rewrite (fft_lift Hy). cbn [bind].
  rewrite (@spacing_value m tr) by lia.
  assert (Hinv : (fone / XFin (spacing tr))%num = XFin (1 / spacing tr))
    by (unfold fone; cbn [fdiv of_Z exact]; apply xdiv_fin, Hs).
  rewrite !Hinv.
  change (String.eqb "all" "all") with true. cbn [bind].
  rewrite (@low_pass_mask (length yr) (spacing tr) u) by (lia || assumption).
  set (X := dftR (-1) (map (fun v => (v, 0)) yr)).
  assert (HX : length X = length yr)
    by (unfold X; rewrite dftR_length; apply length_map).
  assert (Hfirst : fst (nth 0 X (0, 0)) = Rsum yr) by (apply first_bin, Hy).
  destruct X as [|x0 xrest]; [simpl in HX; lia|].
  cbn [nth] in Hfirst. cbn [length] in HX.
  replace (length yr - 1)%nat with (length xrest) by lia.
  assert (Hmasked :
            map (fun p => cmul (fst p) (of_bool (snd p)))
                (combine (map lift (x0 :: xrest))
                         (true :: repeat false (length xrest)))
            = map lift (Cmul x0 (1, 0) :: map (fun c => Cmul c (0, 0)) xrest)).
  { cbn [map combine fst snd]. f_equal.
    clear. induction xrest as [|c xrest IH]; [reflexivity|].
    cbn [map length repeat combine fst snd]. f_equal. exact IH. }
  rewrite Hmasked, ifft_lift by discriminate. cbn [bind]. f_equal.
  rewrite !map_map. cbn [lift fst length]. rewrite length_map.
  rewrite <- HX.
  apply (nth_ext _ _ XNaN XNaN).
  - rewrite !length_map, dftR_length, repeat_length. cbn [length].
    rewrite length_map. reflexivity.
  - intros j Hj. rewrite length_map, dftR_length in Hj. cbn [length] in Hj.
    rewrite length_map in Hj.
    rewrite (nth_map_lt _ _ (0, 0))
      by (rewrite dftR_length; cbn [length]; rewrite length_map; exact Hj).
    rewrite (nth_map_lt _ _ 0) by (rewrite repeat_length; exact Hj).
    rewrite nth_repeat_lt by exact Hj.
    rewrite single_bin_inverse by exact Hj. rewrite Hfirst. f_equal.
    unfold Rdiv. rewrite Rmult_1_l. reflexivity.
Qed.

Lemma arange_axis_spacing (n : nat) :
  (2 <= n)%nat -> spacing (map IZR (range n)) = 1.
Proof.
  intros Hn. unfold spacing. rewrite length_map, range_length.
  destruct n as [|[|n]]; try lia.
  unfold range. rewrite seq_S, !map_app. cbn [map]. rewrite last_last.
  cbn [seq map hd plus]. replace (S (S n) - 1)%nat with (S n) by lia.
  cbn [app hd]. change (IZR (Z.of_nat 0)) with 0.
  rewrite INR_IZR_INZ. unfold Rminus, Rdiv. rewrite Ropp_0, Rplus_0_r.
  apply Rinv_r. apply IZR_of_nat_neq_0. discriminate.
Qed.

(** The mean spacing that the filter takes as the sampling period:
    that of the time axis, or 1 without one. *)
Definition sampling_period (t : option (list R)) : R :=
  match t with
  | Some tr => spacing tr
  | None => 1
  end.

(** X19. Over exact arithmetic, a low-pass whose upper bound is positive
    and at most the frequency resolution [1 / (N * period)] keeps only
    the bin of frequency 0: in mode ["all"] the filter returns the mean
    of the signal at every sample. *)
Theorem frequency_filtering_fft_mean (yr : list R) (t : option (list R))
  (u : R) :
  (2 <= length yr)%nat ->
  (forall tr, t = Some tr -> length tr = length yr /\ last tr 0 <> hd 0 tr) ->
  0 < u ->
  u * INR (length yr) * Rabs (sampling_period t) <= 1 ->
  frequency_filtering_fft (map XFin yr) (option_map (map XFin) t)
    (Some (XFin u)) None "all"
  = Ok (map XFin (repeat (Rsum yr / INR (length yr)) (length yr))).
Proof.
  intros HN Ht Hu Hres. destruct t as [tr|]; cbn [option_map sampling_period] in *.
  - destruct (Ht tr eq_refl) as [Hlen Hne].
    apply low_pass_with_time_axis; assumption.
  - rewrite without_time_axis, length_map, arange_exact.
    apply low_pass_with_time_axis; try assumption.
    + rewrite length_map. apply range_length.
    + apply arange_spacing. exact HN.
    + rewrite arange_axis_spacing by exact HN. exact Hres.
Qed.

Lemma frequency_filtering_fft_mean_example :
  frequency_filtering_fft (map XFin [1; 2; 6]) (Some (map XFin [0; 2; 4]))
    (Some (XFin (1 / 8))) None "all"
  = Ok (map XFin (repeat (Rsum [1; 2; 6] / INR 3) 3)).
Proof.
  apply (@frequency_filtering_fft_mean [1; 2; 6] (Some [0; 2; 4]) (1 / 8)).
  - simpl. lia.
  - intros tr H. apply Some_inj in H. subst tr. split; [reflexivity|].
    simpl. lra.
  - lra.
  - unfold sampling_period, spacing. cbn [last hd length Nat.sub INR].
    replace ((4 - 0) / (1 + 1)) with 2 by lra.
    rewrite Rabs_right by lra. lra.
Defined.

End ExactLowPass.

(** ** The helpers of the screens: [utils.helpers] *)

Module Helpers.

Section AllType.

(** Python type objects, compared with [is]. *)
Variable pytype : Type.
Variable type_is : pytype -> pytype -> bool.

(** The [x_type] argument: a list of types, one type, or anything else. *)
Inductive x_type_arg : Type :=
| TypeList (types : list pytype)
| TypeObject (t : pytype)
| NotAType.

(** The truth value of a list: whether it has an element. *)
Definition truthy {A : Type} (l : list A) : bool :=
  match l with [] => false | _ :: _ => true end.

(** [all_type_x(data, x_type)]; [data] is given by the types of its
    elements. With a list of types, [all] runs over one list of booleans
    per type. *)
Definition all_type_x (data : list pytype) (x_type : x_type_arg) : result bool :=
  match x_type with
  | TypeList types =>
      Ok (forallb truthy
            (map (fun x => map (fun i => type_is i x) data) types))
  | TypeObject t => Ok (forallb (fun b => b) (map (fun i => type_is i t) data))
  | NotAType => Err (TypeError "x_type must be a type")
  end.

End AllType.

(** *** [find_closest_point] *)

(** Indexing past the end of an array raises [IndexError], which the other
    functions never do. *)
Inductive failure : Type :=
| Raised (e : exn)
| IndexError (msg : string).

Inductive attempt (A : Type) : Type :=
| Found (a : A)
| Failed (e : failure).

Arguments Found {A} a.
Arguments Failed {A} e.

Section ClosestPoint.

Context {F : Type} {num : Number F}.

(** [a + b] on one-dimensional arrays, with numpy's broadcasting of an
    array of length 1. *)
Definition broadcast_add (a b : list F) : attempt (list F) :=
  if (length a =? length b)%nat
  then Found (map (fun p => (fst p + snd p)%num) (combine a b))
  else if (length a =? 1)%nat
  then Found (map (fun v => (hd fnan a + v)%num) b)
  else if (length b =? 1)%nat
  then Found (map (fun v => (v + hd fnan b)%num) a)
  else Failed (Raised (ValueError "operands could not be broadcast together")).

(** [numpy.argmin(a)]: the first position of the smallest element, the
    first NaN if there is one. [best] is the running answer, [k] the
    position of the head of [a]. *)
Fixpoint argmin_from (best : nat * F) (k : nat) (a : list F) : nat :=
  match a with
  | [] => fst best
  | v :: rest =>
      if fisnan (snd best) then fst best
      else if fisnan v || (v <? snd best)%num
      then argmin_from (k, v) (S k) rest
      else argmin_from best (S k) rest
  end.

Definition argmin (a : list F) : attempt nat :=
  match a with
  | [] => Failed (Raised (ValueError "attempt to get argmin of an empty sequence"))
  | v :: rest => Found (argmin_from (0%nat, v) 1 rest)
  end.

(** [numpy.argmax(a)] *)
Fixpoint argmax_from (best : nat * F) (k : nat) (a : list F) : nat :=
  match a with
  | [] => fst best
  | v :: rest =>
      if fisnan (snd best) then fst best
      else if fisnan v || (snd best <? v)%num
      then argmax_from (k, v) (S k) rest
      else argmax_from best (S k) rest
  end.

Definition argmax (a : list F) : attempt nat :=
  match a with
  | [] => Failed (Raised (ValueError "attempt to get argmax of an empty sequence"))
  | v :: rest => Found (argmax_from (0%nat, v) 1 rest)
  end.

(** [x == v] on floats *)
Definition feqb (x v : F) : bool := (x <=? v)%num && (v <=? x)%num.

(** [where(x_data == v)[0][0]]: the first position that holds [v]. *)
Fixpoint where_first (k : nat) (x_data : list F) (v : F) : attempt nat :=
  match x_data with
  | [] => Failed (IndexError "index 0 is out of bounds for axis 0 with size 0")
  | x :: rest => if feqb x v then Found k else where_first (S k) rest v
  end.

(** [a[k]] for a position [k >= 0] *)
Definition item (a : list F) (k : nat) : attempt F :=
  match nth_error a k with
  | Some v => Found v
  | None => Failed (IndexError "index out of bounds")
  end.

(** The slice bounds of the snap-on search around [index]. *)
Definition snap_window (index : nat) (len_y : nat) : Z * Z :=
  if (index <=? 5)%nat then (0, 12)%Z
  else if (Z.of_nat len_y - 1 <=? Z.of_nat index)%Z then (-12, -1)%Z
  else (Z.of_nat index - 6, Z.of_nat index + 6)%Z.

Definition distances (x_data y_data : list F) (target : F * F)
  (aspect_ratio : F) : attempt (list F) :=
  let dx := map (fun x => let d := ((x - fst target) / aspect_ratio)%num in
                          (d * d)%num) x_data in
  let dy := map (fun y => let d := (y - snd target)%num in (d * d)%num) y_data in
  match broadcast_add dx dy with
  | Found sums => Found (map fsqrt sums)
  | Failed e => Failed e
  end.

(** [find_closest_point((x_data, y_data), target, aspect_ratio,
    snap_on_max)] on two one-dimensional float arrays. *)
Definition find_closest_point (x_data y_data : list F) (target : F * F)
  (aspect_ratio : F) (snap_on_max : Z) : attempt nat :=
  match distances x_data y_data target aspect_ratio with
  | Failed e => Failed e
  | Found d =>
      match argmin d with
      | Failed e => Failed e
      | Found index =>
          if (snap_on_max =? 1)%Z then
            let (a, b) := snap_window index (length y_data) in
            match argmax (py_slice y_data a b) with
            | Failed e => Failed e
            | Found k =>
                match item (py_slice x_data a b) k with
                | Failed e => Failed e
                | Found v => where_first 0 x_data v
                end
            end
          else Found index
      end
  end.

End ClosestPoint.

(** Three Python types. *)
Inductive builtin : Type := PyInt | PyFloat | PyStr.

Definition builtin_is (a b : builtin) : bool :=
  match a, b with
  | PyInt, PyInt | PyFloat, PyFloat | PyStr, PyStr => true
  | _, _ => false
  end.

(** *** Facts about [all_type_x] *)

Section AllTypeFacts.

Variable pytype : Type.
Variable type_is : pytype -> pytype -> bool.

(** With one type the function tests every element. *)
Lemma all_type_x_one_type (data : list pytype) (t : pytype) :
  all_type_x type_is data (TypeObject t) = Ok (forallb (fun i => type_is i t) data).
Proof.
  unfold all_type_x. f_equal. induction data as [|i data IH]; [reflexivity|].
  cbn [map forallb]. rewrite IH. reflexivity.
Qed.

(** X20. With a list of types the answer does not depend on any type:
    for non-empty [data] it is [True], whatever the elements and the
    listed types are, because each per-type list of booleans is
    non-empty. *)
Theorem all_type_x_list_ignores_types (data : list pytype)
  (types : list pytype) :
  data <> [] ->
  all_type_x type_is data (TypeList types) = Ok true.
Proof.
  intros H. unfold all_type_x. f_equal.
  induction types as [|x types IH]; [reflexivity|].
  cbn [map forallb]. rewrite IH.
  destruct data as [|i data]; [contradiction | reflexivity].
Qed.

End AllTypeFacts.

(** Strings pass the list form of the check for numbers, and fail the
    single-type form. *)
Lemma all_type_x_list_ignores_types_example :
  all_type_x builtin_is [PyStr; PyStr] (TypeList [PyInt; PyFloat]) = Ok true
  /\ all_type_x builtin_is [PyStr; PyStr] (TypeObject PyInt) = Ok false.
Proof.
  split; [|reflexivity].
  apply (@all_type_x_list_ignores_types builtin builtin_is
           [PyStr; PyStr] [PyInt; PyFloat]).
  discriminate.
Defined.


(** *** Facts about [find_closest_point], over exact arithmetic *)

Import Reals Lra.
Import ExactReal.

Open Scope R_scope.

(** The on-screen distance of sample [(x, y)] from the target. *)
Definition distance (target : R * R) (aspect_ratio : R) (p : R * R) : R :=
  sqrt ((fst p - fst target) / aspect_ratio * ((fst p - fst target) / aspect_ratio)
        + (snd p - snd target) * (snd p - snd target)).

Lemma distances_finite (xs ys : list R) (target : R * R) (a : R) :
  length xs = length ys -> a <> 0 ->
  distances (map XFin xs) (map XFin ys) (XFin (fst target), XFin (snd target))
    (XFin a)
  = Found (map XFin (map (distance target a) (combine xs ys))).
Proof.
  intros Hlen Ha. unfold distances, broadcast_add. cbv zeta.
  rewrite !length_map, Hlen, Nat.eqb_refl. f_equal.
  rewrite !map_map. revert ys Hlen.
  induction xs as [|x xs IH]; intros [|y ys] Hlen; try discriminate;
    [reflexivity|].
  cbn [map combine fst snd]. f_equal; [|apply IH; simpl in Hlen; lia].
  cbn [fsub fdiv fmul fadd fsqrt exact xsub xdiv xmul xadd].
  destruct (Req_dec_T a 0) as [E|_]; [contradiction|].
  cbn [xmul xadd xsqrt]. unfold distance. cbn [fst snd].
  destruct (Rlt_dec _ 0) as [Hneg|_]; [|reflexivity].
  exfalso.
  pose proof (Rle_0_sqr ((x - fst target) / a)) as H1.
  pose proof (Rle_0_sqr (y - snd target)) as H2.
  unfold Rsqr in H1, H2. lra.
Qed.

(** [i] is the first position of a smallest entry of [l]. *)
Definition first_smallest (l : list R) (i : nat) : Prop :=
  (i < length l)%nat
  /\ (forall j, (j < length l)%nat -> nth i l 0 <= nth j l 0)
  /\ (forall j, (j < i)%nat -> nth i l 0 < nth j l 0).

(** [i] is the first position of a largest entry of [l]. *)
Definition first_largest (l : list R) (i : nat) : Prop :=
  (i < length l)%nat
  /\ (forall j, (j < length l)%nat -> nth j l 0 <= nth i l 0)
  /\ (forall j, (j < i)%nat -> nth j l 0 < nth i l 0).

Lemma nth_snoc_old {A : Type} (pre : list A) (v d : A) (j : nat) :
  (j < length pre)%nat -> nth j (pre ++ [v]) d = nth j pre d.
Proof. intros H. apply app_nth1, H. Qed.

Lemma nth_snoc_new {A : Type} (pre : list A) (v d : A) :
  nth (length pre) (pre ++ [v]) d = v.
Proof. rewrite app_nth2, Nat.sub_diag by lia. reflexivity. Qed.

Lemma argmin_from_finite (l : list R) :
  forall pre b,
    first_smallest pre b ->
    first_smallest (pre ++ l)
      (argmin_from (b, XFin (nth b pre 0)) (length pre) (map XFin l)).
Proof.
  induction l as [|v rest IH]; intros pre b Hb.
  - rewrite app_nil_r. exact Hb.
  - cbn [map argmin_from snd fst fisnan exact xisnan orb fltb xltb].
    destruct Hb as [Hlt [Hmin Hfirst]].
    replace (pre ++ v :: rest)%list with ((pre ++ [v]) ++ rest)%list
      by (rewrite <- app_assoc; reflexivity).
    destruct (Rlt_dec v (nth b pre 0)) as [Hv|Hv].
    + pose proof (IH (pre ++ [v])%list (length pre)) as H.
      rewrite nth_snoc_new, length_app, Nat.add_comm in H. apply H.
      split; [rewrite length_app; simpl; lia|]. rewrite nth_snoc_new. split.
      * intros j Hj. rewrite length_app in Hj. cbn [length] in Hj.
        destruct (Nat.eq_dec j (length pre)) as [->|Hne].
        -- rewrite nth_snoc_new. lra.
        -- rewrite nth_snoc_old by lia. specialize (Hmin j ltac:(lia)). lra.
      * intros j Hj. rewrite nth_snoc_old by lia.
        specialize (Hmin j ltac:(lia)). lra.
    + pose proof (IH (pre ++ [v])%list b) as H.
      rewrite nth_snoc_old, length_app, Nat.add_comm in H by exact Hlt. apply H.
      split; [rewrite length_app; simpl; lia|].
      rewrite nth_snoc_old by exact Hlt. split.
      * intros j Hj. rewrite length_app in Hj. cbn [length] in Hj.
        destruct (Nat.eq_dec j (length pre)) as [->|Hne].
        -- rewrite nth_snoc_new. lra.
        -- rewrite nth_snoc_old by lia. apply Hmin. lia.
      * intros j Hj. rewrite nth_snoc_old by lia. apply Hfirst, Hj.
Qed.

Lemma argmin_finite (l : list R) :
  l <> [] -> exists i, argmin (map XFin l) = Found i /\ first_smallest l i.
Proof.
  destruct l as [|v rest]; [contradiction|]. intros _.
  eexists. split; [reflexivity|].
  apply (@argmin_from_finite rest [v] 0%nat).
  split; [simpl; lia|]. split.
  - intros j Hj. simpl in Hj. replace j with 0%nat by lia. simpl. lra.
  - intros j Hj. lia.
Qed.

Lemma argmax_from_finite (l : list R) :
  forall pre b,
    first_largest pre b ->
    first_largest (pre ++ l)
      (argmax_from (b, XFin (nth b pre 0)) (length pre) (map XFin l)).
Proof.
  induction l as [|v rest IH]; intros pre b Hb.
  - rewrite app_nil_r. exact Hb.
  - cbn [map argmax_from snd fst fisnan exact xisnan orb fltb xltb].
    destruct Hb as [Hlt [Hmax Hfirst]].
    replace (pre ++ v :: rest)%list with ((pre ++ [v]) ++ rest)%list
      by (rewrite <- app_assoc; reflexivity).
    destruct (Rlt_dec (nth b pre 0) v) as [Hv|Hv].
    + pose proof (IH (pre ++ [v])%list (length pre)) as H.
      rewrite nth_snoc_new, length_app, Nat.add_comm in H. apply H.
      split; [rewrite length_app; simpl; lia|]. rewrite nth_snoc_new. split.
      * intros j Hj. rewrite length_app in Hj. cbn [length] in Hj.
        destruct (Nat.eq_dec j (length pre)) as [->|Hne].
        -- rewrite nth_snoc_new. lra.
        -- rewrite nth_snoc_old by lia. specialize (Hmax j ltac:(lia)). lra.
      * intros j Hj. rewrite nth_snoc_old by lia.
        specialize (Hmax j ltac:(lia)). lra.
    + pose proof (IH (pre ++ [v])%list b) as H.
      rewrite nth_snoc_old, length_app, Nat.add_comm in H by exact Hlt. apply H.
      split; [rewrite length_app; simpl; lia|].
      rewrite nth_snoc_old by exact Hlt. split.
      * intros j Hj. rewrite length_app in Hj. cbn [length] in Hj.
        destruct (Nat.eq_dec j (length pre)) as [->|Hne].
        -- rewrite nth_snoc_new. lra.
        -- rewrite nth_snoc_old by lia. apply Hmax. lia.
      * intros j Hj. rewrite nth_snoc_old by lia. apply Hfirst, Hj.
Qed.

Lemma argmax_finite (l : list R) :
  l <> [] -> exists i, argmax (map XFin l) = Found i /\ first_largest l i.
Proof.
  destruct l as [|v rest]; [contradiction|]. intros _.
  eexists. split; [reflexivity|].
  apply (@argmax_from_finite rest [v] 0%nat).
  split; [simpl; lia|]. split.
  - intros j Hj. simpl in Hj. replace j with 0%nat by lia. simpl. lra.
  - intros j Hj. lia.
Qed.

(** X21. Without snapping, [find_closest_point] returns the first of the
    samples that are closest to the target on screen. *)
Theorem find_closest_point_is_closest (xs ys : list R) (target : R * R)
  (aspect_ratio : R) (snap_on_max : Z) :
  xs <> [] -> length xs = length ys -> aspect_ratio <> 0 ->
  snap_on_max <> 1%Z ->
  exists i,
    find_closest_point (map XFin xs) (map XFin ys)
      (XFin (fst target), XFin (snd target)) (XFin aspect_ratio) snap_on_max
    = Found i
    /\ first_smallest (map (distance target aspect_ratio) (combine xs ys)) i.
Proof.
  intros Hne Hlen Ha Hsnap. unfold find_closest_point.
  rewrite (@distances_finite xs ys target aspect_ratio Hlen Ha).
  destruct (@argmin_finite (map (distance target aspect_ratio) (combine xs ys)))
    as [i [Hi Hfirst]].
  { destruct xs; [contradiction|]. destruct ys; [discriminate | discriminate]. }
  rewrite Hi. destruct (Z.eqb_spec snap_on_max 1) as [E|_]; [contradiction|].
  exists i. split; [reflexivity | exact Hfirst].
Qed.

Lemma find_closest_point_is_closest_example :
  exists i,
    find_closest_point (map XFin [0; 1; 2; 3]) (map XFin [5; 1; 4; 1])
      (XFin (fst (2, 3)), XFin (snd (2, 3))) (XFin 1) 0
    = Found i
    /\ first_smallest (map (distance (2, 3) 1) (combine [0; 1; 2; 3] [5; 1; 4; 1])) i.
Proof.
  apply (@find_closest_point_is_closest [0; 1; 2; 3] [5; 1; 4; 1] (2, 3) 1 0%Z);
    [discriminate | reflexivity | lra | discriminate].
Defined.


(** The positions [[lo, hi)] that the snap-on search looks at when the
    closest sample is [index], in a record of [n] samples. *)
Definition window_of (index n : nat) : nat * nat :=
  if (index <=? 5)%nat then (0%nat, Nat.min 12 n)
  else if (n - 1 <=? index)%nat then ((n - 12)%nat, (n - 1)%nat)
  else ((index - 6)%nat, Nat.min (index + 6) n).

Lemma window_of_bounds (index n : nat) :
  (index < n)%nat ->
  (fst (window_of index n) < snd (window_of index n))%nat
  /\ (snd (window_of index n) <= n)%nat.
Proof.
  intros H. unfold window_of.
  destruct (Nat.leb_spec index 5); cbn [fst snd]; [lia|].
  destruct (Nat.leb_spec (n - 1) index); cbn [fst snd]; lia.
Qed.

Lemma window_of_last (index n : nat) :
  (6 <= index)%nat -> index = (n - 1)%nat ->
  (snd (window_of index n) <= index)%nat.
Proof.
  intros H6 Hlast. unfold window_of.
  destruct (Nat.leb_spec index 5); [lia|].
  destruct (Nat.leb_spec (n - 1) index); cbn [snd]; lia.
Qed.

Lemma snap_slice {A : Type} (l : list A) (index : nat) :
  (index < length l)%nat ->
  py_slice l (fst (snap_window index (length l)))
             (snd (snap_window index (length l)))
  = firstn (snd (window_of index (length l)) - fst (window_of index (length l)))
           (skipn (fst (window_of index (length l))) l).
Proof.
  intros H. unfold snap_window, window_of, py_slice, clip_index.
  destruct (Nat.leb_spec index 5); cbn [fst snd].
  - cbn [Z.ltb Z.compare]. f_equal; [lia | f_equal; lia].
  - destruct (Z.leb_spec (Z.of_nat (length l) - 1) (Z.of_nat index));
      destruct (Nat.leb_spec (length l - 1) index); try lia; cbn [fst snd].
    + cbn [Z.ltb Z.compare]. f_equal; [lia | f_equal; lia].
    + destruct (Z.ltb_spec (Z.of_nat index - 6) 0); [lia|].
      destruct (Z.ltb_spec (Z.of_nat index + 6) 0); [lia|].
      f_equal; [lia | f_equal; lia].
Qed.

Lemma py_slice_map {A B : Type} (f : A -> B) (l : list A) (a b : Z) :
  py_slice (map f l) a b = map f (py_slice l a b).
Proof.
  unfold py_slice. rewrite length_map, skipn_map, firstn_map. reflexivity.
Qed.

Lemma nonempty_window {A : Type} (l : list A) : (0 < length l)%nat -> l <> [].
Proof. destruct l; simpl; [lia | discriminate]. Qed.

Lemma nth_window {A : Type} (l : list A) (lo hi k : nat) (d : A) :
  (k < hi - lo)%nat ->
  nth k (firstn (hi - lo) (skipn lo l)) d = nth (lo + k) l d.
Proof.
  intros H. rewrite nth_firstn.
  destruct (Nat.ltb_spec k (hi - lo)); [|lia].
  apply nth_skipn.
Qed.

Lemma length_window {A : Type} (l : list A) (lo hi : nat) :
  (lo <= hi)%nat -> (hi <= length l)%nat ->
  length (firstn (hi - lo) (skipn lo l)) = (hi - lo)%nat.
Proof. intros H1 H2. rewrite length_firstn, length_skipn. lia. Qed.

Lemma where_first_finite (l : list R) :
  forall k0 p,
    (p < length l)%nat ->
    (forall j, (j < p)%nat -> nth j l 0 <> nth p l 0) ->
    where_first k0 (map XFin l) (XFin (nth p l 0)) = Found (k0 + p)%nat.
Proof.
  induction l as [|x rest IH]; intros k0 p Hp Hfirst; [simpl in Hp; lia|].
  cbn [map where_first]. unfold feqb. cbn [fleb exact xleb].
  destruct p as [|p].
  - cbn [nth]. destruct (Rle_dec x x) as [_|H]; [|exfalso; apply H; lra].
    cbn [andb]. f_equal. lia.
  - cbn [nth]. pose proof (Hfirst 0%nat ltac:(lia)) as H0. cbn [nth] in H0.
    assert (Hneq : (if Rle_dec x (nth p rest 0) then true else false)
                   && (if Rle_dec (nth p rest 0) x then true else false) = false).
    { destruct (Rle_dec x (nth p rest 0)); destruct (Rle_dec (nth p rest 0) x);
        try reflexivity. exfalso. apply H0. lra. }
    rewrite Hneq. rewrite (IH (S k0) p).
    + f_equal. lia.
    + simpl in Hp. lia.
    + intros j Hj. apply (Hfirst (S j)). lia.
Qed.

Lemma increasing_nth (l : list R) :
  StronglySorted Rlt l ->
  forall j p, (j < p)%nat -> (p < length l)%nat -> nth j l 0 < nth p l 0.
Proof.
  induction 1 as [|a l Hs IH Ha]; intros j p Hjp Hp; [simpl in Hp; lia|].
  destruct p as [|p]; [lia|]. simpl in Hp. destruct j as [|j].
  - cbn [nth]. rewrite Forall_forall in Ha. apply Ha, nth_In. lia.
  - cbn [nth]. apply IH; lia.
Qed.

(** X22. With snapping and a strictly increasing [x_data], the function
    returns the first position of the largest [y] among the positions
    [[lo, hi)] around the closest sample. When the closest sample is the
    last one of a record of seven or more, the range ends before it, so
    the last sample is never returned. *)
Theorem find_closest_point_snaps (xs ys : list R) (target : R * R)
  (aspect_ratio : R) :
  xs <> [] -> length xs = length ys -> aspect_ratio <> 0 ->
  StronglySorted Rlt xs ->
  exists i p,
    find_closest_point (map XFin xs) (map XFin ys)
      (XFin (fst target), XFin (snd target)) (XFin aspect_ratio) 0
    = Found i
    /\ find_closest_point (map XFin xs) (map XFin ys)
         (XFin (fst target), XFin (snd target)) (XFin aspect_ratio) 1
       = Found p
    /\ (fst (window_of i (length ys)) <= p < snd (window_of i (length ys)))%nat
    /\ (forall q, (fst (window_of i (length ys)) <= q
                   < snd (window_of i (length ys)))%nat ->
                  nth q ys 0 <= nth p ys 0)
    /\ (forall q, (fst (window_of i (length ys)) <= q < p)%nat ->
                  nth q ys 0 < nth p ys 0)
    /\ ((6 <= i)%nat -> i = (length ys - 1)%nat -> (p < i)%nat).
Proof.
  intros Hne Hlen Ha Hinc. unfold find_closest_point.
  rewrite (@distances_finite xs ys target aspect_ratio Hlen Ha).
  destruct (@argmin_finite (map (distance target aspect_ratio) (combine xs ys)))
    as [i [Hi [Hilt _]]].
  { destruct xs; [contradiction|]. destruct ys; [discriminate | discriminate]. }
  rewrite Hi. rewrite length_map, length_combine, Hlen, Nat.min_id in Hilt.
  change (0 =? 1)%Z with false. change (1 =? 1)%Z with true. cbv iota.
  rewrite length_map.
  destruct (snap_window i (length ys)) as [a b] eqn:Ewin.
  pose proof (@snap_slice R ys i Hilt) as Hys.
  pose proof (@snap_slice R xs i ltac:(lia)) as Hxs.
  rewrite Hlen in Hxs. rewrite Ewin in Hys, Hxs. cbn [fst snd] in Hys, Hxs.
  destruct (window_of_bounds Hilt) as [Hlohi Hhi].
  set (lo := fst (window_of i (length ys))) in *.
  set (hi := snd (window_of i (length ys))) in *.
  rewrite !py_slice_map, Hys, Hxs.
  assert (Hywin : length (firstn (hi - lo) (skipn lo ys)) = (hi - lo)%nat)
    by (apply length_window; lia).
  assert (Hxwin : length (firstn (hi - lo) (skipn lo xs)) = (hi - lo)%nat)
    by (apply length_window; lia).
  destruct (@argmax_finite (firstn (hi - lo) (skipn lo ys)))
    as [k [Hk [Hklt [Hmax Hfirst]]]].
  { apply nonempty_window. rewrite Hywin. lia. }
  rewrite Hk. rewrite Hywin in Hklt, Hmax.
  unfold item. rewrite nth_error_map.
  rewrite (nth_error_nth' _ 0) by (rewrite Hxwin; exact Hklt).
  cbn [option_map]. rewrite nth_window by exact Hklt.
  rewrite where_first_finite.
  - exists i, (lo + k)%nat. split; [reflexivity|]. split; [reflexivity|].
    split; [lia|]. split; [|split].
    + intros q Hq. specialize (Hmax (q - lo)%nat ltac:(lia)).
      rewrite !nth_window in Hmax by lia.
      replace (lo + (q - lo))%nat with q in Hmax by lia. exact Hmax.
    + intros q Hq. specialize (Hfirst (q - lo)%nat ltac:(lia)).
      rewrite !nth_window in Hfirst by lia.
      replace (lo + (q - lo))%nat with q in Hfirst by lia. exact Hfirst.
    + intros Hsix Hlast.
      pose proof (@window_of_last i (length ys) Hsix Hlast) as Hend.
      fold hi in Hend. lia.
  - lia.
  - intros j Hj Heq.
    pose proof (@increasing_nth xs Hinc j (lo + k)%nat Hj ltac:(lia)). lra.
Qed.

(** Eight samples, the highest one last. *)
Definition rising_x : list R := [0; 1; 2; 3; 4; 5; 6; 7].
Definition rising_y : list R := [0; 0; 0; 0; 0; 0; 1; 9].

Lemma find_closest_point_snaps_example :
  exists i p,
    find_closest_point (map XFin rising_x) (map XFin rising_y)
      (XFin (fst (7, 9)), XFin (snd (7, 9))) (XFin 1) 0
    = Found i
    /\ find_closest_point (map XFin rising_x) (map XFin rising_y)
         (XFin (fst (7, 9)), XFin (snd (7, 9))) (XFin 1) 1
       = Found p
    /\ (fst (window_of i (length rising_y)) <= p
        < snd (window_of i (length rising_y)))%nat
    /\ (forall q, (fst (window_of i (length rising_y)) <= q
                   < snd (window_of i (length rising_y)))%nat ->
                  nth q rising_y 0 <= nth p rising_y 0)
    /\ (forall q, (fst (window_of i (length rising_y)) <= q < p)%nat ->
                  nth q rising_y 0 < nth p rising_y 0)
    /\ ((6 <= i)%nat -> i = (length rising_y - 1)%nat -> (p < i)%nat).
Proof.
  apply (@find_closest_point_snaps rising_x rising_y (7, 9) 1).
  - discriminate.
  - reflexivity.
  - lra.
  - unfold rising_x. repeat constructor; lra.
Defined.

End Helpers.
